(** * MultiVec: similarity queries, weight normalisation and Huffman counts

    A shallow embedding of [multivec/distance.cpp] and of the data
    declarations of [multivec/multivec-mono.hpp], with the properties the
    specification states about them, and of the inline helpers of the
    header, with further properties of the code.

    - C++ [float] is IEEE-754 binary32: [spec_float] with a 24 bit mantissa
      and the operations of [SpecFloat] (round to nearest, ties to even).
    - A method of [MonolingualModel] is a computation over the model: it
      returns a value, throws a [runtime_error], or has no defined behaviour
      (an access past the end of a vector, a signed overflow).
    - [std::vector] is a list, indexed with stdpp's lookup; [std::map] is a
      [gmap]. *)

From Stdlib Require Import ZArith Bool List Ascii String Lia.
From Stdlib Require Import Floats.SpecFloat.
From stdpp Require Import base option list gmap strings.

Local Open Scope Z_scope.

(** ** binary32 arithmetic *)

Module Float32.

Definition prec : Z := 24.
Definition emax : Z := 128.

Abbreviation float := spec_float.

Definition zero : float := S754_zero false.
Definition one : float := S754_finite false 8388608 (-23).
Definition nan : float := S754_nan.

Definition add : float -> float -> float := SFadd prec emax.
Definition sub : float -> float -> float := SFsub prec emax.
Definition mul : float -> float -> float := SFmul prec emax.
Definition div : float -> float -> float := SFdiv prec emax.
Definition sqrt : float -> float := SFsqrt prec emax.

Definition ltb : float -> float -> bool := SFltb.
Definition leb : float -> float -> bool := SFleb.
Definition eqb : float -> float -> bool := SFeqb.

(** C++ [a != b]: true as soon as one side is a NaN. *)
Definition neqb (a b : float) : bool := negb (SFeqb a b).

(** Conversion of an integer, as in [res / n] with [n] an [int]. *)
Definition of_Z (n : Z) : float := binary_normalize prec emax n 0 false.

(** [std::min(a, b)] is [(b < a) ? b : a], [std::max(a, b)] is
    [(a < b) ? b : a]. *)
Definition min (a b : float) : float := if ltb b a then b else a.
Definition max (a b : float) : float := if ltb a b then b else a.

Definition is_nan (x : float) : bool :=
  match x with S754_nan => true | _ => false end.

Definition is_finite (x : float) : bool :=
  match x with S754_zero _ | S754_finite _ _ _ => true | _ => false end.

(** A float the hardware can hold: its mantissa and exponent are in the
    canonical form of the format. *)
Definition valid (x : float) : bool := valid_binary prec emax x.

End Float32.

Abbreviation float := Float32.float.

(** [typedef vector<float> vec; typedef vector<vec> mat;] *)
Abbreviation vec := (list float).
Abbreviation mat := (list vec).

(** ** 32 bit [int] *)

Definition INT_MAX : Z := 2147483647.
Definition INT_MIN : Z := -2147483648.

Definition in_int (z : Z) : bool := (INT_MIN <=? z) && (z <=? INT_MAX).

(** ** Data model ([multivec-mono.hpp]) *)

(** [struct HuffmanNode]. The pointers [left] and [right] own a subtree when
    the node was built by the three argument constructor and are not set
    otherwise. *)
#[local] Unset Elimination Schemes.
Inductive HuffmanNode : Type :=
  mkHuffmanNode {
    word : string;
    code : list Z;
    parents : list Z;
    left : option HuffmanNode;
    right : option HuffmanNode;
    index : Z;
    count : Z;
    is_leaf : bool;
    is_unk : bool;
    is_sent_id : bool
  }.
#[local] Set Elimination Schemes.

Record Config : Type :=
  mkConfig {
    starting_alpha : float;
    dimension : Z;
    min_count : Z;
    max_iterations : Z;
    window_size : Z;
    n_threads : Z;
    subsampling : float;
    verbose : bool;
    hierarchical_softmax : bool;
    skip_gram : bool;
    negative : Z;
    sent_vector : bool;
    freeze : bool
  }.

(** [class MonolingualModel]: the private members. [unigram_table] holds
    pointers into the vocabulary, kept here as the words they point to. *)
Record MonolingualModel : Type :=
  mkMonolingualModel {
    input_weights : mat;
    output_weights : mat;
    output_weights_hs : mat;
    sent_weights : mat;
    online_sent_weights : mat;
    training_words : Z;
    training_lines : Z;
    words_processed : Z;
    alpha : float;
    config : Config;
    vocabulary : gmap string HuffmanNode;
    unigram_table : list string
  }.

(** [Config()]: the defaults, 0.05 and 1e-03 rounded to binary32. *)
Definition default_config : Config :=
  mkConfig (S754_finite false 13421773 (-28)) 100 5 5 5 4
           (S754_finite false 8589935 (-33)) false false false 5 false false.

(** [MonolingualModel()]: no words, no weights, zeroed counters. *)
Definition empty_model : MonolingualModel :=
  mkMonolingualModel [] [] [] [] [] 0 0 0 Float32.zero default_config ∅ [].

(** ** Computations over the model *)

(** The [runtime_error]s of the inference interface, by the kinds the
    specification names. All of them are [runtime_error] objects, so one
    [catch (runtime_error)] clause handles each of them. *)
Inductive runtime_error : Type :=
  | NotInVocabulary (w : string)
      (* a lookup of a word the vocabulary does not have *)
  | InvalidConfig
      (* a policy the trained model does not support *)
  | AllOOV
      (* [runtime_error("all word pairs are unknown (OOV)")] *)
  | LengthMismatch
      (* [runtime_error("input sequences don't have the same size")] *).

Inductive result (A : Type) : Type :=
  | Ret (a : A) (m : MonolingualModel)
  | Throw (e : runtime_error) (m : MonolingualModel)
  | Undefined.

Arguments Ret {A} a m.
Arguments Throw {A} e m.
Arguments Undefined {A}.

Definition M (A : Type) : Type := MonolingualModel -> result A.

Definition ret {A} (a : A) : M A := fun m => Ret a m.

Definition bind {A B} (c : M A) (k : A -> M B) : M B :=
  fun m =>
    match c m with
    | Ret a m' => k a m'
    | Throw e m' => Throw e m'
    | Undefined => Undefined
    end.

Definition throw {A} (e : runtime_error) : M A := fun m => Throw e m.

Definition undefined {A} : M A := fun _ => Undefined.

(** Read a member of [*this]. *)
Definition gets {A} (f : MonolingualModel -> A) : M A := fun m => Ret (f m) m.

(** Assign the members of [*this]. *)
Definition modify (f : MonolingualModel -> MonolingualModel) : M unit :=
  fun m => Ret tt (f m).

(** [try { c } catch (runtime_error) { h }] *)
Definition try_catch {A} (c : M A) (h : runtime_error -> M A) : M A :=
  fun m =>
    match c m with
    | Ret a m' => Ret a m'
    | Throw e m' => h e m'
    | Undefined => Undefined
    end.

(** A step that has a value or no defined behaviour. *)
Definition defined {A} (o : option A) : M A :=
  match o with
  | Some a => ret a
  | None => undefined
  end.

Declare Scope model_scope.
Delimit Scope model_scope with model.
Notation "x <- c ;; k" := (bind c (fun x => k))
  (at level 100, c at next level, right associativity) : model_scope.
Local Open Scope model_scope.

(** [v[i]] on a [std::vector]: defined inside the bounds only. *)
Definition at_index {A} (v : list A) (i : nat) : M A := defined (v !! i).

(** [for (size_t i = 0; i < n; ++i) acc = body(acc, i)] *)
Fixpoint for_loop {A} (from : nat) (n : nat) (body : A -> nat -> M A) (acc : A) : M A :=
  match n with
  | O => ret acc
  | S n' => bind (body acc from) (for_loop (S from) n' body)
  end.

(** The model a computation leaves behind, when it has one. *)
Definition final_model {A} (r : result A) : option MonolingualModel :=
  match r with
  | Ret _ m => Some m
  | Throw _ m => Some m
  | Undefined => None
  end.

Definition returned {A} (r : result A) : option A :=
  match r with
  | Ret a _ => Some a
  | _ => None
  end.

Definition thrown {A} (r : result A) : option runtime_error :=
  match r with
  | Throw e _ => Some e
  | _ => None
  end.

(** ** Collaborators of [distance.cpp] that live in other files *)

(** [isspace] in the "C" locale: space, and the controls from tab to
    carriage return. *)
Definition isspace (c : ascii) : bool :=
  let n := nat_of_ascii c in
  (n =? 32)%nat || ((9 <=? n)%nat && (n <=? 13)%nat).

(** Modelled from the spec: [split], declared in the header and defined in
    a file that is not part of the sources at hand. The tokenizer is a
    whitespace splitter; a token is a maximal run of non-whitespace bytes.
    [cur] is the token being read. *)
Fixpoint split_from (cur : string) (s : string) : list string :=
  match s with
  | EmptyString => if String.eqb cur "" then [] else [cur]
  | String c rest =>
      if isspace c
      then (if String.eqb cur "" then split_from "" rest
            else cur :: split_from "" rest)
      else split_from (cur ++ String c "") rest
  end.

Definition split (sentence : string) : list string := split_from "" sentence.

(** Modelled from the spec: the members [dot] and [norm] of the vector type,
    which [distance.cpp] calls and whose definition is not part of the sources
    at hand. The specification writes the similarity as
    [(v1 . v2) / (|v1| |v2|)]: [dot] sums the products of the components from
    the first to the last, [norm] is the square root of [v . v]. *)
Definition dot (v1 v2 : vec) : float :=
  fold_left (fun acc xy => Float32.add acc (Float32.mul (fst xy) (snd xy)))
            (combine v1 v2) Float32.zero.

Definition norm (v : vec) : float := Float32.sqrt (dot v v).

(** [m[index]] for an [int] index into a matrix. *)
Definition row (w : mat) (i : Z) : M vec :=
  if i <? 0 then undefined else at_index w (Z.to_nat i).

(** Modelled from the spec: [wordVec(int index, int policy) const], declared
    in the header and defined in a file that is not part of the sources at
    hand. Policy 0 is the input row, 1 the negative-sampling output row
    (rejected with [InvalidConfig] when negative sampling was not trained),
    2 their average and 3 their concatenation. The specification gives the
    policies 0 to 3 only; any other one is rejected here. *)
Definition wordVec_index (i : Z) (policy : Z) : M vec :=
  if policy =? 0 then
    w <- gets input_weights ;; row w i
  else if policy =? 1 then
    c <- gets config ;;
    if 0 <? negative c
    then (w <- gets output_weights ;; row w i)
    else throw InvalidConfig
  else if policy =? 2 then
    w_in <- gets input_weights ;;
    w_out <- gets output_weights ;;
    v_in <- row w_in i ;;
    v_out <- row w_out i ;;
    ret (map (fun xy => Float32.div (Float32.add (fst xy) (snd xy)) (Float32.of_Z 2))
             (combine v_in v_out))
  else if policy =? 3 then
    w_in <- gets input_weights ;;
    w_out <- gets output_weights ;;
    v_in <- row w_in i ;;
    v_out <- row w_out i ;;
    ret (v_in ++ v_out)
  else throw InvalidConfig.

(** Modelled from the spec: [wordVec(const string& word, int policy) const],
    the lookup of a word: an unknown word fails with [NotInVocabulary]. *)
Definition wordVec (w : string) (policy : Z) : M vec :=
  voc <- gets vocabulary ;;
  match voc !! w with
  | None => throw (NotInVocabulary w)
  | Some node => wordVec_index (index node) policy
  end.

(** ** [distance.cpp] *)

(** [float MonolingualModel::similarity(word1, word2, policy) const] *)
Definition similarity (word1 word2 : string) (policy : Z) : M float :=
  if String.eqb word1 word2 then
    ret Float32.one
  else
    v1 <- wordVec word1 policy ;;
    v2 <- wordVec word2 policy ;;
    ret (Float32.div (dot v1 v2) (Float32.mul (norm v1) (norm v2))).

(** [float MonolingualModel::distance(word1, word2, policy) const] *)
Definition distance (word1 word2 : string) (policy : Z) : M float :=
  s <- similarity word1 word2 policy ;;
  ret (Float32.sub (Float32.of_Z 1) s).

(** [n += 1] on an [int]. *)
Definition int_succ (n : Z) : M Z :=
  if in_int (n + 1) then ret (n + 1) else undefined.

(** The body of the loop of [similarityNgrams]: both words are fetched, then
    [res] and [n] move together or, on a [runtime_error], not at all. *)
Definition ngrams_step (words1 words2 : list string) (policy : Z)
    (acc : float * Z) (i : nat) : M (float * Z) :=
  w1 <- at_index words1 i ;;
  w2 <- at_index words2 i ;;
  try_catch
    (s <- similarity w1 w2 policy ;;
     n' <- int_succ (snd acc) ;;
     ret (Float32.add (fst acc) s, n'))
    (fun _ => ret acc).

(** [float MonolingualModel::similarityNgrams(seq1, seq2, policy) const].
    The guard compares [words2.size()] with [words2.size()]. *)
Definition similarityNgrams (seq1 seq2 : string) (policy : Z) : M float :=
  let words1 := split seq1 in
  let words2 := split seq2 in
  if negb (length words2 =? length words2)%nat then
    throw LengthMismatch
  else
    acc <- for_loop 0 (length words1) (ngrams_step words1 words2 policy)
                    (Float32.zero, 0) ;;
    if snd acc =? 0 then throw AllOOV
    else ret (Float32.div (fst acc) (Float32.of_Z (snd acc))).

(** ** [normalizeWeights] *)

(** Loops and vector accesses of a function that has no [this]: [None] is an
    execution without defined behaviour. *)
Fixpoint loop {A} (from : nat) (n : nat) (body : A -> nat -> option A) (acc : A)
    : option A :=
  match n with
  | O => Some acc
  | S n' =>
      match body acc from with
      | Some acc' => loop (S from) n' body acc'
      | None => None
      end
  end.

(** [v[j] = x] *)
Definition store {A} (v : list A) (j : nat) (x : A) : option (list A) :=
  if (j <? length v)%nat then Some (<[j := x]> v) else None.

(** [int dim = v.size()] narrows a [size_t] to an [int]; [j < dim] with a
    [size_t j] widens [dim] again. *)
Definition to_int (z : Z) : Z := (z + 2 ^ 31) mod 2 ^ 32 - 2 ^ 31.
Definition to_size_t (z : Z) : Z := z mod 2 ^ 64.

(** The body of the first pair of loops: row [i], column [j]. *)
Definition minmax_step (weights : mat) (i : nat) (acc : vec * vec) (j : nat)
    : option (vec * vec) :=
  wi ← weights !! i;
  x ← wi !! j;
  mn ← fst acc !! j;
  min_values ← store (fst acc) j (Float32.min mn x);
  mx ← snd acc !! j;
  max_values ← store (snd acc) j (Float32.max mx x);
  Some (min_values, max_values).

(** The body of the second pair of loops. *)
Definition normalize_step (min_values max_values : vec) (i : nat)
    (weights : mat) (j : nat) : option mat :=
  mx ← max_values !! j;
  mn ← min_values !! j;
  if Float32.neqb mx mn then
    wi ← weights !! i;
    x ← wi !! j;
    wi' ← store wi j (Float32.div (Float32.sub x mn) (Float32.sub mx mn));
    store weights i wi'
  else Some weights.

(** [void normalizeWeights(mat& weights)]: the matrix it leaves behind. *)
Definition normalizeWeights (weights : mat) : option mat :=
  match weights with
  | [] => Some weights
  | row0 :: _ =>
      let dim := to_int (Z.of_nat (length row0)) in
      let bound := Z.to_nat (to_size_t dim) in
      acc ← loop 1 (length weights - 1)
                 (fun acc i => loop 0 bound (minmax_step weights i) acc)
                 (row0, row0);
      loop 0 (length weights)
           (fun w i => loop 0 bound (normalize_step (fst acc) (snd acc) i) w)
           weights
  end.

Definition set_input_weights (w : mat) (m : MonolingualModel) : MonolingualModel :=
  mkMonolingualModel w (output_weights m) (output_weights_hs m) (sent_weights m)
    (online_sent_weights m) (training_words m) (training_lines m)
    (words_processed m) (alpha m) (config m) (vocabulary m) (unigram_table m).

Definition set_output_weights (w : mat) (m : MonolingualModel) : MonolingualModel :=
  mkMonolingualModel (input_weights m) w (output_weights_hs m) (sent_weights m)
    (online_sent_weights m) (training_words m) (training_lines m)
    (words_processed m) (alpha m) (config m) (vocabulary m) (unigram_table m).

Definition set_output_weights_hs (w : mat) (m : MonolingualModel) : MonolingualModel :=
  mkMonolingualModel (input_weights m) (output_weights m) w (sent_weights m)
    (online_sent_weights m) (training_words m) (training_lines m)
    (words_processed m) (alpha m) (config m) (vocabulary m) (unigram_table m).

Definition set_sent_weights (w : mat) (m : MonolingualModel) : MonolingualModel :=
  mkMonolingualModel (input_weights m) (output_weights m) (output_weights_hs m) w
    (online_sent_weights m) (training_words m) (training_lines m)
    (words_processed m) (alpha m) (config m) (vocabulary m) (unigram_table m).

(** [::normalizeWeights(member)] on one member of the model. *)
Definition normalize_member (get : MonolingualModel -> mat)
    (set : mat -> MonolingualModel -> MonolingualModel) : M unit :=
  w <- gets get ;;
  w' <- defined (normalizeWeights w) ;;
  modify (set w').

(** [void MonolingualModel::normalizeWeights()] *)
Definition MonolingualModel_normalizeWeights : M unit :=
  _ <- normalize_member input_weights set_input_weights ;;
  _ <- normalize_member output_weights set_output_weights ;;
  _ <- normalize_member output_weights_hs set_output_weights_hs ;;
  normalize_member sent_weights set_sent_weights.

(** ** Huffman nodes *)

(** [HuffmanNode(int index, const string& word, bool is_sent_id = false)] *)
Definition HuffmanNode_leaf (index : Z) (word : string) (is_sent_id : bool)
    : HuffmanNode :=
  mkHuffmanNode word [] [] None None index 1 true false is_sent_id.

(** [HuffmanNode(int index, HuffmanNode* left, HuffmanNode* right)]: the
    count is the [int] sum of the counts of the children, which is defined
    when it does not overflow. *)
Definition HuffmanNode_internal (index : Z) (l r : HuffmanNode)
    : option HuffmanNode :=
  let c := count l + count r in
  if in_int c
  then Some (mkHuffmanNode "" [] [] (Some l) (Some r) index c false false false)
  else None.

(** [static bool comp(v1, v2)]: [v1->count > v2->count]. *)
Definition comp (v1 v2 : HuffmanNode) : bool := count v2 <? count v1.

(** The sum of the counts of the leaves below a node. *)
Fixpoint leaf_count_sum (n : HuffmanNode) : Z :=
  match n with
  | mkHuffmanNode _ _ _ l r _ c lf _ _ =>
      if lf then c
      else
        match l with Some a => leaf_count_sum a | None => 0 end
        + match r with Some b => leaf_count_sum b | None => 0 end
  end.

(** Every internal node below [n], [n] included, has its two children and
    stores the sum of the counts of the leaves below it. *)
Fixpoint counts_ok (n : HuffmanNode) : Prop :=
  match n with
  | mkHuffmanNode _ _ _ l r _ c lf _ _ =>
      if lf then True
      else
        match l, r with
        | Some a, Some b =>
            c = leaf_count_sum a + leaf_count_sum b /\ counts_ok a /\ counts_ok b
        | _, _ => False
        end
  end.

(** The number of internal nodes below a node. *)
Fixpoint internal_nodes (n : HuffmanNode) : nat :=
  match n with
  | mkHuffmanNode _ _ _ l r _ _ lf _ _ =>
      if lf then O
      else
        S (match l with Some a => internal_nodes a | None => O end
           + match r with Some b => internal_nodes b | None => O end)
  end.

(** Modelled from the spec: the Huffman tree builder ([createBinaryTree] and
    [assignCodes], declared in the header and defined in a file that is not
    part of the sources at hand). The leaves are sorted by descending count;
    two queues, the leaves from the smallest on and the internal nodes in
    construction order, give the two current minima, which are merged by the
    three argument constructor into the internal node of the next index; the
    V-1 merges leave the root. *)
Fixpoint insert_by_count (x : HuffmanNode) (l : list HuffmanNode) : list HuffmanNode :=
  match l with
  | [] => [x]
  | y :: l' => if comp y x then y :: insert_by_count x l' else x :: l
  end.

Definition sort_by_count (l : list HuffmanNode) : list HuffmanNode :=
  fold_right insert_by_count [] l.

Definition take_min (leaves internals : list HuffmanNode)
    : option (HuffmanNode * (list HuffmanNode * list HuffmanNode)) :=
  match leaves, internals with
  | [], [] => None
  | a :: ls, [] => Some (a, (ls, []))
  | [], b :: ns => Some (b, ([], ns))
  | a :: ls, b :: ns =>
      if comp a b then Some (b, (leaves, ns)) else Some (a, (ls, internals))
  end.

Fixpoint merge_nodes (i : Z) (n : nat) (leaves internals : list HuffmanNode)
    : option (list HuffmanNode * list HuffmanNode) :=
  match n with
  | O => Some (leaves, internals)
  | S n' =>
      '(a, (l1, n1)) ← take_min leaves internals;
      '(b, (l2, n2)) ← take_min l1 n1;
      p ← HuffmanNode_internal i a b;
      merge_nodes (i + 1) n' l2 (n2 ++ [p])
  end.

(** Modelled from the spec: the traversal that gives each leaf its code
    (left is 0, right is 1) and the indices of the internal nodes on its
    path from the root. *)
Fixpoint assignCodes (node : HuffmanNode) (code parents : list Z) : HuffmanNode :=
  match node with
  | mkHuffmanNode w c p l r i cnt lf u s =>
      if lf then mkHuffmanNode w code parents l r i cnt lf u s
      else
        mkHuffmanNode w c p
          match l with
          | Some a => Some (assignCodes a (code ++ [0]) (parents ++ [i]))
          | None => None
          end
          match r with
          | Some b => Some (assignCodes b (code ++ [1]) (parents ++ [i]))
          | None => None
          end
          i cnt lf u s
  end.

(** The tree built over the entries of a vocabulary; [None] when there is no
    tree (an empty vocabulary) or no defined one (a count overflows). *)
Definition createBinaryTree (voc : gmap string HuffmanNode) : option HuffmanNode :=
  let heap := sort_by_count (map snd (map_to_list voc)) in
  '(leaves, internals) ← merge_nodes 0 (length heap - 1) (rev heap) [];
  '(root, _) ← take_min leaves internals;
  Some (assignCodes root [] []).

(** ** Helpers of the header ([multivec-mono.hpp]) *)

(** [::tolower] in the "C" locale: the letters A to Z move to a to z, and
    every other byte stays. *)
Definition tolower (c : ascii) : ascii :=
  let n := nat_of_ascii c in
  if (65 <=? n)%nat && (n <=? 90)%nat then ascii_of_nat (n + 32) else c.

(** [inline string lower(string s)]: [std::transform] with [::tolower], in
    place, over the copy it was given. *)
Fixpoint lower (s : string) : string :=
  match s with
  | EmptyString => EmptyString
  | String c rest => String (tolower c) (lower rest)
  end.

(** [HuffmanNode()]: the node of an unknown word. The constructor sets
    [index], [is_unk] and [is_sent_id]; the members it does not mention hold
    what the storage held, given here as arguments. *)
Definition HuffmanNode_unk (left right : option HuffmanNode) (count : Z)
    (is_leaf : bool) : HuffmanNode :=
  mkHuffmanNode "" [] [] left right (-1) count is_leaf true false.

(** [bool operator==(const HuffmanNode& node) const] *)
Definition HuffmanNode_eq (a b : HuffmanNode) : bool := index a =? index b.

(** [bool operator!=(const HuffmanNode& node) const] *)
Definition HuffmanNode_ne (a b : HuffmanNode) : bool := negb (HuffmanNode_eq a b).

(** [static unsigned long long rand()]: the function-local static
    [next_random] is the state, passed in and out; the arithmetic is that of
    [unsigned long long]. The value returned is the new state without its 16
    low bits. *)
Definition rand (next_random : Z) : Z * Z :=
  let next := (next_random * 25214903917 + 11) mod 2 ^ 64 in
  (Z.shiftr next 16, next).

(** [static float randf()]: the 16 low bits of [rand()], converted to
    [float] and divided by [65536.0f]. *)
Definition randf (next_random : Z) : float * Z :=
  let '(r, next) := rand next_random in
  (Float32.div (Float32.of_Z (Z.land r 65535)) (S754_finite false 8388608 (-7)),
   next).

(** [const float MAX_EXP = 6] *)
Definition MAX_EXP : float := Float32.of_Z 6.

(** [inline float sigmoid(float x)], with the assertion compiled in: [None]
    is the failed assertion. [exp] stands for [std::exp] on [float], which
    belongs to the C++ library. *)
Definition sigmoid (exp : float -> float) (x : float) : option float :=
  if Float32.ltb (SFopp MAX_EXP) x && Float32.ltb x MAX_EXP
  then Some (Float32.div (Float32.of_Z 1)
                         (Float32.add (Float32.of_Z 1) (exp (SFopp x))))
  else None.

(** * Vocabulary of the properties *)

(** ** Effects *)

(** [c] leaves the model as it found it, whether it returns or throws. *)
Definition preserves {A} (r : result A) (m : MonolingualModel) : Prop :=
  match r with
  | Ret _ m' => m' = m
  | Throw _ m' => m' = m
  | Undefined => True
  end.

Definition read_only {A} (c : M A) : Prop := forall m, preserves (c m) m.

(** ** The mean of [similarityNgrams] *)

(** The values [similarity] returns along a list of word pairs, in order: a
    pair on which it throws gives none, and a pair on which it has no defined
    behaviour leaves the whole list without one. *)
Fixpoint position_values (m : MonolingualModel) (policy : Z)
    (pairs : list (string * string)) : option (list float) :=
  match pairs with
  | [] => Some []
  | (w1, w2) :: rest =>
      match similarity w1 w2 policy m with
      | Ret s _ => cons s <$> position_values m policy rest
      | Throw _ _ => position_values m policy rest
      | Undefined => None
      end
  end.

(** The mean the specification describes, over the positions that were not
    skipped: the sum runs from the first value to the last, starting from 0,
    and is divided by the number of values. *)
Definition mean_of_positions (m : MonolingualModel) (policy : Z)
    (pairs : list (string * string)) : result float :=
  match position_values m policy pairs with
  | None => Undefined
  | Some [] => Throw AllOOV m
  | Some sims =>
      Ret (Float32.div (fold_left Float32.add sims Float32.zero)
                       (Float32.of_Z (Z.of_nat (length sims)))) m
  end.

(** The loop over the positions, as a recursion over the pairs of words. *)
Fixpoint ngrams_fold (policy : Z) (pairs : list (string * string))
    (acc : float * Z) : M (float * Z) :=
  match pairs with
  | [] => ret acc
  | (w1, w2) :: rest =>
      bind (try_catch
              (s <- similarity w1 w2 policy ;;
               n' <- int_succ (snd acc) ;;
               ret (Float32.add (fst acc) s, n'))
              (fun _ => ret acc))
           (ngrams_fold policy rest)
  end.

(** ** Trees *)

(** The nodes of a tree: the node itself and, below an internal node, the
    nodes of its two subtrees. *)
Fixpoint nodes (n : HuffmanNode) : list HuffmanNode :=
  match n with
  | mkHuffmanNode w c p l r i cnt lf u s =>
      mkHuffmanNode w c p l r i cnt lf u s
      :: (if lf then []
          else
            match l with Some a => nodes a | None => [] end
            ++ match r with Some b => nodes b | None => [] end)
  end.

(** The total of the counts of a list of nodes. *)
Definition total_count (l : list HuffmanNode) : Z :=
  fold_right (fun n acc => count n + acc) 0 l.

(** ** Columns of a matrix *)

(** Column [j] of a matrix: the entries of the rows that reach it. *)
Definition column (weights : mat) (j : nat) : list float :=
  omap (fun r : vec => r !! j) weights.

(** The running [std::min] and [std::max] down a column, from the entry of
    the first row. *)
Definition column_min (weights : mat) (j : nat) : option float :=
  match column weights j with
  | [] => None
  | x :: xs => Some (fold_left Float32.min xs x)
  end.

Definition column_max (weights : mat) (j : nat) : option float :=
  match column weights j with
  | [] => None
  | x :: xs => Some (fold_left Float32.max xs x)
  end.

(** What [normalizeWeights] puts in place of [x], the extremes of its column
    being [mn] and [mx]. *)
Definition normalize_entry (mn mx x : float) : float :=
  if Float32.neqb mx mn
  then Float32.div (Float32.sub x mn) (Float32.sub mx mn)
  else x.

(** The matrix of the specification: every entry rescaled by the extremes of
    its column. *)
Definition normalized (weights : mat) : mat :=
  map (fun r : vec =>
         imap (fun j x =>
                 match column_min weights j, column_max weights j with
                 | Some mn, Some mx => normalize_entry mn mx x
                 | _, _ => x
                 end) r)
      weights.

(** A row rescaled by the extremes [mnv] and [mxv] of its columns. *)
Definition normalize_row (mnv mxv : vec) (r : vec) : vec :=
  zip_with (fun x p => normalize_entry (fst p) (snd p) x) r (zip mnv mxv).

(** All rows are as long as the first one, which fits an [int]. *)
Definition rectangular (weights : mat) : Prop :=
  forall r0 r, head weights = Some r0 -> r ∈ weights ->
    length r = length r0 /\ Z.of_nat (length r0) <= INT_MAX.

(** The model [MonolingualModel::normalizeWeights] leaves behind. *)
Definition normalized_model (m : MonolingualModel) : MonolingualModel :=
  mkMonolingualModel
    (normalized (input_weights m)) (normalized (output_weights m))
    (normalized (output_weights_hs m)) (normalized (sent_weights m))
    (online_sent_weights m) (training_words m) (training_lines m)
    (words_processed m) (alpha m) (config m) (vocabulary m) (unigram_table m).

(** The entry in row [i] and column [j] of a matrix. *)
Definition entry (weights : mat) (i j : nat) : option float :=
  r ← weights !! i; r !! j.

(** ** Rounding to binary32, on integers: every finite binary32 number is
    an integer multiple of [2 ^ -149], and its operations are followed on
    that integer. *)

(** The location of a remainder [R] in a step of width [N]: what the round
    and sticky bits of a shifted mantissa encode. *)
Definition locZ (R N : Z) : location :=
  if R =? 0 then loc_Exact else loc_Inexact (2 * R ?= N).

(** The shift record [st] holds [M] shifted right by [k] bits. *)
Definition shifted (M k : Z) (st : shr_record) : Prop :=
  shr_m st = M / 2 ^ k /\ loc_of_shr_record st = locZ (M mod 2 ^ k) (2 ^ k).

(** The number of bits the rounding of [m * 2 ^ e] drops. *)
Definition shift_of (m e : Z) : Z :=
  Z.max 0 (fexp Float32.prec Float32.emax (Zdigits2 m + e) - e).

(** The float of a rounded mantissa. *)
Definition assemble (s : bool) (m e : Z) : float :=
  match m with
  | Z0 => S754_zero s
  | Zpos p => if e <=? 104 then S754_finite s p e else S754_infinity s
  | Zneg _ => S754_nan
  end.

(** [M] rounded to a multiple of [2 ^ n], in units of [2 ^ n]: to nearest,
    ties to even. *)
Definition round_int (M n : Z) : Z :=
  round_nearest_even (M / 2 ^ n) (locZ (M mod 2 ^ n) (2 ^ n)).

(** The second shift and the assembly of a rounding. *)
Definition renormalize (s : bool) (m1 e1 : Z) : float :=
  assemble s (m1 / 2 ^ shift_of m1 e1) (e1 + shift_of m1 e1).

(** The rounding of a non-negative integer [V], counted in units of
    [2 ^ -149], to 24 significant bits: [drop V] low bits are dropped. *)
Definition drop_bits (V : Z) : Z := Z.max 0 (Zdigits2 V - 24).

Definition rnd (V : Z) : Z := round_int V (drop_bits V) * 2 ^ drop_bits V.

(** The binary32 number nearest to [V * 2 ^ -149], with sign [s]. *)
Definition float_of_units (s : bool) (V : Z) : float :=
  renormalize s (round_int V (drop_bits V)) (drop_bits V - 149).

(** The integer a float stands for, in units of [2 ^ -149]; an infinity
    stands for the first power of two out of range. *)
Definition units (x : float) : Z :=
  match x with
  | S754_zero _ => 0
  | S754_finite s m e => cond_Zopp s (Zpos m * 2 ^ (e + 149))
  | S754_infinity s => cond_Zopp s (2 ^ 277)
  | S754_nan => 0
  end.

(** The shift record [st] holds the quotient [N / D] shifted right by [k]
    bits: its integer part and where the rest lies. *)
Definition shifted_quotient (N D k : Z) (st : shr_record) : Prop :=
  shr_m st = N / (D * 2 ^ k)
  /\ loc_of_shr_record st = locZ (N mod (D * 2 ^ k)) (D * 2 ^ k).

(** [N / D] rounded to a multiple of [2 ^ n], in units of [2 ^ n]: to
    nearest, ties to even. *)
Definition round_quotient (N D n : Z) : Z :=
  round_nearest_even (N / (D * 2 ^ n)) (locZ (N mod (D * 2 ^ n)) (D * 2 ^ n)).

(** The rounding of the quotient [N / D], counted in units of [2 ^ -149], to
    24 significant bits. *)
Definition rnd_quotient (N D : Z) : Z :=
  round_quotient N D (drop_bits (N / D)) * 2 ^ drop_bits (N / D).

(** ** Ranges and signs *)

(** A float the model can hold and that is neither a NaN nor an infinity. *)
Definition regular (x : float) : Prop :=
  Float32.valid x = true /\ Float32.is_finite x = true.

(** [0 <= y <= 1], in binary32. *)
Definition in_unit_interval (y : float) : Prop :=
  Float32.leb Float32.zero y = true /\ Float32.leb y Float32.one = true.

(** A NaN, or a float whose sign bit is clear. *)
Definition sign_clear (x : float) : bool :=
  match x with
  | S754_nan => true
  | S754_zero s | S754_infinity s | S754_finite s _ _ => negb s
  end.

(** A NaN, or a float that is not below zero: a zero of either sign, a
    positive number or the positive infinity. *)
Definition not_negative (x : float) : bool :=
  match x with
  | S754_nan | S754_zero _ => true
  | S754_infinity s | S754_finite s _ _ => negb s
  end.

(** A matrix [normalizeWeights] rescales without leaving the finite floats:
    it is rectangular, its entries are finite, the range of every column is
    finite, and a constant column holds no negative value. *)
Definition normalizable (w : mat) : Prop :=
  rectangular w
  /\ forall j mn mx,
      column_min w j = Some mn -> column_max w j = Some mx ->
      Forall regular (column w j)
      /\ if Float32.neqb mx mn
         then Float32.is_finite (Float32.sub mx mn) = true
         else not_negative mn = true.

(** A float that is a zero of either sign or a NaN. *)
Definition zero_or_nan (y : float) : bool :=
  match y with S754_zero _ | S754_nan => true | _ => false end.

(** A matrix whose columns [normalizeWeights] rescales within the finite
    floats: its entries are finite and so is the range of every column. *)
Definition finite_columns (w : mat) : Prop :=
  forall j mn mx,
    column_min w j = Some mn -> column_max w j = Some mx ->
    Forall regular (column w j)
    /\ (Float32.neqb mx mn = true -> Float32.is_finite (Float32.sub mx mn) = true).

(** ** Letters *)

(** A letter from A to Z. *)
Definition is_upper (c : ascii) : bool :=
  let n := nat_of_ascii c in (65 <=? n)%nat && (n <=? 90)%nat.

(** ** Models for the examples *)

(** A vocabulary of three words, seen 5, 2 and 1 times. *)
Definition example_vocabulary : gmap string HuffmanNode :=
  <["the" := mkHuffmanNode "the" [] [] None None 0 5 true false false]>
    (<["cat" := mkHuffmanNode "cat" [] [] None None 1 2 true false false]>
       (<["sat" := mkHuffmanNode "sat" [] [] None None 2 1 true false false]> ∅)).

(** Three words in two dimensions. *)
Definition example_weights : mat :=
  [[Float32.of_Z 3; Float32.of_Z 3];
   [Float32.of_Z 3; Float32.of_Z 3];
   [Float32.of_Z 1; Float32.of_Z 1]].

(** The words "a", "b" and "c", in the rows 0, 1 and 2. *)
Definition example_words : gmap string HuffmanNode :=
  <["a" := HuffmanNode_leaf 0 "a" false]>
    (<["b" := HuffmanNode_leaf 1 "b" false]>
       (<["c" := HuffmanNode_leaf 2 "c" false]> ∅)).

(** A model over them, before [normalizeWeights]. *)
Definition example_model : MonolingualModel :=
  mkMonolingualModel example_weights example_weights
    [[Float32.zero; Float32.zero]; [Float32.zero; Float32.zero]] []
    [] 9 1 9 Float32.zero default_config example_words [].

(** What [normalizeWeights] makes of it: the rows (1, 1), (1, 1), (0, 0). *)
Definition example_normalized : MonolingualModel :=
  mkMonolingualModel
    [[Float32.one; Float32.one]; [Float32.one; Float32.one];
     [Float32.zero; Float32.zero]]
    [[Float32.one; Float32.one]; [Float32.one; Float32.one];
     [Float32.zero; Float32.zero]]
    [[Float32.zero; Float32.zero]; [Float32.zero; Float32.zero]] []
    [] 9 1 9 Float32.zero default_config example_words [].

(** Two finite floats whose difference overflows. *)
Definition overflow_weights : mat :=
  [[S754_finite true 8388608 104]; [S754_finite false 8388608 104]].


(** Two words in one dimension: the input column is the constant -0.5, the
    output column is (0, 1). *)
Definition constant_model : MonolingualModel :=
  mkMonolingualModel
    [[S754_finite true 8388608 (-24)]; [S754_finite true 8388608 (-24)]]
    [[Float32.zero]; [Float32.one]]
    [] [] [] 2 1 2 Float32.zero default_config
    (<["a" := HuffmanNode_leaf 0 "a" false]>
       (<["b" := HuffmanNode_leaf 1 "b" false]> ∅)) [].




(** * Properties *)

(** ** Read-only computations *)

Lemma read_only_ret {A} (a : A) : read_only (ret a).
Proof. intros m; reflexivity. Qed.

Lemma read_only_throw {A} (e : runtime_error) : read_only (@throw A e).
Proof. intros m; reflexivity. Qed.

Lemma read_only_undefined {A} : read_only (@undefined A).
Proof. intros m; exact I. Qed.

Lemma read_only_gets {A} (f : MonolingualModel -> A) : read_only (gets f).
Proof. intros m; reflexivity. Qed.

Lemma read_only_defined {A} (o : option A) : read_only (defined o).
Proof. destruct o; [apply read_only_ret | apply read_only_undefined]. Qed.

Lemma read_only_bind {A B} (c : M A) (k : A -> M B) :
  read_only c -> (forall a, read_only (k a)) -> read_only (bind c k).
Proof.
  intros Hc Hk m. unfold bind. specialize (Hc m).
  destruct (c m) as [a m'| e m'|]; simpl in *; subst; try reflexivity.
  apply Hk.
Qed.

Lemma read_only_try_catch {A} (c : M A) (h : runtime_error -> M A) :
  read_only c -> (forall e, read_only (h e)) -> read_only (try_catch c h).
Proof.
  intros Hc Hh m. unfold try_catch. specialize (Hc m).
  destruct (c m) as [a m'| e m'|]; simpl in *; subst; try reflexivity.
  apply Hh.
Qed.

Lemma read_only_for_loop {A} (body : A -> nat -> M A) :
  (forall acc i, read_only (body acc i)) ->
  forall n from acc, read_only (for_loop from n body acc).
Proof.
  intros Hb n. induction n as [|n IH]; intros from acc; simpl.
  - apply read_only_ret.
  - apply read_only_bind; [apply Hb | intros a; apply IH].
Qed.

Create HintDb read_only.

#[local] Hint Resolve read_only_ret read_only_throw read_only_undefined
  read_only_gets read_only_defined : read_only.

Ltac read_only_step :=
  first
    [ apply read_only_bind; [| intros ?]
    | apply read_only_try_catch; [| intros ?]
    | solve [auto with read_only] ].

Lemma read_only_row (w : mat) (i : Z) : read_only (row w i).
Proof. unfold row, at_index. destruct (i <? 0); auto with read_only. Qed.

#[local] Hint Resolve read_only_row : read_only.

Lemma read_only_wordVec_index (i policy : Z) : read_only (wordVec_index i policy).
Proof.
  unfold wordVec_index.
  repeat match goal with
         | |- read_only (if ?b then _ else _) => destruct b
         | _ => read_only_step
         end.
Qed.

Lemma read_only_wordVec (w : string) (policy : Z) : read_only (wordVec w policy).
Proof.
  unfold wordVec. read_only_step; [read_only_step|].
  destruct (a !! w); [apply read_only_wordVec_index | read_only_step].
Qed.

Lemma read_only_similarity (w1 w2 : string) (policy : Z) :
  read_only (similarity w1 w2 policy).
Proof.
  unfold similarity. destruct (String.eqb w1 w2); [read_only_step|].
  apply read_only_bind; [apply read_only_wordVec | intros v1].
  apply read_only_bind; [apply read_only_wordVec | intros v2].
  read_only_step.
Qed.

Lemma read_only_distance (w1 w2 : string) (policy : Z) :
  read_only (distance w1 w2 policy).
Proof.
  unfold distance.
  apply read_only_bind; [apply read_only_similarity | intros s; read_only_step].
Qed.

Lemma read_only_int_succ (n : Z) : read_only (int_succ n).
Proof. unfold int_succ. destruct (in_int (n + 1)); read_only_step. Qed.

Lemma read_only_ngrams_step words1 words2 policy acc i :
  read_only (ngrams_step words1 words2 policy acc i).
Proof.
  unfold ngrams_step, at_index.
  apply read_only_bind; [read_only_step | intros w1].
  apply read_only_bind; [read_only_step | intros w2].
  apply read_only_try_catch; [| intros e; read_only_step].
  apply read_only_bind; [apply read_only_similarity | intros s].
  apply read_only_bind; [apply read_only_int_succ | intros n'; read_only_step].
Qed.

Lemma read_only_similarityNgrams (seq1 seq2 : string) (policy : Z) :
  read_only (similarityNgrams seq1 seq2 policy).
Proof.
  unfold similarityNgrams.
  destruct (negb _); [read_only_step|].
  apply read_only_bind.
  - apply read_only_for_loop. intros acc i. apply read_only_ngrams_step.
  - intros acc. destruct (snd acc =? 0); read_only_step.
Qed.

(** C10: [similarity], [distance] and [similarityNgrams] leave the whole
    model, that is the four weight matrices, the vocabulary, the configuration
    and every other member, as they found it, on every input, when they
    return and when they throw. *)
Theorem inference_leaves_model_unchanged :
  forall (m : MonolingualModel) (a b : string) (policy : Z),
    preserves (similarity a b policy m) m
    /\ preserves (distance a b policy m) m
    /\ preserves (similarityNgrams a b policy m) m.
Proof.
  intros m a b policy. split; [|split].
  - apply read_only_similarity.
  - apply read_only_distance.
  - apply read_only_similarityNgrams.
Qed.

(** C3: [similarity(w, w)] returns exactly 1.0 for every string [w] and
    every model, the vocabulary being never consulted: no word is looked up,
    so no [NotInVocabulary] is raised for a word the model does not know. *)
Theorem similarity_same_word :
  forall (m : MonolingualModel) (w : string) (policy : Z),
    similarity w w policy m = Ret Float32.one m.
Proof.
  intros m w policy. unfold similarity.
  rewrite String.eqb_refl. reflexivity.
Qed.

(** C6: [distance(w1, w2)] is [1 - similarity(w1, w2)] in binary32 when
    [similarity] returns, and it fails the way [similarity] does otherwise:
    the same error, or no defined behaviour. *)
Theorem distance_one_minus_similarity :
  forall (m : MonolingualModel) (w1 w2 : string) (policy : Z),
    match similarity w1 w2 policy m with
    | Ret s m' => distance w1 w2 policy m = Ret (Float32.sub Float32.one s) m'
    | Throw e m' => distance w1 w2 policy m = Throw e m'
    | Undefined => distance w1 w2 policy m = Undefined
    end.
Proof.
  intros m w1 w2 policy. unfold distance, bind.
  destruct (similarity w1 w2 policy m); reflexivity.
Qed.

(** ** The length guard of [similarityNgrams] *)

(** A step of the loop returns or has no defined behaviour: what the call of
    [similarity] throws is caught. *)
Lemma ngrams_step_no_throw words1 words2 policy acc i m :
  thrown (ngrams_step words1 words2 policy acc i m) = None.
Proof.
  unfold ngrams_step, at_index, bind, try_catch, defined.
  destruct (words1 !! i) as [w1|]; simpl; [|reflexivity].
  destruct (words2 !! i) as [w2|]; simpl; [|reflexivity].
  destruct (similarity w1 w2 policy m) as [s m'|e m'|]; simpl; try reflexivity.
  unfold int_succ. destruct (in_int (snd acc + 1)); reflexivity.
Qed.

Lemma ngrams_loop_no_throw words1 words2 policy n :
  forall from acc m,
    thrown (for_loop from n (ngrams_step words1 words2 policy) acc m) = None.
Proof.
  induction n as [|n IH]; intros from acc m; simpl; [reflexivity|].
  unfold bind.
  pose proof (ngrams_step_no_throw words1 words2 policy acc from m) as Hs.
  destruct (ngrams_step words1 words2 policy acc from m); simpl in *;
    try discriminate; try reflexivity.
  apply IH.
Qed.

(** The loop runs over the positions of the first sequence: once it reaches
    the end of the second one, it reads past it. *)
Lemma ngrams_loop_past_end words1 words2 policy n :
  forall from acc m,
    (from <= length words2)%nat -> (length words2 < from + n)%nat ->
    for_loop from n (ngrams_step words1 words2 policy) acc m = Undefined.
Proof.
  induction n as [|n IH]; intros from acc m Hle Hlt; simpl; [lia|].
  unfold bind.
  destruct (decide (from = length words2)) as [->|Hne].
  - unfold ngrams_step, at_index, bind, defined.
    rewrite (lookup_ge_None_2 words2 (length words2)) by lia.
    destruct (words1 !! length words2); reflexivity.
  - pose proof (ngrams_step_no_throw words1 words2 policy acc from m) as Hs.
    destruct (ngrams_step words1 words2 policy acc from m); simpl in *;
      try discriminate; try reflexivity.
    apply IH; lia.
Qed.

Lemma similarityNgrams_never_LengthMismatch m seq1 seq2 policy :
  thrown (similarityNgrams seq1 seq2 policy m) <> Some LengthMismatch.
Proof.
  unfold similarityNgrams. rewrite Nat.eqb_refl. simpl. unfold bind.
  pose proof (ngrams_loop_no_throw (split seq1) (split seq2) policy
                (length (split seq1)) 0%nat (Float32.zero, 0) m) as Hl.
  destruct (for_loop _ _ _ _ m) as [acc m'|e m'|]; simpl in *; try discriminate.
  destruct (snd acc =? 0); simpl; discriminate.
Qed.

Lemma similarityNgrams_longer_first m seq1 seq2 policy :
  (length (split seq2) < length (split seq1))%nat ->
  similarityNgrams seq1 seq2 policy m = Undefined.
Proof.
  intros Hlt. unfold similarityNgrams. rewrite Nat.eqb_refl. simpl. unfold bind.
  rewrite ngrams_loop_past_end by lia. reflexivity.
Qed.

(** C9: the guard of [similarityNgrams] compares the size of the second
    sequence with itself, so no input makes the call fail with
    [LengthMismatch]; whenever the first sequence has more tokens than the
    second, the loop reads the second one past its end, and
    [similarityNgrams("foo bar", "foo")] is such a call. *)
Theorem similarityNgrams_guard_never_fires :
  (forall m seq1 seq2 policy,
      thrown (similarityNgrams seq1 seq2 policy m) <> Some LengthMismatch)
  /\ (forall m seq1 seq2 policy,
        (length (split seq2) < length (split seq1))%nat ->
        similarityNgrams seq1 seq2 policy m = Undefined)
  /\ (length (split "foo") < length (split "foo bar"))%nat
  /\ similarityNgrams "foo bar" "foo" 0 empty_model = Undefined.
Proof.
  split; [|split; [|split]].
  - intros. apply similarityNgrams_never_LengthMismatch.
  - intros. apply similarityNgrams_longer_first. assumption.
  - vm_compute. lia.
  - apply similarityNgrams_longer_first. vm_compute. lia.
Qed.

(** C1, on the code: the token counts of ["foo"] and ["foo bar"] differ, and
    [similarityNgrams] returns 1.0 on them instead of failing with
    [LengthMismatch], in every model and under every policy. *)
Theorem similarityNgrams_unequal_lengths_return :
  forall (m : MonolingualModel) (policy : Z),
    length (split "foo") <> length (split "foo bar")
    /\ similarityNgrams "foo" "foo bar" policy m = Ret Float32.one m.
Proof.
  intros m policy. split; [vm_compute; lia | reflexivity].
Qed.

(** ** Symmetry of the cosine *)

Lemma Float32_mul_comm (x y : float) : Float32.mul x y = Float32.mul y x.
Proof.
  unfold Float32.mul.
  destruct x as [sx|sx| |sx mx ex], y as [sy|sy| |sy my ey]; simpl;
    try reflexivity; try (rewrite xorb_comm; reflexivity).
  rewrite (xorb_comm sx sy), (Pos.mul_comm mx my), (Z.add_comm ex ey).
  reflexivity.
Qed.

Lemma dot_from_comm (v1 v2 : vec) :
  forall acc,
    fold_left (fun a xy => Float32.add a (Float32.mul (fst xy) (snd xy)))
              (combine v1 v2) acc
    = fold_left (fun a xy => Float32.add a (Float32.mul (fst xy) (snd xy)))
                (combine v2 v1) acc.
Proof.
  revert v2. induction v1 as [|x v1 IH]; intros [|y v2] acc; simpl;
    try reflexivity.
  rewrite (Float32_mul_comm x y). apply IH.
Qed.

Lemma dot_comm (v1 v2 : vec) : dot v1 v2 = dot v2 v1.
Proof. apply dot_from_comm. Qed.

Lemma String_eqb_sym (a b : string) : String.eqb a b = String.eqb b a.
Proof.
  destruct (String.eqb a b) eqn:Hab.
  - apply String.eqb_eq in Hab. subst. symmetry. apply String.eqb_refl.
  - destruct (String.eqb b a) eqn:Hba; [|reflexivity].
    apply String.eqb_eq in Hba. subst. rewrite String.eqb_refl in Hab.
    discriminate.
Qed.

(** C7: [similarity(a, b)] and [similarity(b, a)] return the same binary32
    value, bit for bit, or both fail to return: one call fails exactly when
    the other does. *)
Theorem similarity_symmetric :
  forall (m : MonolingualModel) (a b : string) (policy : Z),
    returned (similarity a b policy m) = returned (similarity b a policy m).
Proof.
  intros m a b policy. unfold similarity.
  rewrite (String_eqb_sym b a).
  destruct (String.eqb a b); [reflexivity|].
  unfold bind.
  pose proof (read_only_wordVec a policy m) as Ha.
  pose proof (read_only_wordVec b policy m) as Hb.
  destruct (wordVec a policy m) as [v1 m1|e1 m1|] eqn:Ea; simpl in Ha; subst;
    destruct (wordVec b policy m) as [v2 m2|e2 m2|] eqn:Eb; simpl in Hb; subst;
    rewrite ?Ea, ?Eb; simpl; try reflexivity.
  unfold ret. simpl.
  rewrite (dot_comm v2 v1), (Float32_mul_comm (norm v2) (norm v1)).
  reflexivity.
Qed.

(** ** The mean of [similarityNgrams] *)

Lemma ngrams_loop_fold words1 words2 policy :
  length words1 = length words2 ->
  forall n from acc m,
    (from + n = length words1)%nat ->
    for_loop from n (ngrams_step words1 words2 policy) acc m
    = ngrams_fold policy (combine (drop from words1) (drop from words2)) acc m.
Proof.
  intros Hlen n. induction n as [|n IH]; intros from acc m Hn; simpl.
  - rewrite (drop_ge words1) by lia. reflexivity.
  - destruct (lookup_lt_is_Some_2 words1 from) as [w1 Hw1]; [lia|].
    destruct (lookup_lt_is_Some_2 words2 from) as [w2 Hw2]; [lia|].
    rewrite (drop_S _ _ _ Hw1), (drop_S _ _ _ Hw2). simpl.
    unfold bind at 1. unfold ngrams_step at 1. unfold at_index, bind at 1 2.
    rewrite Hw1, Hw2. simpl.
    unfold bind at 3.
    destruct (try_catch _ _ m) as [acc' m'|e m'|]; try reflexivity.
    apply IH. lia.
Qed.

Lemma ngrams_fold_values policy m :
  forall pairs res cnt,
    0 <= cnt -> cnt + Z.of_nat (length pairs) <= INT_MAX ->
    ngrams_fold policy pairs (res, cnt) m
    = match position_values m policy pairs with
      | None => Undefined
      | Some sims =>
          Ret (fold_left Float32.add sims res, cnt + Z.of_nat (length sims)) m
      end.
Proof.
  induction pairs as [|[w1 w2] rest IH]; intros res cnt Hc Hmax.
  - simpl. unfold ret. rewrite Z.add_0_r. reflexivity.
  - cbn [ngrams_fold position_values length] in *.
    unfold bind at 1. unfold try_catch, bind at 1.
    pose proof (read_only_similarity w1 w2 policy m) as Hro.
    destruct (similarity w1 w2 policy m) as [s m'|e m'|]; simpl in Hro; subst.
    + cbn [snd fst]. unfold int_succ, in_int, INT_MIN, bind, ret.
      unfold INT_MAX in Hmax.
      replace ((-2147483648 <=? cnt + 1) && (cnt + 1 <=? INT_MAX)) with true
        by (symmetry; apply andb_true_intro; unfold INT_MAX; split; lia).
      rewrite IH by (unfold INT_MAX; lia).
      destruct (position_values m policy rest) as [sims|]; simpl; [|reflexivity].
      do 2 f_equal. lia.
    + unfold ret. rewrite IH by lia. reflexivity.
    + reflexivity.
Qed.

Lemma wordVec_unknown m w policy :
  vocabulary m !! w = None -> wordVec w policy m = Throw (NotInVocabulary w) m.
Proof. intros H. unfold wordVec, bind, gets. rewrite H. reflexivity. Qed.

(** A position with two different words, one of them unknown, gives no
    value. *)
Lemma similarity_unknown_word m w1 w2 policy :
  w1 <> w2 ->
  vocabulary m !! w1 = None \/ vocabulary m !! w2 = None ->
  returned (similarity w1 w2 policy m) = None.
Proof.
  intros Hne Hoov. unfold similarity.
  destruct (String.eqb w1 w2) eqn:E; [apply String.eqb_eq in E; contradiction|].
  unfold bind.
  pose proof (read_only_wordVec w1 policy m) as Hro.
  destruct (wordVec w1 policy m) as [v1 m1|e1 m1|] eqn:E1; simpl in Hro; subst;
    try reflexivity.
  destruct Hoov as [H|H].
  - rewrite (wordVec_unknown _ _ _ H) in E1. discriminate.
  - rewrite (wordVec_unknown _ _ _ H). reflexivity.
Qed.

(** C2, as the code has it: on two sequences with the same number of tokens
    (at most [INT_MAX] of them), [similarityNgrams] is the binary32 mean of
    the values [similarity] returns at the positions where it returns; a
    position is skipped exactly when [similarity] throws there; the call
    fails with [AllOOV] exactly when every position was skipped, and has no
    defined behaviour as soon as one position has none. A position with two
    different words of which one is unknown gives no value; a position with
    twice the same word gives 1.0, known or not. *)
Theorem similarityNgrams_mean :
  forall (m : MonolingualModel) (seq1 seq2 : string) (policy : Z),
    length (split seq1) = length (split seq2) ->
    Z.of_nat (length (split seq1)) <= INT_MAX ->
    similarityNgrams seq1 seq2 policy m
    = mean_of_positions m policy (combine (split seq1) (split seq2))
    /\ (forall w1 w2,
          w1 <> w2 ->
          vocabulary m !! w1 = None \/ vocabulary m !! w2 = None ->
          returned (similarity w1 w2 policy m) = None)
    /\ (forall w, similarity w w policy m = Ret Float32.one m).
Proof.
  intros m seq1 seq2 policy Hlen Hmax. split; [|split].
  - unfold similarityNgrams, mean_of_positions.
    rewrite Nat.eqb_refl. change (negb true) with false. cbv iota beta.
    unfold bind.
    rewrite (ngrams_loop_fold _ _ policy Hlen) by lia.
    rewrite !drop_0.
    rewrite ngrams_fold_values;
      [| lia | rewrite length_combine; lia].
    destruct (position_values m policy _) as [[|s sims]|]; reflexivity.
  - intros w1 w2. apply similarity_unknown_word.
  - intros w. unfold similarity. rewrite String.eqb_refl. reflexivity.
Qed.

Lemma similarityNgrams_mean_witness :
  similarityNgrams "the cat" "the dog" 0 empty_model
  = mean_of_positions empty_model 0
      (combine (split "the cat") (split "the dog"))
  /\ (forall w1 w2,
        w1 <> w2 ->
        vocabulary empty_model !! w1 = None \/ vocabulary empty_model !! w2 = None ->
        returned (similarity w1 w2 0 empty_model) = None)
  /\ (forall w, similarity w w 0 empty_model = Ret Float32.one empty_model).
Proof.
  apply (similarityNgrams_mean empty_model "the cat" "the dog" 0).
  - reflexivity.
  - vm_compute. discriminate.
Defined.

(** C2, as the claim has it, fails: ["zzz"] is not a word of the empty
    model, and yet the position that holds it twice is not skipped:
    [similarityNgrams("zzz", "zzz")] returns 1.0 where the claim has the only
    position skipped and the call fail with [AllOOV]. *)
Lemma similarityNgrams_counts_unknown_pair :
  vocabulary empty_model !! "zzz" = None
  /\ length (split "zzz") = length (split "zzz")
  /\ similarityNgrams "zzz" "zzz" 0 empty_model = Ret Float32.one empty_model
  /\ thrown (similarityNgrams "zzz" "zzz" 0 empty_model) <> Some AllOOV.
Proof.
  split; [reflexivity|]. split; [reflexivity|]. split; [reflexivity|].
  vm_compute. discriminate.
Qed.

(** ** Counts in the Huffman tree *)

(** Induction over a node and the subtrees its pointers own. *)
Lemma HuffmanNode_ind (P : HuffmanNode -> Prop) :
  (forall w c p l r i cnt lf u s,
      (forall a, l = Some a -> P a) ->
      (forall b, r = Some b -> P b) ->
      P (mkHuffmanNode w c p l r i cnt lf u s)) ->
  forall n, P n.
Proof.
  intros H. fix IH 1. intros [w c p l r i cnt lf u s]. apply H.
  - destruct l as [a|].
    + pose proof (IH a) as Pa. intros a' Ha. injection Ha as <-. exact Pa.
    + intros a' Ha. discriminate.
  - destruct r as [b|].
    + pose proof (IH b) as Pb. intros b' Hb. injection Hb as <-. exact Pb.
    + intros b' Hb. discriminate.
Qed.

Lemma count_is_leaf_sum (n : HuffmanNode) :
  counts_ok n -> count n = leaf_count_sum n.
Proof.
  destruct n as [w c p l r i cnt lf u s]. simpl.
  destruct lf; [reflexivity|].
  destruct l as [a|], r as [b|]; try contradiction.
  intros [H _]. exact H.
Qed.

Lemma leaf_counts_ok (n : HuffmanNode) : is_leaf n = true -> counts_ok n.
Proof. destruct n as [w c p l r i cnt lf u s]. simpl. intros ->. exact I. Qed.

Lemma HuffmanNode_internal_ok i a b p :
  HuffmanNode_internal i a b = Some p ->
  counts_ok a -> counts_ok b -> counts_ok p.
Proof.
  unfold HuffmanNode_internal. intros H Ha Hb.
  destruct (in_int (count a + count b)); [|discriminate].
  injection H as <-. simpl.
  rewrite (count_is_leaf_sum a Ha), (count_is_leaf_sum b Hb). auto.
Qed.

Lemma take_min_Forall (P : HuffmanNode -> Prop) leaves internals x l' n' :
  take_min leaves internals = Some (x, (l', n')) ->
  Forall P leaves -> Forall P internals ->
  P x /\ Forall P l' /\ Forall P n'.
Proof.
  unfold take_min. intros H Hl Hn.
  destruct leaves as [|a ls], internals as [|b ns]; try discriminate.
  - injection H as <- <- <-. inversion Hn; subst. auto.
  - injection H as <- <- <-. inversion Hl; subst. auto.
  - destruct (comp a b); injection H as <- <- <-.
    + inversion Hn; subst. auto.
    + inversion Hl; subst. auto.
Qed.

Lemma merge_nodes_Forall n :
  forall i leaves internals l' n',
    merge_nodes i n leaves internals = Some (l', n') ->
    Forall counts_ok leaves -> Forall counts_ok internals ->
    Forall counts_ok l' /\ Forall counts_ok n'.
Proof.
  induction n as [|n IH]; intros i leaves internals l' n' H Hl Hn; simpl in H.
  - injection H as <- <-. auto.
  - destruct (take_min leaves internals) as [[a [l1 n1]]|] eqn:E1;
      simpl in H; [|discriminate].
    destruct (take_min l1 n1) as [[b [l2 n2]]|] eqn:E2;
      simpl in H; [|discriminate].
    destruct (HuffmanNode_internal i a b) as [p|] eqn:Ep;
      simpl in H; [|discriminate].
    destruct (take_min_Forall _ _ _ _ _ _ E1 Hl Hn) as (Ha & Hl1 & Hn1).
    destruct (take_min_Forall _ _ _ _ _ _ E2 Hl1 Hn1) as (Hb & Hl2 & Hn2).
    apply (IH _ _ _ _ _ H Hl2).
    apply Forall_app. split; [exact Hn2|].
    constructor; [|constructor].
    exact (HuffmanNode_internal_ok _ _ _ _ Ep Ha Hb).
Qed.

Lemma assignCodes_leaf_count_sum (n : HuffmanNode) :
  forall code parents,
    leaf_count_sum (assignCodes n code parents) = leaf_count_sum n.
Proof.
  induction n as [w c p l r i cnt lf u s IHl IHr] using HuffmanNode_ind.
  intros code parents. simpl. destruct lf; simpl; [reflexivity|].
  destruct l as [a|], r as [b|]; simpl;
    rewrite ?(IHl a eq_refl), ?(IHr b eq_refl); reflexivity.
Qed.

Lemma assignCodes_counts_ok (n : HuffmanNode) :
  forall code parents, counts_ok n -> counts_ok (assignCodes n code parents).
Proof.
  induction n as [w c p l r i cnt lf u s IHl IHr] using HuffmanNode_ind.
  intros code parents. simpl. destruct lf; simpl; [auto|].
  destruct l as [a|], r as [b|]; simpl; try contradiction.
  intros (Hc & Ha & Hb).
  rewrite !assignCodes_leaf_count_sum.
  split; [exact Hc|]. split; [apply (IHl a eq_refl) | apply (IHr b eq_refl)]; assumption.
Qed.

Lemma insert_by_count_Forall (P : HuffmanNode -> Prop) x l :
  P x -> Forall P l -> Forall P (insert_by_count x l).
Proof.
  intros Hx Hl. induction Hl as [|y l Hy Hl IH]; simpl.
  - constructor; [exact Hx | constructor].
  - destruct (comp y x); constructor; auto.
Qed.

Lemma sort_by_count_Forall (P : HuffmanNode -> Prop) l :
  Forall P l -> Forall P (sort_by_count l).
Proof.
  intros Hl. induction Hl as [|x l Hx Hl IH]; simpl.
  - constructor.
  - apply insert_by_count_Forall; assumption.
Qed.

Lemma counts_ok_nodes (t : HuffmanNode) :
  counts_ok t ->
  forall s, s ∈ nodes t -> is_leaf s = false ->
    count s = leaf_count_sum s
    /\ exists a b, left s = Some a /\ right s = Some b
                   /\ count s = count a + count b.
Proof.
  induction t as [w c p l r i cnt lf u x IHl IHr] using HuffmanNode_ind.
  intros Hok s Hs Hleaf. simpl in Hs. apply elem_of_cons in Hs.
  destruct Hs as [->|Hs].
  - simpl in Hleaf. subst lf. split; [apply count_is_leaf_sum; exact Hok|].
    simpl in Hok. destruct l as [a|], r as [b|]; try contradiction.
    destruct Hok as (Hc & Ha & Hb).
    exists a, b. simpl. split; [reflexivity|]. split; [reflexivity|].
    rewrite (count_is_leaf_sum a Ha), (count_is_leaf_sum b Hb). exact Hc.
  - simpl in Hok. destruct lf; [apply elem_of_nil in Hs; contradiction|].
    destruct l as [a|], r as [b|]; try contradiction.
    destruct Hok as (Hc & Ha & Hb).
    apply elem_of_app in Hs. destruct Hs as [Hs|Hs].
    + apply (IHl a eq_refl Ha s Hs Hleaf).
    + apply (IHr b eq_refl Hb s Hs Hleaf).
Qed.

Lemma createBinaryTree_counts_ok voc t :
  (forall w n, voc !! w = Some n -> is_leaf n = true) ->
  createBinaryTree voc = Some t -> counts_ok t.
Proof.
  intros Hleaves. unfold createBinaryTree.
  set (heap := sort_by_count (map snd (map_to_list voc))).
  assert (Forall counts_ok (rev heap)) as Hheap.
  { apply Forall_rev. apply sort_by_count_Forall.
    apply Forall_forall. intros n Hn.
    apply list_elem_of_In, in_map_iff in Hn.
    destruct Hn as ([w n'] & <- & Hn).
    apply list_elem_of_In, elem_of_map_to_list in Hn. simpl.
    apply leaf_counts_ok. exact (Hleaves _ _ Hn). }
  intros H.
  destruct (merge_nodes 0 (length heap - 1) (rev heap) [])
    as [[leaves internals]|] eqn:Em; simpl in H; [|discriminate].
  destruct (take_min leaves internals) as [[root [l' n']]|] eqn:Er;
    simpl in H; [|discriminate].
  injection H as <-.
  destruct (merge_nodes_Forall _ _ _ _ _ _ Em Hheap (Forall_nil_2 _)) as [Hl Hn].
  destruct (take_min_Forall _ _ _ _ _ _ Er Hl Hn) as (Hroot & _).
  apply assignCodes_counts_ok. exact Hroot.
Qed.

Lemma total_count_app (l1 l2 : list HuffmanNode) :
  total_count (l1 ++ l2) = total_count l1 + total_count l2.
Proof. induction l1 as [|x l1 IH]; simpl; [reflexivity | rewrite IH; lia]. Qed.

Lemma total_count_rev (l : list HuffmanNode) : total_count (rev l) = total_count l.
Proof.
  induction l as [|x l IH]; simpl; [reflexivity|].
  rewrite total_count_app, IH. simpl. lia.
Qed.

Lemma insert_by_count_total (x : HuffmanNode) (l : list HuffmanNode) :
  total_count (insert_by_count x l) = count x + total_count l
  /\ length (insert_by_count x l) = S (length l).
Proof.
  induction l as [|y l [IH1 IH2]]; simpl; [split; reflexivity|].
  destruct (comp y x); simpl; [rewrite IH1, IH2|]; split; lia.
Qed.

Lemma sort_by_count_total (l : list HuffmanNode) :
  total_count (sort_by_count l) = total_count l
  /\ length (sort_by_count l) = length l.
Proof.
  induction l as [|x l [IH1 IH2]]; simpl; [split; reflexivity|].
  destruct (insert_by_count_total x (sort_by_count l)) as [H1 H2].
  rewrite H1, H2, IH1, IH2. split; reflexivity.
Qed.

(** Taking the smaller of the two fronts succeeds on a non-empty pair of
    queues and removes one node. *)
Lemma take_min_defined (leaves internals : list HuffmanNode) :
  (0 < length leaves + length internals)%nat ->
  exists x l' n',
    take_min leaves internals = Some (x, (l', n'))
    /\ S (length l' + length n') = (length leaves + length internals)%nat
    /\ count x + (total_count l' + total_count n')
       = total_count leaves + total_count internals.
Proof.
  intros Hlen. unfold take_min.
  destruct leaves as [|a ls], internals as [|b ns]; simpl in *; try lia.
  - exists b, [], ns. repeat split; simpl; lia.
  - exists a, ls, []. repeat split; simpl; lia.
  - destruct (comp a b).
    + exists b, (a :: ls), ns. repeat split; simpl; lia.
    + exists a, ls, (b :: ns). repeat split; simpl; lia.
Qed.

(** The merges are all defined when no count is negative and the total of
    the counts fits an [int]; they leave one node. *)
Lemma merge_nodes_defined (n : nat) :
  forall i leaves internals,
    (length leaves + length internals = S n)%nat ->
    Forall (fun x => 0 <= count x) leaves ->
    Forall (fun x => 0 <= count x) internals ->
    total_count leaves + total_count internals <= INT_MAX ->
    exists l' n',
      merge_nodes i n leaves internals = Some (l', n')
      /\ (length l' + length n' = 1)%nat.
Proof.
  induction n as [|n IH]; intros i leaves internals Hlen Hl Hn Htot; simpl.
  - exists leaves, internals. split; [reflexivity | exact Hlen].
  - destruct (take_min_defined leaves internals ltac:(lia))
      as (a & l1 & n1 & E1 & Hlen1 & Htot1).
    destruct (take_min_Forall _ _ _ _ _ _ E1 Hl Hn) as (Ha & Hl1 & Hn1).
    destruct (take_min_defined l1 n1 ltac:(lia))
      as (b & l2 & n2 & E2 & Hlen2 & Htot2).
    destruct (take_min_Forall _ _ _ _ _ _ E2 Hl1 Hn1) as (Hb & Hl2 & Hn2).
    assert (0 <= total_count l2 /\ 0 <= total_count n2) as [Hp1 Hp2].
    { split; [clear - Hl2; induction Hl2 | clear - Hn2; induction Hn2];
        simpl; lia. }
    rewrite E1. simpl. rewrite E2. simpl.
    unfold HuffmanNode_internal, in_int, INT_MIN.
    replace ((-2147483648 <=? count a + count b) && (count a + count b <=? INT_MAX))
      with true
      by (symmetry; apply andb_true_intro; split;
          [apply Z.leb_le | apply Z.leb_le]; lia).
    simpl. apply IH.
    + rewrite length_app. simpl. lia.
    + exact Hl2.
    + apply Forall_app. split; [exact Hn2|]. repeat constructor. simpl. lia.
    + rewrite total_count_app. simpl. lia.
Qed.

(** The builder makes a tree out of every vocabulary that is not empty,
    has no negative count and a total count within [int]. *)
Lemma createBinaryTree_defined (voc : gmap string HuffmanNode) :
  voc <> ∅ ->
  (forall w n, voc !! w = Some n -> 0 <= count n) ->
  total_count (map snd (map_to_list voc)) <= INT_MAX ->
  exists t, createBinaryTree voc = Some t.
Proof.
  intros Hne Hpos Htot. unfold createBinaryTree.
  set (entries := map snd (map_to_list voc)) in *.
  destruct (sort_by_count_total entries) as [Hsum Hlen].
  set (heap := sort_by_count entries) in *.
  assert (Forall (fun x => 0 <= count x) (rev heap)) as Hheap.
  { apply Forall_rev. apply sort_by_count_Forall.
    apply Forall_forall. intros n Hn.
    apply list_elem_of_In, in_map_iff in Hn.
    destruct Hn as ([w n'] & <- & Hn).
    apply list_elem_of_In, elem_of_map_to_list in Hn. exact (Hpos _ _ Hn). }
  assert (0 < length heap)%nat as Hnonempty.
  { rewrite Hlen. unfold entries. rewrite length_map.
    destruct (map_to_list voc) as [|e l] eqn:E; [|simpl; lia].
    apply map_to_list_empty_iff in E. contradiction. }
  destruct (merge_nodes_defined (length heap - 1) 0 (rev heap) [])
    as (leaves & internals & -> & Hone).
  - rewrite length_rev. simpl. lia.
  - exact Hheap.
  - constructor.
  - rewrite total_count_rev, Hsum. simpl. lia.
  - simpl.
    destruct (take_min_defined leaves internals ltac:(lia))
      as (root & l' & n' & -> & _).
    simpl. eexists. reflexivity.
Qed.

(** C8: in the tree the builder makes out of a vocabulary of leaves, every
    internal node stores the sum of the counts of the leaves below it, and
    that is the count of its left child plus the count of its right child. *)
Theorem huffman_internal_count_is_leaf_sum :
  forall (voc : gmap string HuffmanNode) (t : HuffmanNode),
    (forall w n, voc !! w = Some n -> is_leaf n = true) ->
    createBinaryTree voc = Some t ->
    forall s, s ∈ nodes t -> is_leaf s = false ->
      count s = leaf_count_sum s
      /\ exists a b, left s = Some a /\ right s = Some b
                     /\ count s = count a + count b.
Proof.
  intros voc t Hleaves Ht.
  apply counts_ok_nodes. exact (createBinaryTree_counts_ok voc t Hleaves Ht).
Qed.

Lemma huffman_internal_count_is_leaf_sum_witness :
  exists t,
    createBinaryTree example_vocabulary = Some t
    /\ count t = 8
    /\ count t = leaf_count_sum t
    /\ exists a b, left t = Some a /\ right t = Some b
                   /\ count t = count a + count b.
Proof.
  eexists. split; [vm_compute; reflexivity|]. split; [reflexivity|].
  eapply (huffman_internal_count_is_leaf_sum example_vocabulary).
  - intros w n H. unfold example_vocabulary in H.
    repeat (apply lookup_insert_Some in H; destruct H as [[_ <-]|[_ H]];
            [reflexivity|]).
    rewrite lookup_empty in H. discriminate.
  - vm_compute. reflexivity.
  - simpl. apply list_elem_of_here.
  - reflexivity.
Defined.

(** ** [normalizeWeights], column by column *)

Lemma loop_invariant {A} (P : nat -> A -> Prop) (body : A -> nat -> option A) :
  forall n from acc,
    P from acc ->
    (forall k a, (from <= k < from + n)%nat -> P k a ->
                 exists a', body a k = Some a' /\ P (S k) a') ->
    exists a', loop from n body acc = Some a' /\ P (from + n)%nat a'.
Proof.
  induction n as [|n IH]; intros from acc HP Hstep; simpl.
  - exists acc. rewrite Nat.add_0_r. auto.
  - destruct (Hstep from acc) as (a' & -> & HP'); [lia | exact HP |].
    destruct (IH (S from) a' HP') as (a'' & Hl & HP'').
    + intros k a Hk. apply Hstep. lia.
    + exists a''. split; [exact Hl|].
      replace (from + S n)%nat with (S from + n)%nat by lia. exact HP''.
Qed.

Lemma loop_bound_small (n : nat) :
  Z.of_nat n <= INT_MAX ->
  Z.to_nat (to_size_t (to_int (Z.of_nat n))) = n.
Proof.
  unfold INT_MAX, to_size_t, to_int. intros H.
  rewrite (Z.mod_small (Z.of_nat n + 2 ^ 31)) by lia.
  rewrite Z.mod_small by lia. lia.
Qed.

(** Updating position [k] of a vector that has its first [k] entries taken
    from [new] already. *)
Lemma insert_take_drop {A} (new old : list A) (k : nat) (x : A) :
  length new = length old -> new !! k = Some x ->
  <[k := x]> (take k new ++ drop k old) = take (S k) new ++ drop (S k) old.
Proof.
  intros Hlen Hk.
  assert (k < length new)%nat as Hlt by (eapply lookup_lt_Some; exact Hk).
  rewrite insert_app_r_alt by (rewrite length_take; lia).
  rewrite length_take, Nat.min_l by lia. rewrite Nat.sub_diag.
  destruct (lookup_lt_is_Some_2 old k) as [y Hy]; [lia|].
  rewrite (drop_S old y k Hy). simpl.
  rewrite (take_S_r new k x Hk). rewrite <- app_assoc. reflexivity.
Qed.

Lemma lookup_take_drop {A} (new old : list A) (k : nat) :
  length new = length old ->
  (take k new ++ drop k old) !! k = old !! k.
Proof.
  intros Hlen. destruct (decide (k < length new)%nat) as [Hlt|Hge].
  - rewrite lookup_app_r by (rewrite length_take; lia).
    rewrite length_take, Nat.min_l by lia. rewrite Nat.sub_diag.
    rewrite lookup_drop. f_equal. lia.
  - rewrite (lookup_ge_None_2 old) by lia.
    apply lookup_ge_None_2. rewrite length_app, length_take, length_drop. lia.
Qed.

Lemma length_take_drop {A} (new old : list A) (k : nat) :
  length new = length old -> length (take k new ++ drop k old) = length old.
Proof. intros H. rewrite length_app, length_take, length_drop. lia. Qed.

(** The inner loop of the first pair: one row folded into the extremes. *)
Lemma minmax_row (weights : mat) (i : nat) (wi mnv mxv : vec) :
  weights !! i = Some wi ->
  length mnv = length wi -> length mxv = length wi ->
  loop 0 (length wi) (minmax_step weights i) (mnv, mxv)
  = Some (zip_with Float32.min mnv wi, zip_with Float32.max mxv wi).
Proof.
  intros Hi Hmn Hmx.
  set (A := zip_with Float32.min mnv wi).
  set (B := zip_with Float32.max mxv wi).
  assert (length A = length mnv) as HA
      by (unfold A; rewrite length_zip_with; lia).
  assert (length B = length mxv) as HB
      by (unfold B; rewrite length_zip_with; lia).
  destruct (loop_invariant
              (fun k acc => acc = (take k A ++ drop k mnv, take k B ++ drop k mxv))
              (minmax_step weights i) (length wi) 0 (mnv, mxv))
    as (acc & Hl & Hacc).
  - rewrite !take_0, !drop_0. reflexivity.
  - intros k a Hk ->. unfold minmax_step. rewrite Hi. simpl.
    destruct (lookup_lt_is_Some_2 wi k) as [x Hx]; [lia|].
    destruct (lookup_lt_is_Some_2 mnv k) as [mn Hmnk]; [lia|].
    destruct (lookup_lt_is_Some_2 mxv k) as [mx Hmxk]; [lia|].
    rewrite Hx. simpl.
    rewrite (lookup_take_drop A mnv k HA), Hmnk. simpl.
    unfold store. rewrite (length_take_drop A mnv k HA).
    replace (k <? length mnv)%nat with true by (symmetry; apply Nat.ltb_lt; lia).
    simpl.
    rewrite (lookup_take_drop B mxv k HB), Hmxk. simpl.
    rewrite (length_take_drop B mxv k HB).
    replace (k <? length mxv)%nat with true by (symmetry; apply Nat.ltb_lt; lia).
    simpl. eexists. split; [reflexivity|].
    rewrite (insert_take_drop A mnv k _ HA), (insert_take_drop B mxv k _ HB);
      [reflexivity | |].
    + unfold B. rewrite lookup_zip_with, Hmxk, Hx. reflexivity.
    + unfold A. rewrite lookup_zip_with, Hmnk, Hx. reflexivity.
  - rewrite Hl, Hacc. simpl.
    rewrite !take_ge, !drop_ge by lia. rewrite !app_nil_r. reflexivity.
Qed.

Lemma length_fold_zip_with (f : float -> float -> float) (rows : list vec) :
  forall v : vec,
    Forall (fun r : vec => length r = length v) rows ->
    length (fold_left (zip_with f) rows v) = length v.
Proof.
  induction rows as [|r rows IH]; intros v Hall; simpl; [reflexivity|].
  inversion Hall as [|? ? Hr Hrest]; subst.
  assert (length (zip_with f v r) = length v) as Hz
      by (rewrite length_zip_with; lia).
  rewrite IH; [exact Hz|].
  eapply Forall_impl; [exact Hrest|]. intros r' Hr'. simpl in Hr'. lia.
Qed.

(** The first pair of loops: all rows after the first folded into the
    extremes. *)
Lemma minmax_rows (row0 : vec) (rest : list vec) :
  Forall (fun r : vec => length r = length row0) rest ->
  loop 1 (length rest)
       (fun acc i => loop 0 (length row0) (minmax_step (row0 :: rest) i) acc)
       (row0, row0)
  = Some (fold_left (zip_with Float32.min) rest row0,
          fold_left (zip_with Float32.max) rest row0).
Proof.
  intros Hall.
  destruct (loop_invariant
              (fun i acc =>
                 acc = (fold_left (zip_with Float32.min) (take (i - 1) rest) row0,
                        fold_left (zip_with Float32.max) (take (i - 1) rest) row0))
              (fun acc i => loop 0 (length row0) (minmax_step (row0 :: rest) i) acc)
              (length rest) 1 (row0, row0))
    as (acc & Hl & Hacc).
  - reflexivity.
  - intros i a Hi ->.
    destruct (lookup_lt_is_Some_2 rest (i - 1)) as [wi Hwi]; [lia|].
    assert (length wi = length row0) as Hlen.
    { rewrite Forall_lookup in Hall. exact (Hall _ _ Hwi). }
    assert (Forall (fun r : vec => length r = length row0) (take (i - 1) rest))
      as Htake by (apply Forall_take; exact Hall).
    eexists. split.
    + rewrite <- Hlen. apply minmax_row.
      * destruct i as [|i]; [lia|].
        replace (S i - 1)%nat with i in Hwi by lia. exact Hwi.
      * rewrite length_fold_zip_with; [lia | exact Htake].
      * rewrite length_fold_zip_with; [lia | exact Htake].
    + replace (S i - 1)%nat with (S (i - 1)) by lia.
      rewrite (take_S_r rest (i - 1) wi Hwi), !fold_left_app. reflexivity.
  - rewrite Hl, Hacc.
    replace (1 + length rest - 1)%nat with (length rest) by lia.
    rewrite take_ge by lia. reflexivity.
Qed.

Lemma length_normalize_row (mnv mxv r : vec) :
  length mnv = length r -> length mxv = length r ->
  length (normalize_row mnv mxv r) = length r.
Proof.
  intros H1 H2. unfold normalize_row.
  rewrite length_zip_with, length_zip_with. lia.
Qed.

Lemma lookup_normalize_row (mnv mxv r : vec) (k : nat) x mn mx :
  r !! k = Some x -> mnv !! k = Some mn -> mxv !! k = Some mx ->
  normalize_row mnv mxv r !! k = Some (normalize_entry mn mx x).
Proof.
  intros Hx Hmn Hmx. unfold normalize_row.
  rewrite lookup_zip_with, Hx. simpl.
  rewrite lookup_zip_with, Hmn. simpl. rewrite Hmx. reflexivity.
Qed.

(** The inner loop of the second pair: row [i] rescaled in place. *)
Lemma normalize_one_row (mnv mxv : vec) (cur : mat) (i : nat) (wi : vec) :
  cur !! i = Some wi ->
  length mnv = length wi -> length mxv = length wi ->
  loop 0 (length wi) (normalize_step mnv mxv i) cur
  = Some (<[i := normalize_row mnv mxv wi]> cur).
Proof.
  intros Hi Hmn Hmx.
  assert (i < length cur)%nat as Hilt by (eapply lookup_lt_Some; exact Hi).
  set (N := normalize_row mnv mxv wi).
  assert (length N = length wi) as HN
      by (apply length_normalize_row; assumption).
  destruct (loop_invariant
              (fun k w => w = <[i := take k N ++ drop k wi]> cur)
              (normalize_step mnv mxv i) (length wi) 0 cur)
    as (w & Hl & Hw).
  - rewrite take_0, drop_0. simpl. symmetry. apply list_insert_id. exact Hi.
  - intros k a Hk ->. unfold normalize_step.
    destruct (lookup_lt_is_Some_2 wi k) as [x Hx]; [lia|].
    destruct (lookup_lt_is_Some_2 mnv k) as [mn Hmnk]; [lia|].
    destruct (lookup_lt_is_Some_2 mxv k) as [mx Hmxk]; [lia|].
    rewrite Hmxk, Hmnk. simpl.
    pose proof (lookup_normalize_row mnv mxv wi k x mn mx Hx Hmnk Hmxk) as HNk.
    fold N in HNk. unfold normalize_entry in HNk.
    destruct (Float32.neqb mx mn).
    + rewrite list_lookup_insert_eq by exact Hilt. simpl.
      rewrite (lookup_take_drop N wi k HN), Hx. simpl.
      unfold store. rewrite (length_take_drop N wi k HN).
      replace (k <? length wi)%nat with true by (symmetry; apply Nat.ltb_lt; lia).
      simpl. rewrite length_insert.
      replace (i <? length cur)%nat with true by (symmetry; apply Nat.ltb_lt; lia).
      eexists. split; [reflexivity|].
      rewrite list_insert_insert_eq.
      rewrite (insert_take_drop N wi k _ HN HNk). reflexivity.
    + eexists. split; [reflexivity|].
      rewrite <- (insert_take_drop N wi k x HN HNk).
      rewrite (list_insert_id (take k N ++ drop k wi) k x); [reflexivity|].
      rewrite (lookup_take_drop N wi k HN). exact Hx.
  - rewrite Hl, Hw. simpl.
    rewrite take_ge, drop_ge by lia. rewrite app_nil_r. reflexivity.
Qed.

(** The second pair of loops: every row rescaled. *)
Lemma normalize_rows (mnv mxv : vec) (weights : mat) :
  Forall (fun r : vec => length r = length mnv) weights ->
  length mxv = length mnv ->
  loop 0 (length weights)
       (fun w i => loop 0 (length mnv) (normalize_step mnv mxv i) w) weights
  = Some (map (normalize_row mnv mxv) weights).
Proof.
  intros Hall Hmx.
  set (N := map (normalize_row mnv mxv) weights).
  assert (length N = length weights) as HN by (unfold N; apply length_map).
  destruct (loop_invariant
              (fun i w => w = take i N ++ drop i weights)
              (fun w i => loop 0 (length mnv) (normalize_step mnv mxv i) w)
              (length weights) 0 weights)
    as (w & Hl & Hw).
  - rewrite take_0, drop_0. reflexivity.
  - intros i a Hi ->.
    destruct (lookup_lt_is_Some_2 weights i) as [wi Hwi]; [lia|].
    assert (length wi = length mnv) as Hlen.
    { rewrite Forall_lookup in Hall. exact (Hall _ _ Hwi). }
    eexists. split.
    + rewrite <- Hlen. apply normalize_one_row; [|lia|lia].
      rewrite (lookup_take_drop N weights i HN). exact Hwi.
    + apply insert_take_drop; [exact HN|].
      unfold N. rewrite list_lookup_fmap, Hwi. reflexivity.
  - rewrite Hl, Hw. simpl.
    rewrite take_ge, drop_ge by lia. rewrite app_nil_r. reflexivity.
Qed.

Lemma lookup_fold_zip_with (f : float -> float -> float) (rest : list vec) (j : nat) :
  forall (v : vec) (x : float),
    v !! j = Some x ->
    Forall (fun r : vec => length r = length v) rest ->
    fold_left (zip_with f) rest v !! j = Some (fold_left f (column rest j) x).
Proof.
  induction rest as [|r rest IH]; intros v x Hx Hall; simpl; [exact Hx|].
  inversion Hall as [|? ? Hr Hrest]; subst.
  assert (j < length v)%nat as Hj by (eapply lookup_lt_Some; exact Hx).
  destruct (lookup_lt_is_Some_2 r j) as [y Hy]; [lia|].
  unfold column. simpl. rewrite Hy. simpl.
  apply IH.
  - rewrite lookup_zip_with, Hx. simpl. rewrite Hy. reflexivity.
  - eapply Forall_impl; [exact Hrest|]. intros r' Hr'. simpl in Hr'.
    rewrite length_zip_with. lia.
Qed.

Lemma rectangular_rows (row0 : vec) (rest : list vec) :
  rectangular (row0 :: rest) ->
  Forall (fun r : vec => length r = length row0) (row0 :: rest)
  /\ Z.of_nat (length row0) <= INT_MAX.
Proof.
  intros Hrect. split.
  - apply Forall_forall. intros r Hr.
    destruct (Hrect row0 r eq_refl Hr) as [H _]. exact H.
  - destruct (Hrect row0 row0 eq_refl (list_elem_of_here _ _)) as [_ H]. exact H.
Qed.

Lemma normalized_rows (row0 : vec) (rest : list vec) :
  Forall (fun r : vec => length r = length row0) (row0 :: rest) ->
  normalized (row0 :: rest)
  = map (normalize_row (fold_left (zip_with Float32.min) rest row0)
                       (fold_left (zip_with Float32.max) rest row0))
        (row0 :: rest).
Proof.
  intros Hall. unfold normalized.
  assert (Forall (fun r : vec => length r = length row0) rest) as Hrest
      by (inversion Hall; assumption).
  apply map_ext_Forall.
  eapply Forall_impl; [exact Hall|]. intros r Hr. simpl in Hr.
  apply list_eq. intros j. rewrite list_lookup_imap.
  destruct (r !! j) as [x|] eqn:Hx; simpl.
  - assert (j < length row0)%nat as Hj
        by (rewrite <- Hr; eapply lookup_lt_Some; exact Hx).
    destruct (lookup_lt_is_Some_2 row0 j) as [x0 Hx0]; [lia|].
    unfold column_min, column_max, column. simpl. rewrite Hx0. simpl.
    fold (column rest j).
    symmetry. apply lookup_normalize_row; [exact Hx| |];
      apply lookup_fold_zip_with; assumption.
  - unfold normalize_row. rewrite lookup_zip_with, Hx. reflexivity.
Qed.

(** [normalizeWeights] is defined on a rectangular matrix and leaves the
    matrix rescaled column by column. *)
Lemma normalizeWeights_normalized (weights : mat) :
  rectangular weights -> normalizeWeights weights = Some (normalized weights).
Proof.
  intros Hrect. destruct weights as [|row0 rest]; [reflexivity|].
  destruct (rectangular_rows row0 rest Hrect) as [Hall Hmax].
  assert (Forall (fun r : vec => length r = length row0) rest) as Hrest
      by (inversion Hall; assumption).
  unfold normalizeWeights. rewrite (loop_bound_small _ Hmax).
  replace (length (row0 :: rest) - 1)%nat with (length rest) by (simpl; lia).
  rewrite (minmax_rows row0 rest Hrest). cbn [mbind option_bind fst snd].
  set (mins := fold_left (zip_with Float32.min) rest row0).
  set (maxs := fold_left (zip_with Float32.max) rest row0).
  assert (length mins = length row0) as Hmins
      by (apply length_fold_zip_with; exact Hrest).
  assert (length maxs = length row0) as Hmaxs
      by (apply length_fold_zip_with; exact Hrest).
  rewrite <- Hmins.
  rewrite (normalize_rows mins maxs (row0 :: rest)).
  - rewrite (normalized_rows row0 rest Hall). reflexivity.
  - eapply Forall_impl; [exact Hall|]. intros r Hr. simpl in Hr. lia.
  - lia.
Qed.

(** ** binary32 facts *)

Lemma Float32_sub_self (s : bool) (m : positive) (e : Z) :
  Float32.sub (S754_finite s m e) (S754_finite s m e) = S754_zero false.
Proof.
  unfold Float32.sub, SFsub. rewrite Z.sub_diag. reflexivity.
Qed.

Lemma div_eucl_shift (m : positive) :
  Z.div_eucl (Z.shiftl (Zpos m) 24) (Zpos m) = (16777216, 0).
Proof.
  rewrite Z.shiftl_mul_pow2 by lia.
  pose proof (Z.div_mul (2 ^ 24) (Zpos m) ltac:(lia)) as Hq.
  pose proof (Z.mod_mul (2 ^ 24) (Zpos m) ltac:(lia)) as Hr.
  rewrite (Z.mul_comm (2 ^ 24)) in Hq, Hr.
  unfold Z.div, Z.modulo in Hq, Hr.
  destruct (Z.div_eucl (Zpos m * 2 ^ 24) (Zpos m)) as [q r].
  simpl in Hq, Hr. subst. reflexivity.
Qed.

(** A finite float divided by itself is 1.0. *)
Lemma Float32_div_self (s : bool) (m : positive) (e : Z) :
  Float32.div (S754_finite s m e) (S754_finite s m e) = Float32.one.
Proof.
  unfold Float32.div, SFdiv, SFdiv_core_binary.
  rewrite !Z.sub_diag.
  change (Z.min (fexp Float32.prec Float32.emax 0) 0) with (-24).
  change (0 - -24) with 24.
  cbv iota beta.
  rewrite div_eucl_shift.
  assert (new_location (Zpos m) 0 = loc_Exact) as ->.
  { unfold new_location, new_location_even, new_location_odd.
    destruct (Z.even (Zpos m)); reflexivity. }
  destruct s; reflexivity.
Qed.

(** ** Rounding to binary32, on integers: every finite binary32 number is
    an integer multiple of [2 ^ -149], and the lemmas below follow the
    operations of [SpecFloat] on that integer. *)

Lemma digits2_pos_bounds (m : positive) :
  2 ^ (Zpos (digits2_pos m) - 1) <= Zpos m < 2 ^ Zpos (digits2_pos m).
Proof.
  induction m as [m IH|m IH|]; simpl digits2_pos.
  - rewrite Pos2Z.inj_succ.
    replace (Z.succ (Zpos (digits2_pos m)) - 1)
      with (Z.succ (Zpos (digits2_pos m) - 1)) by lia.
    rewrite !Z.pow_succ_r by lia. lia.
  - rewrite Pos2Z.inj_succ.
    replace (Z.succ (Zpos (digits2_pos m)) - 1)
      with (Z.succ (Zpos (digits2_pos m) - 1)) by lia.
    rewrite !Z.pow_succ_r by lia. lia.
  - simpl. lia.
Qed.

Lemma Zdigits2_bounds (M : Z) :
  0 < M -> 2 ^ (Zdigits2 M - 1) <= M < 2 ^ Zdigits2 M.
Proof.
  destruct M as [|m|m]; try lia. intros _. apply digits2_pos_bounds.
Qed.

Lemma Zdigits2_pos (M : Z) : 0 < M -> 0 < Zdigits2 M.
Proof. destruct M as [|m|m]; simpl; lia. Qed.

Lemma Zdigits2_unique (M k : Z) :
  2 ^ (k - 1) <= M < 2 ^ k -> 0 < k -> Zdigits2 M = k.
Proof.
  intros [Hlo Hhi] Hk.
  assert (0 < M) as HM by (pose proof (Z.pow_pos_nonneg 2 (k - 1)); lia).
  destruct (Zdigits2_bounds M HM) as [Hlo' Hhi'].
  pose proof (Zdigits2_pos M HM) as Hd.
  destruct (Z.lt_trichotomy (Zdigits2 M) k) as [Hlt|[Heq|Hgt]]; [|exact Heq|].
  - assert (2 ^ Zdigits2 M <= 2 ^ (k - 1)) by (apply Z.pow_le_mono_r; lia). lia.
  - assert (2 ^ k <= 2 ^ (Zdigits2 M - 1)) by (apply Z.pow_le_mono_r; lia). lia.
Qed.

Lemma Zdigits2_mul_pow2 (M j : Z) :
  0 < M -> 0 <= j -> Zdigits2 (M * 2 ^ j) = Zdigits2 M + j.
Proof.
  intros HM Hj. destruct (Zdigits2_bounds M HM) as [Hlo Hhi].
  pose proof (Zdigits2_pos M HM) as Hd.
  assert (0 < 2 ^ j) as Hp by (apply Z.pow_pos_nonneg; lia).
  apply Zdigits2_unique; [|lia]. split.
  - replace (Zdigits2 M + j - 1) with (Zdigits2 M - 1 + j) by lia.
    rewrite Z.pow_add_r by lia. nia.
  - rewrite Z.pow_add_r by lia. nia.
Qed.

Lemma Zdigits2_le (M1 M2 : Z) :
  0 < M1 -> M1 <= M2 -> Zdigits2 M1 <= Zdigits2 M2.
Proof.
  intros H1 H12.
  destruct (Zdigits2_bounds M1 H1) as [Hlo1 _].
  destruct (Zdigits2_bounds M2 ltac:(lia)) as [_ Hhi2].
  destruct (Z.le_gt_cases (Zdigits2 M1) (Zdigits2 M2)) as [H|H]; [exact H|].
  assert (2 ^ Zdigits2 M2 <= 2 ^ (Zdigits2 M1 - 1)).
  { apply Z.pow_le_mono_r; [lia|]. lia. }
  lia.
Qed.

Lemma shifted_0 (M : Z) : shifted M 0 (Build_shr_record M false false).
Proof.
  unfold shifted. simpl. rewrite Z.div_1_r, Z.mod_1_r. split; reflexivity.
Qed.

(** The location of a remainder that gains the bit [b] above its [k] bits. *)
Lemma locZ_next_bit (R N : Z) (b : bool) :
  0 <= R < N ->
  loc_of_shr_record (Build_shr_record 0 b (negb (R =? 0)))
  = locZ (R + N * (if b then 1 else 0)) (2 * N).
Proof.
  intros HR. unfold locZ.
  destruct b, (Z.eqb_spec R 0) as [E|E]; simpl;
    repeat match goal with
           | |- context [?a =? 0] => destruct (Z.eqb_spec a 0)
           | |- context [?a ?= ?c] => destruct (Z.compare_spec a c)
           end; try reflexivity; lia.
Qed.

Lemma shr_1_shifted (M k : Z) (st : shr_record) :
  0 <= M -> 0 <= k -> shifted M k st -> shifted M (k + 1) (shr_1 st).
Proof.
  intros HM Hk [Hm Hloc].
  assert (0 < 2 ^ k) as Hp by (apply Z.pow_pos_nonneg; lia).
  assert (M mod 2 ^ (k + 1) = M mod 2 ^ k + 2 ^ k * ((M / 2 ^ k) mod 2)) as Hrem.
  { rewrite Z.pow_add_r by lia. rewrite Z.rem_mul_r by lia. reflexivity. }
  assert (M / 2 ^ (k + 1) = (M / 2 ^ k) / 2) as Hquo.
  { rewrite Z.pow_add_r by lia. rewrite Z.div_div by lia. reflexivity. }
  pose proof (Z.mod_pos_bound M (2 ^ k) Hp) as HR.
  assert (0 <= M / 2 ^ k) as Hq by (apply Z.div_pos; lia).
  assert (2 ^ (k + 1) = 2 * 2 ^ k) as Hpow
      by (rewrite Z.pow_add_r by lia; change (2 ^ 1) with 2; lia).
  destruct st as [m r s]. simpl in Hm, Hloc. subst m.
  unfold shifted. rewrite Hquo, Hrem, Hpow.
  set (q := M / 2 ^ k) in *. set (R := M mod 2 ^ k) in *.
  assert ((r || s) = negb (R =? 0)) as Hrs.
  { unfold locZ in Hloc. destruct (R =? 0), r, s; simpl in *;
      try reflexivity; discriminate. }
  unfold shr_1. rewrite Hrs.
  destruct q as [|[q'|q'|]|q'] eqn:Eqq; try lia; simpl shr_m.
  - (* the mantissa is 0 *)
    split; [reflexivity|]. exact (locZ_next_bit R (2 ^ k) false HR).
  - (* it is odd, 2 q' + 1 *)
    change (Zpos q'~1) with (2 * Zpos q' + 1).
    replace ((2 * Zpos q' + 1) / 2) with (Zpos q')
      by (apply Z.div_unique with 1; lia).
    replace ((2 * Zpos q' + 1) mod 2) with 1
      by (apply Z.mod_unique with (Zpos q'); lia).
    split; [reflexivity|]. exact (locZ_next_bit R (2 ^ k) true HR).
  - (* it is even, 2 q' *)
    change (Zpos q'~0) with (2 * Zpos q').
    replace (2 * Zpos q' / 2) with (Zpos q')
      by (apply Z.div_unique with 0; lia).
    replace ((2 * Zpos q') mod 2) with 0
      by (apply Z.mod_unique with (Zpos q'); lia).
    split; [reflexivity|]. exact (locZ_next_bit R (2 ^ k) false HR).
  - (* it is 1 *)
    split; [reflexivity|]. exact (locZ_next_bit R (2 ^ k) true HR).
Qed.

Lemma iter_pos_shifted (M : Z) (p : positive) :
  0 <= M ->
  forall k st, 0 <= k -> shifted M k st ->
               shifted M (k + Zpos p) (SpecFloat.iter_pos shr_1 p st).
Proof.
  intros HM. induction p as [p IH|p IH|]; intros k st Hk Hst; simpl.
  - replace (k + Zpos p~1) with (k + 1 + Zpos p + Zpos p) by lia.
    apply IH; [lia|]. apply IH; [lia|]. apply shr_1_shifted; assumption.
  - replace (k + Zpos p~0) with (k + Zpos p + Zpos p) by lia.
    apply IH; [lia|]. apply IH; assumption.
  - apply shr_1_shifted; assumption.
Qed.

Lemma fexp32 (e : Z) : fexp Float32.prec Float32.emax e = Z.max (e - 24) (-149).
Proof. reflexivity. Qed.

Lemma shr_m_shr_1 (st : shr_record) :
  0 <= shr_m st -> shr_m (shr_1 st) = shr_m st / 2.
Proof.
  destruct st as [m r s]. simpl. intros Hm.
  destruct m as [|[q|q|]|q]; try lia; simpl shr_m.
  - reflexivity.
  - change (Zpos q~1) with (2 * Zpos q + 1). apply Z.div_unique with 1; lia.
  - change (Zpos q~0) with (2 * Zpos q). apply Z.div_unique with 0; lia.
  - reflexivity.
Qed.

Lemma shr_m_iter_pos (p : positive) :
  forall st, 0 <= shr_m st ->
             shr_m (SpecFloat.iter_pos shr_1 p st) = shr_m st / 2 ^ Zpos p.
Proof.
  assert (forall st, 0 <= shr_m st -> 0 <= shr_m (shr_1 st)) as Hnn.
  { intros st H. rewrite shr_m_shr_1 by exact H. apply Z.div_pos; lia. }
  induction p as [p IH|p IH|]; intros st Hst; simpl.
  - assert (0 <= shr_m (shr_1 st)) as H1 by (apply Hnn; exact Hst).
    assert (0 <= shr_m (SpecFloat.iter_pos shr_1 p (shr_1 st))) as H2.
    { rewrite IH by exact H1. apply Z.div_pos; [exact H1|].
      apply Z.pow_pos_nonneg; lia. }
    rewrite IH by exact H2. rewrite IH by exact H1. rewrite shr_m_shr_1 by exact Hst.
    rewrite !Z.div_div by (try apply Z.pow_pos_nonneg; lia).
    f_equal. replace (Zpos p~1) with (1 + (Zpos p + Zpos p)) by lia.
    rewrite !Z.pow_add_r by lia. change (2 ^ 1) with 2. lia.
  - assert (0 <= shr_m (SpecFloat.iter_pos shr_1 p st)) as H2.
    { rewrite IH by exact Hst. apply Z.div_pos; [exact Hst|].
      apply Z.pow_pos_nonneg; lia. }
    rewrite IH by exact H2. rewrite IH by exact Hst.
    rewrite !Z.div_div by (try apply Z.pow_pos_nonneg; lia).
    f_equal. replace (Zpos p~0) with (Zpos p + Zpos p) by lia.
    rewrite !Z.pow_add_r by lia. lia.
  - rewrite shr_m_shr_1 by exact Hst. reflexivity.
Qed.

(** The first shift of a rounding, whatever the location: the mantissa it
    leaves. *)
Lemma shr_fexp_mantissa (m e : Z) (l : location) :
  0 <= m ->
  exists st,
    shr_fexp Float32.prec Float32.emax m e l = (st, e + shift_of m e)
    /\ shr_m st = m / 2 ^ shift_of m e.
Proof.
  intros Hm. unfold shr_fexp, shift_of, shr.
  assert (shr_m (shr_record_of_loc m l) = m) as Hrec
      by (destruct l as [|[| |]]; reflexivity).
  destruct (fexp Float32.prec Float32.emax (Zdigits2 m + e) - e) as [|p|p] eqn:En.
  - eexists. split; [rewrite Z.add_0_r; reflexivity|].
    rewrite Hrec. simpl. rewrite Z.div_1_r. reflexivity.
  - eexists. split; [rewrite Z.max_r by lia; reflexivity|].
    rewrite Z.max_r by lia. rewrite shr_m_iter_pos by (rewrite Hrec; exact Hm).
    rewrite Hrec. reflexivity.
  - eexists. split; [rewrite Z.max_l by lia; rewrite Z.add_0_r; reflexivity|].
    rewrite Z.max_l by lia. rewrite Hrec. simpl. rewrite Z.div_1_r. reflexivity.
Qed.

(** The first shift of a rounding of an exact input: mantissa and location. *)
Lemma shr_fexp_exact (m e : Z) :
  0 <= m ->
  exists st,
    shr_fexp Float32.prec Float32.emax m e loc_Exact = (st, e + shift_of m e)
    /\ shifted m (shift_of m e) st.
Proof.
  intros Hm. unfold shr_fexp, shift_of, shr. simpl shr_record_of_loc.
  destruct (fexp Float32.prec Float32.emax (Zdigits2 m + e) - e) as [|p|p] eqn:En.
  - eexists. split; [rewrite Z.add_0_r; reflexivity|]. apply shifted_0.
  - eexists. split; [rewrite Z.max_r by lia; reflexivity|].
    rewrite Z.max_r by lia.
    apply (iter_pos_shifted m p Hm 0 _ ltac:(lia) (shifted_0 m)).
  - eexists. split; [rewrite Z.max_l by lia; rewrite Z.add_0_r; reflexivity|].
    rewrite Z.max_l by lia. apply shifted_0.
Qed.

Lemma round_nearest_even_cases (m : Z) (l : location) :
  round_nearest_even m l = m \/ round_nearest_even m l = m + 1.
Proof.
  destruct l as [|[| |]]; simpl; auto. destruct (Z.even m); auto.
Qed.

Lemma binary_round_aux_renormalize (s : bool) (m e : Z) (l : location) :
  0 <= m ->
  exists st,
    shr_fexp Float32.prec Float32.emax m e l = (st, e + shift_of m e)
    /\ shr_m st = m / 2 ^ shift_of m e
    /\ binary_round_aux Float32.prec Float32.emax s m e l
       = renormalize s (round_nearest_even (shr_m st) (loc_of_shr_record st))
                     (e + shift_of m e).
Proof.
  intros Hm. destruct (shr_fexp_mantissa m e l Hm) as (st & Hst & Hq).
  exists st. split; [exact Hst|]. split; [exact Hq|].
  unfold binary_round_aux. rewrite Hst.
  set (m1 := round_nearest_even (shr_m st) (loc_of_shr_record st)).
  assert (0 <= m1) as Hm1.
  { assert (0 <= shr_m st).
    { rewrite Hq. apply Z.div_pos; [exact Hm|]. apply Z.pow_pos_nonneg.
      - lia.
      - unfold shift_of. lia. }
    unfold m1.
    destruct (round_nearest_even_cases (shr_m st) (loc_of_shr_record st)); lia. }
  destruct (shr_fexp_mantissa m1 (e + shift_of m e) loc_Exact Hm1) as (st2 & Hst2 & Hq2).
  rewrite Hst2. unfold renormalize, assemble. rewrite Hq2. reflexivity.
Qed.

(** The rounding of an exact input. *)
Lemma binary_round_aux_exact (s : bool) (m e : Z) :
  0 <= m ->
  binary_round_aux Float32.prec Float32.emax s m e loc_Exact
  = renormalize s (round_int m (shift_of m e)) (e + shift_of m e).
Proof.
  intros Hm.
  destruct (binary_round_aux_renormalize s m e loc_Exact Hm) as (st & Hst & Hq & ->).
  destruct (shr_fexp_exact m e Hm) as (st' & Hst' & Hm' & Hl').
  rewrite Hst in Hst'. injection Hst' as <-.
  unfold round_int. rewrite Hm', Hl'. reflexivity.
Qed.

Lemma round_int_0_r (M : Z) : round_int M 0 = M.
Proof.
  unfold round_int. change (2 ^ 0) with 1.
  rewrite Z.div_1_r, Z.mod_1_r. reflexivity.
Qed.

Lemma round_int_cases (M n : Z) :
  round_int M n = M / 2 ^ n \/ round_int M n = M / 2 ^ n + 1.
Proof. apply round_nearest_even_cases. Qed.

Lemma round_int_exact (M n q : Z) :
  0 <= n -> M = q * 2 ^ n -> round_int M n = q.
Proof.
  intros Hn ->. unfold round_int.
  assert (0 < 2 ^ n) by (apply Z.pow_pos_nonneg; lia).
  rewrite Z.div_mul, Z.mod_mul by lia. reflexivity.
Qed.

Lemma rne_loc_mono (q R1 R2 N : Z) :
  0 <= R1 <= R2 ->
  round_nearest_even q (locZ R1 N) <= round_nearest_even q (locZ R2 N).
Proof.
  intros H. unfold locZ.
  destruct (Z.eqb_spec R1 0), (Z.eqb_spec R2 0);
    destruct (Z.compare_spec (2 * R1) N), (Z.compare_spec (2 * R2) N);
    simpl; destruct (Z.even q); lia.
Qed.

Lemma round_int_mono (M1 M2 n : Z) :
  0 <= n -> 0 <= M1 <= M2 -> round_int M1 n <= round_int M2 n.
Proof.
  intros Hn HM.
  assert (0 < 2 ^ n) as Hp by (apply Z.pow_pos_nonneg; lia).
  pose proof (Z.div_mod M1 (2 ^ n) ltac:(lia)) as E1.
  pose proof (Z.div_mod M2 (2 ^ n) ltac:(lia)) as E2.
  pose proof (Z.mod_pos_bound M1 (2 ^ n) Hp) as B1.
  pose proof (Z.mod_pos_bound M2 (2 ^ n) Hp) as B2.
  assert (M1 / 2 ^ n <= M2 / 2 ^ n) as Hq by (apply Z.div_le_mono; lia).
  destruct (Z.eq_dec (M1 / 2 ^ n) (M2 / 2 ^ n)) as [Heq|Hne].
  - unfold round_int. rewrite Heq. apply rne_loc_mono.
    rewrite Heq in E1. lia.
  - destruct (round_int_cases M1 n), (round_int_cases M2 n); lia.
Qed.

Lemma round_int_scale (M n j : Z) :
  0 <= n -> 0 <= j -> round_int (M * 2 ^ j) (n + j) = round_int M n.
Proof.
  intros Hn Hj. unfold round_int.
  assert (0 < 2 ^ n) as Hpn by (apply Z.pow_pos_nonneg; lia).
  assert (0 < 2 ^ j) as Hpj by (apply Z.pow_pos_nonneg; lia).
  rewrite Z.pow_add_r by lia.
  rewrite Z.div_mul_cancel_r by lia.
  rewrite Z.mul_mod_distr_r by lia.
  f_equal. unfold locZ.
  pose proof (Z.mod_pos_bound M (2 ^ n) Hpn) as B.
  destruct (Z.eqb_spec (M mod 2 ^ n) 0) as [E|E].
  - rewrite E. reflexivity.
  - replace (M mod 2 ^ n * 2 ^ j =? 0) with false by (symmetry; apply Z.eqb_neq; nia).
    f_equal.
    replace (2 * (M mod 2 ^ n * 2 ^ j)) with (2 * (M mod 2 ^ n) * 2 ^ j) by lia.
    symmetry. apply Zmult_compare_compat_r. lia.
Qed.

Lemma drop_bits_nonneg (V : Z) : 0 <= drop_bits V.
Proof. unfold drop_bits. lia. Qed.

(** A mantissa that needs rounding keeps exactly 24 bits, or carries into
    the 25th. *)
Lemma round_int_normal (V : Z) :
  0 <= V -> 0 < drop_bits V ->
  2 ^ 23 <= round_int V (drop_bits V) <= 2 ^ 24.
Proof.
  intros HV0 Hn. unfold drop_bits in *.
  assert (0 < V) as HV.
  { destruct (Z.eq_dec V 0) as [->|]; [simpl in Hn; lia | lia]. }
  destruct (Zdigits2_bounds V HV) as [Hlo Hhi].
  set (n := Zdigits2 V - 24) in *.
  rewrite Z.max_r in * by lia.
  assert (0 < 2 ^ n) as Hp by (apply Z.pow_pos_nonneg; lia).
  replace (Zdigits2 V - 1) with (23 + n) in Hlo by lia.
  replace (Zdigits2 V) with (24 + n) in Hhi by lia.
  rewrite Z.pow_add_r in Hlo, Hhi by lia.
  assert (2 ^ 23 <= V / 2 ^ n) by (apply Z.div_le_lower_bound; lia).
  assert (V / 2 ^ n < 2 ^ 24) by (apply Z.div_lt_upper_bound; lia).
  destruct (round_int_cases V n); lia.
Qed.

Lemma rnd_small (V : Z) : drop_bits V = 0 -> rnd V = V.
Proof. intros H. unfold rnd. rewrite H, round_int_0_r. simpl. lia. Qed.

Lemma rnd_bounds (V : Z) :
  0 < V -> 2 ^ (Zdigits2 V - 1) <= rnd V <= 2 ^ Zdigits2 V.
Proof.
  intros HV. destruct (Zdigits2_bounds V HV) as [Hlo Hhi].
  destruct (Z.eq_dec (drop_bits V) 0) as [E|E].
  - rewrite (rnd_small V E). lia.
  - pose proof (drop_bits_nonneg V).
    pose proof (round_int_normal V ltac:(lia) ltac:(lia)) as Hr.
    unfold rnd. unfold drop_bits in *.
    set (n := Zdigits2 V - 24) in *.
    rewrite Z.max_r in * by lia.
    assert (0 < 2 ^ n) as Hp by (apply Z.pow_pos_nonneg; lia).
    replace (Zdigits2 V - 1) with (23 + n) by lia.
    replace (Zdigits2 V) with (24 + n) by lia.
    rewrite !Z.pow_add_r by lia. nia.
Qed.

Lemma rnd_0 : rnd 0 = 0.
Proof. reflexivity. Qed.

Lemma rnd_nonneg (V : Z) : 0 <= V -> 0 <= rnd V.
Proof.
  intros HV. destruct (Z.eq_dec V 0) as [->|Hne]; [rewrite rnd_0; lia|].
  pose proof (rnd_bounds V ltac:(lia)) as [H _].
  pose proof (Z.pow_nonneg 2 (Zdigits2 V - 1)). lia.
Qed.

(** Rounding is monotone. *)
Lemma rnd_mono (V1 V2 : Z) : 0 <= V1 <= V2 -> rnd V1 <= rnd V2.
Proof.
  intros [H1 H12].
  destruct (Z.eq_dec V1 0) as [->|Hne]; [rewrite rnd_0; apply rnd_nonneg; lia|].
  pose proof (Zdigits2_le V1 V2 ltac:(lia) H12) as Hd.
  destruct (Z.eq_dec (drop_bits V1) (drop_bits V2)) as [Heq|Hneq].
  - unfold rnd. rewrite Heq.
    apply Z.mul_le_mono_nonneg_r; [apply Z.pow_nonneg; lia|].
    apply round_int_mono; [apply drop_bits_nonneg | lia].
  - assert (Zdigits2 V1 < Zdigits2 V2) as Hlt
        by (unfold drop_bits in Hneq; lia).
    pose proof (rnd_bounds V1 ltac:(lia)) as [_ Hhi].
    pose proof (rnd_bounds V2 ltac:(lia)) as [Hlo _].
    assert (2 ^ Zdigits2 V1 <= 2 ^ (Zdigits2 V2 - 1))
      by (apply Z.pow_le_mono_r; lia).
    lia.
Qed.

(** A value that has at most 24 significant bits above its dropped ones is
    its own rounding. *)
Lemma rnd_exact (V q : Z) :
  0 < V -> V = q * 2 ^ drop_bits V -> rnd V = V.
Proof.
  intros HV Hq. unfold rnd.
  rewrite (round_int_exact V (drop_bits V) q (drop_bits_nonneg V) Hq).
  symmetry. exact Hq.
Qed.

Lemma Pos_iter_xO (m d : positive) :
  Zpos (Pos.iter xO m d) = Zpos m * 2 ^ Zpos d.
Proof.
  induction d as [|d IH] using Pos.peano_ind.
  - simpl. lia.
  - rewrite Pos.iter_succ, Pos2Z.inj_succ, Z.pow_succ_r by lia.
    change (Zpos (Pos.iter xO m d)~0) with (2 * Zpos (Pos.iter xO m d)).
    rewrite IH. lia.
Qed.

Lemma drop_bits_units (m : positive) (e : Z) :
  -149 <= e ->
  drop_bits (Zpos m * 2 ^ (e + 149))
  = fexp Float32.prec Float32.emax (Zpos (digits2_pos m) + e) + 149.
Proof.
  intros He. unfold drop_bits.
  rewrite Zdigits2_mul_pow2 by lia. rewrite fexp32. simpl Zdigits2. lia.
Qed.

(** [binary_round] rounds the value it is given, counted in units of
    [2 ^ -149]. *)
Lemma binary_round_units (s : bool) (m : positive) (e : Z) :
  -149 <= e ->
  binary_round Float32.prec Float32.emax s m e
  = float_of_units s (Zpos m * 2 ^ (e + 149)).
Proof.
  intros He. unfold binary_round, shl_align, float_of_units.
  rewrite (drop_bits_units m e He).
  set (e' := fexp Float32.prec Float32.emax (Zpos (digits2_pos m) + e)).
  assert (-149 <= e') as He' by (unfold e'; rewrite fexp32; lia).
  destruct (e' - e) as [|d|d] eqn:Ed.
  - rewrite binary_round_aux_exact by lia.
    assert (shift_of (Zpos m) e = 0) as ->
        by (unfold shift_of; fold e'; simpl Zdigits2; lia).
    replace (e' + 149) with (0 + (e + 149)) by lia.
    rewrite round_int_scale by lia.
    f_equal. lia.
  - rewrite binary_round_aux_exact by lia.
    assert (shift_of (Zpos m) e = Zpos d) as ->
        by (unfold shift_of; simpl Zdigits2; fold e'; lia).
    replace (e' + 149) with (Zpos d + (e + 149)) by lia.
    rewrite round_int_scale by lia.
    f_equal. lia.
  - rewrite binary_round_aux_exact by lia.
    rewrite Pos_iter_xO.
    assert (shift_of (Zpos m * 2 ^ Zpos d) e' = 0) as ->.
    { unfold shift_of. rewrite Zdigits2_mul_pow2 by lia. simpl Zdigits2.
      replace (Zpos (digits2_pos m) + Zpos d + e') with (Zpos (digits2_pos m) + e) by lia.
      fold e'. lia. }
    rewrite round_int_0_r.
    rewrite (round_int_exact (Zpos m * 2 ^ (e + 149)) (e' + 149) (Zpos m * 2 ^ Zpos d));
      [f_equal; lia | lia |].
    rewrite <- Z.mul_assoc, <- Z.pow_add_r by lia. do 2 f_equal. lia.
Qed.

Lemma shift_of_small (V : Z) :
  0 < V -> Zdigits2 V <= 24 -> shift_of V (-149) = 0.
Proof. intros HV Hd. unfold shift_of. rewrite fexp32. lia. Qed.

Lemma shift_of_normal (m1 e1 : Z) :
  -149 <= e1 -> 24 <= Zdigits2 m1 -> shift_of m1 e1 = Zdigits2 m1 - 24.
Proof. intros He Hd. unfold shift_of. rewrite fexp32. lia. Qed.

Lemma valid_normal (s : bool) (p : positive) (e : Z) :
  Zdigits2 (Zpos p) = 24 -> -149 <= e <= 104 ->
  Float32.valid (S754_finite s p e) = true.
Proof.
  intros Hd He. unfold Float32.valid, valid_binary, bounded, canonical_mantissa.
  simpl in Hd. rewrite Hd, fexp32.
  apply andb_true_intro. split.
  - apply Z.eqb_eq. lia.
  - apply Z.leb_le. unfold Float32.emax, Float32.prec. lia.
Qed.

Lemma valid_subnormal (s : bool) (p : positive) :
  Zdigits2 (Zpos p) <= 24 ->
  Float32.valid (S754_finite s p (-149)) = true.
Proof.
  intros Hd. unfold Float32.valid, valid_binary, bounded, canonical_mantissa.
  simpl in Hd. rewrite fexp32.
  apply andb_true_intro. split.
  - apply Z.eqb_eq. lia.
  - reflexivity.
Qed.

(** What [float_of_units] is: a valid float of the given sign that stands
    for the rounding of [V], or the infinity when that is out of range. *)
Lemma float_of_units_spec (s : bool) (V : Z) :
  0 < V ->
  match float_of_units s V with
  | S754_finite s' m e =>
      s' = s /\ Float32.valid (S754_finite s' m e) = true
      /\ Zpos m * 2 ^ (e + 149) = rnd V /\ rnd V < 2 ^ 277
  | S754_infinity s' => s' = s /\ 2 ^ 277 <= rnd V
  | _ => False
  end.
Proof.
  intros HV. unfold float_of_units, renormalize.
  destruct (Zdigits2_bounds V HV) as [Hlo Hhi].
  pose proof (Zdigits2_pos V HV) as Hd.
  destruct (Z.eq_dec (drop_bits V) 0) as [E|E].
  - (* at most 24 bits: nothing is dropped *)
    assert (Zdigits2 V <= 24) as Hd24 by (unfold drop_bits in E; lia).
    rewrite E, round_int_0_r. change (0 - 149) with (-149).
    rewrite (shift_of_small V HV Hd24). change (2 ^ 0) with 1.
    rewrite Z.div_1_r. unfold assemble.
    destruct V as [|p|p]; try lia. simpl Z.leb. cbv iota.
    split; [reflexivity|]. split; [apply valid_subnormal; exact Hd24|].
    rewrite (rnd_small _ E). change (-149 + 0 + 149) with 0. 
    split; [lia|].
    assert (2 ^ Zdigits2 (Zpos p) <= 2 ^ 24) by (apply Z.pow_le_mono_r; lia).
    assert (2 ^ 24 < 2 ^ 277) by (apply Z.pow_lt_mono_r; lia).
    lia.
  - pose proof (drop_bits_nonneg V) as Hn.
    pose proof (round_int_normal V ltac:(lia) ltac:(lia)) as Hr.
    unfold rnd.
    set (n := drop_bits V) in *. set (m1 := round_int V n) in *.
    assert (0 < 2 ^ n) as Hpn by (apply Z.pow_pos_nonneg; lia).
    destruct (Z.eq_dec m1 (2 ^ 24)) as [Em|Em].
    + (* the carry into the 25th bit *)
      assert (Zdigits2 m1 = 25) as Hd1.
      { apply Zdigits2_unique; [|lia]. rewrite Em. split.
        - apply Z.pow_le_mono_r; lia.
        - apply Z.pow_lt_mono_r; lia. }
      rewrite (shift_of_normal m1 (n - 149)) by lia.
      rewrite Hd1. change (25 - 24) with 1. rewrite Em.
      change (2 ^ 24 / 2 ^ 1) with 8388608. unfold assemble.
      destruct (Z.leb_spec (n - 149 + 1) 104) as [Hle|Hgt].
      * split; [reflexivity|]. split; [apply valid_normal; [reflexivity | lia]|].
        replace (n - 149 + 1 + 149) with (1 + n) by lia.
        rewrite Z.pow_add_r by lia.
        split; [change (2 ^ 24) with 16777216; lia|].
        replace 277 with (24 + 253) by lia. rewrite (Z.pow_add_r 2 24 253) by lia.
        assert (2 ^ n <= 2 ^ 252) by (apply Z.pow_le_mono_r; lia).
        assert (2 ^ 252 < 2 ^ 253) by (apply Z.pow_lt_mono_r; lia).
        assert (0 < 2 ^ 24) by lia.
        nia.
      * split; [reflexivity|].
        replace 277 with (24 + 253) by lia. rewrite (Z.pow_add_r 2 24 253) by lia.
        assert (2 ^ 253 <= 2 ^ n) by (apply Z.pow_le_mono_r; lia).
        assert (0 < 2 ^ 24) by lia.
        nia.
    + assert (Zdigits2 m1 = 24) as Hd1.
      { apply Zdigits2_unique; [|lia]. change (24 - 1) with 23. lia. }
      rewrite (shift_of_normal m1 (n - 149)) by lia.
      rewrite Hd1. change (24 - 24) with 0. change (2 ^ 0) with 1.
      rewrite Z.div_1_r, Z.add_0_r. unfold assemble.
      destruct m1 as [|p1|p1] eqn:Ep; try lia.
      destruct (Z.leb_spec (n - 149) 104) as [Hle|Hgt].
      * split; [reflexivity|]. split; [apply valid_normal; [exact Hd1 | lia]|].
        replace (n - 149 + 149) with n by lia.
        split; [reflexivity|].
        replace 277 with (24 + 253) by lia. rewrite (Z.pow_add_r 2 24 253) by lia.
        assert (2 ^ n <= 2 ^ 253) by (apply Z.pow_le_mono_r; lia).
        assert (0 < 2 ^ 24) by lia.
        nia.
      * split; [reflexivity|].
        replace 277 with (23 + 254) by lia. rewrite (Z.pow_add_r 2 23 254) by lia.
        assert (2 ^ 254 <= 2 ^ n) by (apply Z.pow_le_mono_r; lia).
        assert (0 < 2 ^ 23) by lia.
        nia.
Qed.

(** ** The order of valid floats *)

Lemma valid_finite_inv (s : bool) (m : positive) (e : Z) :
  Float32.valid (S754_finite s m e) = true ->
  -149 <= e <= 104
  /\ Zpos m < 2 ^ 24
  /\ (-149 < e -> 2 ^ 23 <= Zpos m).
Proof.
  unfold Float32.valid, valid_binary, bounded, canonical_mantissa.
  rewrite fexp32. intros H. apply andb_prop in H. destruct H as [Hc Hb].
  apply Z.eqb_eq in Hc. apply Z.leb_le in Hb.
  unfold Float32.emax, Float32.prec in Hb.
  destruct (digits2_pos_bounds m) as [Hlo Hhi].
  split; [lia|]. split.
  - assert (2 ^ Zpos (digits2_pos m) <= 2 ^ 24) by (apply Z.pow_le_mono_r; lia).
    lia.
  - intros He. assert (Zpos (digits2_pos m) = 24) as Hd by lia.
    rewrite Hd in Hlo. exact Hlo.
Qed.

Lemma valid_units_pos (s : bool) (m : positive) (e : Z) :
  Float32.valid (S754_finite s m e) = true ->
  0 < Zpos m * 2 ^ (e + 149) < 2 ^ 277.
Proof.
  intros Hv. destruct (valid_finite_inv s m e Hv) as (He & Hm & _).
  assert (0 < 2 ^ (e + 149)) by (apply Z.pow_pos_nonneg; lia).
  assert (2 ^ (e + 149) <= 2 ^ 253) by (apply Z.pow_le_mono_r; lia).
  replace 277 with (24 + 253) by lia. rewrite (Z.pow_add_r 2 24 253) by lia.
  nia.
Qed.

Lemma valid_units_lt (s1 s2 : bool) (m1 m2 : positive) (e1 e2 : Z) :
  Float32.valid (S754_finite s1 m1 e1) = true ->
  Float32.valid (S754_finite s2 m2 e2) = true ->
  e1 < e2 ->
  Zpos m1 * 2 ^ (e1 + 149) < Zpos m2 * 2 ^ (e2 + 149).
Proof.
  intros H1 H2 He.
  destruct (valid_finite_inv s1 m1 e1 H1) as (He1 & Hm1 & _).
  destruct (valid_finite_inv s2 m2 e2 H2) as (He2 & _ & Hm2).
  specialize (Hm2 ltac:(lia)).
  assert (0 < 2 ^ (e1 + 149)) by (apply Z.pow_pos_nonneg; lia).
  assert (2 ^ (e1 + 149 + 1) <= 2 ^ (e2 + 149)) as Hp
      by (apply Z.pow_le_mono_r; lia).
  rewrite Z.pow_add_r in Hp by lia. change (2 ^ 1) with 2 in Hp.
  change (2 ^ 24) with 16777216 in Hm1. change (2 ^ 23) with 8388608 in Hm2.
  nia.
Qed.

Lemma compare_finite_units (m1 m2 : positive) (e1 e2 : Z) :
  Float32.valid (S754_finite false m1 e1) = true ->
  Float32.valid (S754_finite false m2 e2) = true ->
  match e1 ?= e2 with
  | Lt => Lt
  | Gt => Gt
  | Datatypes.Eq => Pos.compare_cont Datatypes.Eq m1 m2
  end
  = (Zpos m1 * 2 ^ (e1 + 149) ?= Zpos m2 * 2 ^ (e2 + 149)).
Proof.
  intros H1 H2. destruct (Z.compare_spec e1 e2) as [->|Hlt|Hgt].
  - destruct (valid_finite_inv _ _ _ H2) as (He & _).
    rewrite <- Zmult_compare_compat_r
      by (pose proof (Z.pow_pos_nonneg 2 (e2 + 149)); lia).
    reflexivity.
  - symmetry. apply Z.compare_lt_iff.
    exact (valid_units_lt _ _ _ _ _ _ H1 H2 Hlt).
  - symmetry. apply Z.compare_gt_iff.
    exact (valid_units_lt _ _ _ _ _ _ H2 H1 Hgt).
Qed.

(** On valid floats other than NaN, the comparison of [SpecFloat] is the
    comparison of the integers they stand for. *)
Lemma compare_units (x y : float) :
  Float32.valid x = true -> Float32.valid y = true ->
  Float32.is_nan x = false -> Float32.is_nan y = false ->
  SFcompare x y = Some (units x ?= units y).
Proof.
  intros Hx Hy Nx Ny.
  destruct x as [sx|sx| |sx mx ex], y as [sy|sy| |sy my ey];
    try discriminate; simpl SFcompare; simpl units.
  - reflexivity.
  - destruct sy; reflexivity.
  - pose proof (valid_units_pos _ _ _ Hy).
    destruct sy; simpl cond_Zopp; f_equal; symmetry;
      [apply Z.compare_gt_iff | apply Z.compare_lt_iff]; lia.
  - destruct sx; reflexivity.
  - destruct sx, sy; reflexivity.
  - pose proof (valid_units_pos _ _ _ Hy).
    destruct sx, sy; simpl cond_Zopp; f_equal; symmetry;
      try (apply Z.compare_gt_iff; lia); apply Z.compare_lt_iff; lia.
  - pose proof (valid_units_pos _ _ _ Hx).
    destruct sx; simpl cond_Zopp; f_equal; symmetry;
      [apply Z.compare_lt_iff | apply Z.compare_gt_iff]; lia.
  - pose proof (valid_units_pos _ _ _ Hx).
    destruct sx, sy; simpl cond_Zopp; f_equal; symmetry;
      try (apply Z.compare_gt_iff; lia); apply Z.compare_lt_iff; lia.
  - pose proof (valid_units_pos _ _ _ Hx). pose proof (valid_units_pos _ _ _ Hy).
    f_equal. destruct sx, sy; simpl cond_Zopp.
    + rewrite Z.compare_opp.
      assert (Float32.valid (S754_finite false mx ex) = true) as Hx' by exact Hx.
      assert (Float32.valid (S754_finite false my ey) = true) as Hy' by exact Hy.
      rewrite <- (compare_finite_units my mx ey ex Hy' Hx').
      rewrite (Z.compare_antisym ey ex).
      destruct (ey ?= ex); simpl; try reflexivity.
      rewrite (Pos.compare_cont_antisym mx my). simpl. reflexivity.
    + symmetry. apply Z.compare_lt_iff. lia.
    + symmetry. apply Z.compare_gt_iff. lia.
    + apply (compare_finite_units mx my ex ey); assumption.
Qed.

Lemma valid_units_inj (s : bool) (m1 m2 : positive) (e1 e2 : Z) :
  Float32.valid (S754_finite s m1 e1) = true ->
  Float32.valid (S754_finite s m2 e2) = true ->
  Zpos m1 * 2 ^ (e1 + 149) = Zpos m2 * 2 ^ (e2 + 149) ->
  S754_finite s m1 e1 = S754_finite s m2 e2.
Proof.
  intros H1 H2 Hu.
  destruct (Z.lt_trichotomy e1 e2) as [Hlt|[Heq|Hgt]].
  - pose proof (valid_units_lt _ _ _ _ _ _ H1 H2 Hlt). lia.
  - subst e2. destruct (valid_finite_inv _ _ _ H1) as (He & _).
    assert (0 < 2 ^ (e1 + 149)) by (apply Z.pow_pos_nonneg; lia).
    assert (Zpos m1 = Zpos m2) as Hm by nia.
    injection Hm as ->. reflexivity.
  - pose proof (valid_units_lt _ _ _ _ _ _ H2 H1 Hgt). lia.
Qed.

(** A valid float is the rounding of its own value. *)
Lemma float_of_units_valid (s : bool) (m : positive) (e : Z) :
  Float32.valid (S754_finite s m e) = true ->
  float_of_units s (Zpos m * 2 ^ (e + 149)) = S754_finite s m e.
Proof.
  intros Hv.
  destruct (valid_finite_inv s m e Hv) as (He & Hm & Hnorm).
  pose proof (valid_units_pos s m e Hv) as [Hpos Hlt].
  set (V := Zpos m * 2 ^ (e + 149)) in *.
  assert (rnd V = V) as Hexact.
  { apply (rnd_exact V (Zpos m) Hpos). unfold V.
    rewrite (drop_bits_units m e) by lia.
    unfold Float32.valid, valid_binary, bounded, canonical_mantissa in Hv.
    apply andb_prop in Hv. destruct Hv as [Hc _]. apply Z.eqb_eq in Hc.
    rewrite Hc. reflexivity. }
  pose proof (float_of_units_spec s V Hpos) as Hspec.
  destruct (float_of_units s V) as [s'|s'| |s' m' e']; try contradiction.
  - destruct Hspec as [_ Hge]. lia.
  - destruct Hspec as (-> & Hv' & Hu & _).
    apply valid_units_inj; [exact Hv' | exact Hv |]. fold V. lia.
Qed.

Lemma shl_align_mantissa (m : positive) (e ez : Z) :
  ez <= e -> Zpos (fst (shl_align m e ez)) = Zpos m * 2 ^ (e - ez).
Proof.
  intros H. unfold shl_align. destruct (ez - e) as [|d|d] eqn:E; simpl fst.
  - replace (e - ez) with 0 by lia. simpl. lia.
  - lia.
  - rewrite Pos_iter_xO. f_equal. f_equal. lia.
Qed.

Lemma units_aligned (s : bool) (m : positive) (e ez : Z) :
  -149 <= ez <= e ->
  cond_Zopp s (Zpos (fst (shl_align m e ez))) * 2 ^ (ez + 149)
  = units (S754_finite s m e).
Proof.
  intros H. rewrite shl_align_mantissa by lia. simpl units.
  replace (e + 149) with (e - ez + (ez + 149)) by lia.
  rewrite (Z.pow_add_r 2 (e - ez) (ez + 149)) by lia.
  destruct s; unfold cond_Zopp; ring.
Qed.

(** The difference of two valid finite floats whose values differ is the
    rounding of the exact difference. *)
Lemma sub_units_pos (x y : float) :
  Float32.valid x = true -> Float32.valid y = true ->
  Float32.is_finite x = true -> Float32.is_finite y = true ->
  0 < units x - units y ->
  Float32.sub x y = float_of_units false (units x - units y).
Proof.
  intros Vx Vy Fx Fy HD.
  destruct x as [sx|sx| |sx mx ex], y as [sy|sy| |sy my ey];
    simpl in Fx, Fy; try discriminate.
  - pose proof (valid_units_pos _ _ _ Vy) as Hy.
    simpl units in *. destruct sy; simpl cond_Zopp in *; [|lia].
    replace (0 - - (Zpos my * 2 ^ (ey + 149))) with (Zpos my * 2 ^ (ey + 149)) by lia.
    rewrite float_of_units_valid by exact Vy. reflexivity.
  - pose proof (valid_units_pos _ _ _ Vx) as Hx.
    simpl units in *. destruct sx; simpl cond_Zopp in *; [lia|].
    rewrite Z.sub_0_r. rewrite float_of_units_valid by exact Vx. reflexivity.
  - destruct (valid_finite_inv _ _ _ Vx) as (Hex & _).
    destruct (valid_finite_inv _ _ _ Vy) as (Hey & _).
    unfold Float32.sub, SFsub.
    set (ez := Z.min ex ey).
    pose proof (units_aligned sx mx ex ez ltac:(unfold ez; lia)) as Ux.
    pose proof (units_aligned sy my ey ez ltac:(unfold ez; lia)) as Uy.
    set (X := cond_Zopp sx (Zpos (fst (shl_align mx ex ez)))) in *.
    set (Y := cond_Zopp sy (Zpos (fst (shl_align my ey ez)))) in *.
    assert (0 < 2 ^ (ez + 149)) as Hp by (apply Z.pow_pos_nonneg; unfold ez; lia).
    assert ((X - Y) * 2 ^ (ez + 149)
            = units (S754_finite sx mx ex) - units (S754_finite sy my ey)) as HZ
        by (rewrite Z.mul_sub_distr_r; lia).
    rewrite <- HZ in *.
    destruct (X - Y) as [|p|p] eqn:EZ; try lia.
    unfold binary_normalize.
    apply binary_round_units. unfold ez. lia.
Qed.

Lemma sub_units_zero (x y : float) :
  Float32.is_finite x = true -> Float32.is_finite y = true ->
  Float32.valid x = true -> Float32.valid y = true ->
  units x - units y = 0 ->
  exists s, Float32.sub x y = S754_zero s.
Proof.
  intros Fx Fy Vx Vy HD.
  destruct x as [sx|sx| |sx mx ex], y as [sy|sy| |sy my ey];
    simpl in Fx, Fy; try discriminate.
  - unfold Float32.sub, SFsub. destruct sx, sy; eexists; reflexivity.
  - pose proof (valid_units_pos _ _ _ Vy). simpl units in HD.
    destruct sy; simpl in HD; lia.
  - pose proof (valid_units_pos _ _ _ Vx). simpl units in HD.
    destruct sx; simpl in HD; lia.
  - destruct (valid_finite_inv _ _ _ Vx) as (Hex & _).
    destruct (valid_finite_inv _ _ _ Vy) as (Hey & _).
    unfold Float32.sub, SFsub.
    set (ez := Z.min ex ey).
    pose proof (units_aligned sx mx ex ez ltac:(unfold ez; lia)) as Ux.
    pose proof (units_aligned sy my ey ez ltac:(unfold ez; lia)) as Uy.
    set (X := cond_Zopp sx (Zpos (fst (shl_align mx ex ez)))) in *.
    set (Y := cond_Zopp sy (Zpos (fst (shl_align my ey ez)))) in *.
    assert (0 < 2 ^ (ez + 149)) as Hp by (apply Z.pow_pos_nonneg; unfold ez; lia).
    assert (X - Y = 0) as -> by nia.
    exists false. reflexivity.
Qed.

(** ** A quotient of two positive floats, the smaller over the larger *)

Lemma SFdiv_core_binary_quotient (m1 m2 : positive) (e1 e2 : Z) :
  let e' := Z.min (fexp Float32.prec Float32.emax
                        (Zdigits2 (Zpos m1) + e1 - (Zdigits2 (Zpos m2) + e2)))
                  (e1 - e2) in
  exists l,
    SFdiv_core_binary Float32.prec Float32.emax (Zpos m1) e1 (Zpos m2) e2
    = (Zpos m1 * 2 ^ (e1 - e2 - e') / Zpos m2, e', l).
Proof.
  intros e'. unfold SFdiv_core_binary. fold e'.
  set (s := e1 - e2 - e').
  assert (0 <= s) as Hs by (unfold s, e'; lia).
  assert (match s with
          | Z0 => Zpos m1
          | Zpos _ => Z.shiftl (Zpos m1) s
          | Zneg _ => 0
          end = Zpos m1 * 2 ^ s) as ->.
  { destruct s as [|p|p] eqn:Es.
    - simpl. lia.
    - rewrite Z.shiftl_mul_pow2 by lia. reflexivity.
    - lia. }
  unfold Z.div.
  destruct (Z.div_eucl (Zpos m1 * 2 ^ s) (Zpos m2)) as [q r].
  eexists. reflexivity.
Qed.

Lemma leb_small_one (p : positive) (e : Z) :
  e <= -23 -> Zpos p <= 2 ^ (- e) ->
  Float32.leb (S754_finite false p e) Float32.one = true.
Proof.
  intros He Hp. unfold Float32.leb, SFleb, Float32.one, SFcompare.
  destruct (Z.compare_spec e (-23)) as [->|Hlt|Hgt]; [|reflexivity|lia].
  assert (2 ^ (- -23) = 8388608) as E by (vm_compute; reflexivity).
  rewrite E in Hp.
  rewrite Pos.compare_cont_spec. unfold Pos.switch_Eq.
  destruct (Pos.compare_spec p 8388608) as [H|H|H]; try reflexivity.
  exfalso. lia.
Qed.

(** The quotient of a positive float by a larger one is at most 1.0, and is
    not negative. *)
Lemma div_lt_le_one (ma md : positive) (ea ed : Z) :
  Float32.valid (S754_finite false ma ea) = true ->
  Float32.valid (S754_finite false md ed) = true ->
  Zpos ma * 2 ^ (ea + 149) < Zpos md * 2 ^ (ed + 149) ->
  Float32.leb Float32.zero
    (Float32.div (S754_finite false ma ea) (S754_finite false md ed)) = true
  /\ Float32.leb
       (Float32.div (S754_finite false ma ea) (S754_finite false md ed))
       Float32.one = true.
Proof.
  intros Va Vd Hlt.
  destruct (valid_finite_inv _ _ _ Va) as (Hea & _).
  destruct (valid_finite_inv _ _ _ Vd) as (Hed & _).
  destruct (digits2_pos_bounds ma) as [Hloa Hhia].
  destruct (digits2_pos_bounds md) as [Hlod Hhid].
  set (d1 := Zpos (digits2_pos ma)) in *. set (d2 := Zpos (digits2_pos md)) in *.
  assert (0 < d1) as Hd1 by (unfold d1; lia).
  assert (0 < d2) as Hd2 by (unfold d2; lia).
  (* the magnitude of the numerator is not above that of the denominator *)
  assert (d1 + ea <= d2 + ed) as Hmag.
  { destruct (Z.le_gt_cases (d1 + ea) (d2 + ed)) as [H|H]; [exact H|].
    assert (2 ^ (d2 + (ed + 149)) <= 2 ^ (d1 - 1 + (ea + 149)))
      as Hp by (apply Z.pow_le_mono_r; lia).
    rewrite (Z.pow_add_r 2 d2 (ed + 149)) in Hp by lia.
    rewrite (Z.pow_add_r 2 (d1 - 1) (ea + 149)) in Hp by lia.
    assert (0 < 2 ^ (ea + 149)) by (apply Z.pow_pos_nonneg; lia).
    assert (0 < 2 ^ (ed + 149)) by (apply Z.pow_pos_nonneg; lia).
    assert (Zpos md * 2 ^ (ed + 149) < 2 ^ d2 * 2 ^ (ed + 149))
      by (apply Z.mul_lt_mono_pos_r; lia).
    assert (2 ^ (d1 - 1) * 2 ^ (ea + 149) <= Zpos ma * 2 ^ (ea + 149))
      by (apply Z.mul_le_mono_nonneg_r; lia).
    lia. }
  unfold Float32.div, SFdiv.
  destruct (SFdiv_core_binary_quotient ma md ea ed) as (l & ->).
  simpl Zdigits2. fold d1 d2. simpl xorb.
  set (e' := Z.min (fexp Float32.prec Float32.emax (d1 + ea - (d2 + ed))) (ea - ed)).
  assert (e' <= -24) as He' by (unfold e'; rewrite fexp32; lia).
  assert (e' <= ea - ed) as He'' by (unfold e'; lia).
  set (q := Zpos ma * 2 ^ (ea - ed - e') / Zpos md).
  assert (0 <= q) as Hq0.
  { unfold q. apply Z.div_pos; [|lia].
    pose proof (Z.pow_nonneg 2 (ea - ed - e')). nia. }
  assert (q < 2 ^ (- e')) as Hq.
  { unfold q. apply Z.div_lt_upper_bound; [lia|].
    assert (0 < 2 ^ (ed + 149)) as P1 by (apply Z.pow_pos_nonneg; lia).
    assert (0 < 2 ^ (- e')) as P2 by (apply Z.pow_pos_nonneg; lia).
    assert (2 ^ (ea - ed - e') * 2 ^ (ed + 149) = 2 ^ (ea + 149) * 2 ^ (- e')) as E.
    { rewrite <- !Z.pow_add_r by lia. f_equal. lia. }
    nia. }
  destruct (binary_round_aux_renormalize false q e' l Hq0) as (st & _ & Hst & ->).
  set (n1 := shift_of q e') in *.
  set (m1 := round_nearest_even (shr_m st) (loc_of_shr_record st)).
  set (e1 := e' + n1).
  (* after the first shift *)
  assert (Zdigits2 q + e' <= 0) as Hdq.
  { destruct (Z.eq_dec q 0) as [->|Hne]; [simpl; lia|].
    destruct (Zdigits2_bounds q ltac:(lia)) as [Hlo _].
    destruct (Z.le_gt_cases (Zdigits2 q + e') 0) as [H|H]; [exact H|].
    assert (2 ^ (- e') <= 2 ^ (Zdigits2 q - 1)) by (apply Z.pow_le_mono_r; lia).
    lia. }
  assert (0 <= n1) as Hn1 by (unfold n1, shift_of; lia).
  assert (e1 <= -24) as He1.
  { unfold e1, n1, shift_of. rewrite fexp32. lia. }
  assert (0 <= m1 <= 2 ^ (- e1)) as Hm1.
  { assert (0 <= shr_m st < 2 ^ (- e1)) as Hq1.
    { rewrite Hst. split.
      - apply Z.div_pos; [exact Hq0|]. apply Z.pow_pos_nonneg; lia.
      - apply Z.div_lt_upper_bound; [apply Z.pow_pos_nonneg; lia|].
        rewrite <- Z.pow_add_r by lia.
        replace (n1 + - e1) with (- e') by (unfold e1; lia). exact Hq. }
    unfold m1.
    destruct (round_nearest_even_cases (shr_m st) (loc_of_shr_record st)); lia. }
  (* after the second shift *)
  unfold renormalize. fold e1.
  set (n2 := shift_of m1 e1). set (e2 := e1 + n2).
  assert (0 <= n2) as Hn2' by (unfold n2, shift_of; lia).
  destruct (Z.eq_dec m1 0) as [E0|Hne].
  { rewrite E0.
    rewrite Z.div_0_l by (pose proof (Z.pow_pos_nonneg 2 n2 ltac:(lia) Hn2'); lia).
    split; reflexivity. }
  assert (Zdigits2 m1 + e1 <= 1) as Hdm.
  { destruct (Zdigits2_bounds m1 ltac:(lia)) as [Hlo _].
    destruct (Z.le_gt_cases (Zdigits2 m1 + e1) 1) as [H|H]; [exact H|].
    assert (2 ^ (- e1 + 1) <= 2 ^ (Zdigits2 m1 - 1)) as Hp
        by (apply Z.pow_le_mono_r; lia).
    rewrite Z.pow_add_r in Hp by lia. change (2 ^ 1) with 2 in Hp.
    assert (0 < 2 ^ (- e1)) by (apply Z.pow_pos_nonneg; lia).
    lia. }
  assert (0 <= n2) as Hn2 by (unfold n2, shift_of; lia).
  assert (e2 <= -23) as He2.
  { unfold e2, n2, shift_of. rewrite fexp32. lia. }
  assert (0 <= m1 / 2 ^ n2 <= 2 ^ (- e2)) as Hm2.
  { split.
    - apply Z.div_pos; [lia|]. apply Z.pow_pos_nonneg; lia.
    - apply Z.div_le_upper_bound; [apply Z.pow_pos_nonneg; lia|].
      rewrite <- Z.pow_add_r by lia.
      replace (n2 + - e2) with (- e1) by (unfold e2; lia). lia. }
  unfold assemble.
  destruct (m1 / 2 ^ n2) as [|p|p] eqn:Em2; try lia.
  - split; reflexivity.
  - replace (e2 <=? 104) with true by (symmetry; apply Z.leb_le; lia).
    split; [reflexivity|]. apply leb_small_one; lia.
Qed.

(** ** The extremes of a column *)

Lemma regular_not_nan (x : float) : regular x -> Float32.is_nan x = false.
Proof. intros [_ H]. destruct x; simpl in *; try reflexivity; discriminate. Qed.

Lemma ltb_units (x y : float) :
  regular x -> regular y ->
  Float32.ltb x y = true <-> units x < units y.
Proof.
  intros Hx Hy. unfold Float32.ltb, SFltb.
  rewrite (compare_units x y) by
    (try apply Hx; try apply Hy; apply regular_not_nan; assumption).
  unfold Z.lt. destruct (units x ?= units y); split; congruence.
Qed.

Lemma eqb_units (x y : float) :
  regular x -> regular y ->
  Float32.eqb x y = true <-> units x = units y.
Proof.
  intros Hx Hy. unfold Float32.eqb, SFeqb.
  rewrite (compare_units x y) by
    (try apply Hx; try apply Hy; apply regular_not_nan; assumption).
  rewrite <- Z.compare_eq_iff.
  destruct (units x ?= units y); split; congruence.
Qed.

Lemma min_units (a b : float) :
  regular a -> regular b ->
  (Float32.min a b = a \/ Float32.min a b = b)
  /\ units (Float32.min a b) = Z.min (units a) (units b).
Proof.
  intros Ha Hb. unfold Float32.min.
  pose proof (ltb_units b a Hb Ha) as H.
  destruct (Float32.ltb b a).
  - split; [right; reflexivity|].
    assert (units b < units a) by (apply H; reflexivity). lia.
  - split; [left; reflexivity|].
    assert (~ units b < units a) by (intros C; apply H in C; discriminate). lia.
Qed.

Lemma max_units (a b : float) :
  regular a -> regular b ->
  (Float32.max a b = a \/ Float32.max a b = b)
  /\ units (Float32.max a b) = Z.max (units a) (units b).
Proof.
  intros Ha Hb. unfold Float32.max.
  pose proof (ltb_units a b Ha Hb) as H.
  destruct (Float32.ltb a b).
  - split; [right; reflexivity|].
    assert (units a < units b) by (apply H; reflexivity). lia.
  - split; [left; reflexivity|].
    assert (~ units a < units b) by (intros C; apply H in C; discriminate). lia.
Qed.

(** The running minimum is an entry of the column, below all of them. *)
Lemma fold_min_units (xs : list float) :
  forall a : float,
    regular a -> Forall regular xs ->
    fold_left Float32.min xs a ∈ a :: xs
    /\ units (fold_left Float32.min xs a) <= units a
    /\ Forall (fun x => units (fold_left Float32.min xs a) <= units x) xs.
Proof.
  induction xs as [|x xs IH]; intros a Ha Hall; simpl.
  - split; [apply list_elem_of_here|]. split; [lia | constructor].
  - inversion Hall as [|? ? Hx Hxs]; subst.
    destruct (min_units a x Ha Hx) as [Hsel Hu].
    assert (regular (Float32.min a x)) as Hr by (destruct Hsel as [->| ->]; assumption).
    destruct (IH (Float32.min a x) Hr Hxs) as (Hin & Hle & Hrest).
    split; [|split].
    + apply elem_of_cons in Hin. destruct Hin as [Hin|Hin].
      * rewrite Hin. destruct Hsel as [->| ->].
        -- apply list_elem_of_here.
        -- apply list_elem_of_further, list_elem_of_here.
      * apply list_elem_of_further, list_elem_of_further. exact Hin.
    + lia.
    + constructor; [lia | exact Hrest].
Qed.

(** The running maximum is an entry of the column, above all of them. *)
Lemma fold_max_units (xs : list float) :
  forall a : float,
    regular a -> Forall regular xs ->
    fold_left Float32.max xs a ∈ a :: xs
    /\ units a <= units (fold_left Float32.max xs a)
    /\ Forall (fun x => units x <= units (fold_left Float32.max xs a)) xs.
Proof.
  induction xs as [|x xs IH]; intros a Ha Hall; simpl.
  - split; [apply list_elem_of_here|]. split; [lia | constructor].
  - inversion Hall as [|? ? Hx Hxs]; subst.
    destruct (max_units a x Ha Hx) as [Hsel Hu].
    assert (regular (Float32.max a x)) as Hr by (destruct Hsel as [->| ->]; assumption).
    destruct (IH (Float32.max a x) Hr Hxs) as (Hin & Hle & Hrest).
    split; [|split].
    + apply elem_of_cons in Hin. destruct Hin as [Hin|Hin].
      * rewrite Hin. destruct Hsel as [->| ->].
        -- apply list_elem_of_here.
        -- apply list_elem_of_further, list_elem_of_here.
      * apply list_elem_of_further, list_elem_of_further. exact Hin.
    + lia.
    + constructor; [lia | exact Hrest].
Qed.

(** An entry between the extremes [mn < mx] of its column, the range
    [mx - mn] being finite, is sent into [[0, 1]]. *)
Lemma normalize_entry_in_unit_interval (mn mx x : float) :
  regular mn -> regular mx -> regular x ->
  units mn <= units x <= units mx ->
  units mn < units mx ->
  Float32.is_finite (Float32.sub mx mn) = true ->
  in_unit_interval (Float32.div (Float32.sub x mn) (Float32.sub mx mn)).
Proof.
  intros Hmn Hmx Hx Hbetween Hlt Hfin.
  rewrite (sub_units_pos mx mn) in * by (try apply Hmx; try apply Hmn; lia).
  pose proof (float_of_units_spec false (units mx - units mn) ltac:(lia)) as Hd.
  destruct (float_of_units false (units mx - units mn)) as [sd|sd| |sd md ed];
    try contradiction; [discriminate Hfin|].
  destruct Hd as (-> & Vd & Ud & Bd).
  destruct (Z.eq_dec (units x - units mn) 0) as [E0|Hne].
  - destruct (sub_units_zero x mn) as [s ->];
      try apply Hx; try apply Hmn; try exact E0.
    destruct s; split; reflexivity.
  - rewrite (sub_units_pos x mn) by (try apply Hx; try apply Hmn; lia).
    pose proof (float_of_units_spec false (units x - units mn) ltac:(lia)) as Ha.
    pose proof (rnd_mono (units x - units mn) (units mx - units mn) ltac:(lia)) as Hmono.
    destruct (float_of_units false (units x - units mn)) as [sa|sa| |sa ma ea];
      try contradiction.
    + destruct Ha as [_ Hge]. lia.
    + destruct Ha as (-> & Va & Ua & Ba).
      destruct (Z.eq_dec (rnd (units x - units mn)) (rnd (units mx - units mn)))
        as [Heq|Hneq].
      * rewrite (valid_units_inj false ma md ea ed Va Vd) by lia.
        rewrite Float32_div_self. split; reflexivity.
      * apply div_lt_le_one; [exact Va | exact Vd | lia].
Qed.

Lemma regular_not_negative_units (x : float) :
  regular x -> (not_negative x = true <-> 0 <= units x).
Proof.
  intros [Hv Hf]. destruct x as [s|s| |s m e]; simpl in Hf; try discriminate.
  - simpl. split; [lia | reflexivity].
  - pose proof (valid_units_pos s m e Hv). simpl.
    destruct s; simpl; split; intros; try lia; try reflexivity; discriminate.
Qed.

(** One column [x0 :: xs] of regular floats, with the extremes the loops of
    [normalizeWeights] compute for it. *)
Section Column.

Variables (x0 : float) (xs : list float).
Hypothesis Hregular : Forall regular (x0 :: xs).

Let mn : float := fold_left Float32.min xs x0.
Let mx : float := fold_left Float32.max xs x0.

(** The extremes are entries of the column, and every entry lies between
    them. *)
Lemma column_extremes :
  (mn ∈ x0 :: xs /\ regular mn)
  /\ (mx ∈ x0 :: xs /\ regular mx)
  /\ forall x, x ∈ x0 :: xs -> regular x /\ units mn <= units x <= units mx.
Proof.
  pose proof Hregular as Hall.
  inversion Hall as [|? ? H0 Hxs]; subst.
  destruct (fold_min_units xs x0 H0 Hxs) as (Hmin_in & Hmin0 & Hmin).
  destruct (fold_max_units xs x0 H0 Hxs) as (Hmax_in & Hmax0 & Hmax).
  fold mn in Hmin_in, Hmin0, Hmin. fold mx in Hmax_in, Hmax0, Hmax.
  rewrite Forall_forall in Hall, Hmin, Hmax.
  split; [split; [exact Hmin_in | apply Hall; exact Hmin_in]|].
  split; [split; [exact Hmax_in | apply Hall; exact Hmax_in]|].
  intros x Hx. split; [apply Hall; exact Hx|].
  apply elem_of_cons in Hx. destruct Hx as [->|Hx]; [lia|].
  specialize (Hmin x Hx). specialize (Hmax x Hx). lia.
Qed.

(** When the extremes differ and the range is finite: after the rescaling
    every entry is in [[0, 1]], the entries that held the minimum hold a zero
    and those that held the maximum hold 1.0. *)
Lemma normalize_column_min_max :
  Float32.neqb mx mn = true ->
  Float32.is_finite (Float32.sub mx mn) = true ->
  Forall in_unit_interval (map (normalize_entry mn mx) (x0 :: xs))
  /\ mn ∈ x0 :: xs
  /\ mx ∈ x0 :: xs
  /\ (exists s, normalize_entry mn mx mn = S754_zero s)
  /\ normalize_entry mn mx mx = Float32.one.
Proof.
  intros Hneq Hfin.
  destruct column_extremes as ((Hmin_in & Rmn) & (Hmax_in & Rmx) & Hbetween).
  assert (units mn < units mx) as Hlt.
  { assert (units mx <> units mn).
    { intros E. apply (eqb_units mx mn Rmx Rmn) in E.
      unfold Float32.neqb, Float32.eqb in *. rewrite E in Hneq. discriminate. }
    destruct (Hbetween mx Hmax_in) as [_ H']. lia. }
  (* the range is a finite float other than zero *)
  assert (exists md ed, Float32.sub mx mn = S754_finite false md ed) as (md & ed & Hd).
  { rewrite (sub_units_pos mx mn) in * by (try apply Rmx; try apply Rmn; lia).
    pose proof (float_of_units_spec false (units mx - units mn) ltac:(lia)) as Hd.
    destruct (float_of_units false (units mx - units mn)) as [sd|sd| |sd md ed];
      try contradiction; [discriminate Hfin|].
    destruct Hd as (-> & _). exists md, ed. reflexivity. }
  split; [|split; [exact Hmin_in|split; [exact Hmax_in|split]]].
  - apply Forall_forall. intros y Hy.
    apply list_elem_of_In, in_map_iff in Hy. destruct Hy as (x & <- & Hx).
    apply list_elem_of_In in Hx. destruct (Hbetween x Hx) as [Rx Hx'].
    unfold normalize_entry. rewrite Hneq.
    apply normalize_entry_in_unit_interval; assumption.
  - unfold normalize_entry. rewrite Hneq, Hd.
    destruct (sub_units_zero mn mn) as [s ->]; try apply Rmn; [lia|].
    eexists. reflexivity.
  - unfold normalize_entry. rewrite Hneq, Hd. apply Float32_div_self.
Qed.

(** When the extremes are equal and not negative, no entry is negative. *)
Lemma constant_column_not_negative :
  Float32.neqb mx mn = false -> not_negative mn = true ->
  Forall (fun x => not_negative x = true) (x0 :: xs).
Proof.
  intros Hconst Hnn.
  destruct column_extremes as ((Hmin_in & Rmn) & (Hmax_in & Rmx) & Hbetween).
  assert (units mx = units mn) as Heq.
  { apply (eqb_units mx mn Rmx Rmn).
    unfold Float32.neqb, Float32.eqb in *.
    destruct (SFeqb mx mn); [reflexivity | discriminate]. }
  apply (regular_not_negative_units mn Rmn) in Hnn.
  apply Forall_forall. intros x Hx.
  destruct (Hbetween x Hx) as [Rx Hx'].
  apply (regular_not_negative_units x Rx). lia.
Qed.

End Column.

(** A column of the rescaled matrix is the column it was, rescaled. *)
Lemma column_imap (g : nat -> float -> float) (weights : mat) (j : nat) :
  column (map (fun r : vec => imap g r) weights) j = map (g j) (column weights j).
Proof.
  unfold column. induction weights as [|r weights IH]; simpl; [reflexivity|].
  rewrite list_lookup_imap.
  destruct (r !! j) as [x|]; simpl; [f_equal|]; exact IH.
Qed.

Lemma column_normalized (weights : mat) (j : nat) (mn mx : float) :
  column_min weights j = Some mn -> column_max weights j = Some mx ->
  column (normalized weights) j = map (normalize_entry mn mx) (column weights j).
Proof.
  intros Hmn Hmx. unfold normalized. rewrite column_imap.
  rewrite Hmn, Hmx. reflexivity.
Qed.

Lemma normalize_entry_constant (mn mx : float) :
  Float32.neqb mx mn = false -> forall x, normalize_entry mn mx x = x.
Proof. intros H x. unfold normalize_entry. rewrite H. reflexivity. Qed.

Lemma MonolingualModel_normalizeWeights_normalized (m : MonolingualModel) :
  rectangular (input_weights m) -> rectangular (output_weights m) ->
  rectangular (output_weights_hs m) -> rectangular (sent_weights m) ->
  MonolingualModel_normalizeWeights m = Ret tt (normalized_model m).
Proof.
  intros H1 H2 H3 H4.
  unfold MonolingualModel_normalizeWeights, normalize_member, bind, gets,
    defined, modify, ret.
  rewrite (normalizeWeights_normalized _ H1). simpl.
  rewrite (normalizeWeights_normalized _ H2). simpl.
  rewrite (normalizeWeights_normalized _ H3). simpl.
  rewrite (normalizeWeights_normalized _ H4). simpl.
  reflexivity.
Qed.

(** C4, as the code has it: on rectangular matrices [normalizeWeights] is
    defined and rescales each of the four matrices column by column, every
    entry [x] of a column with extremes [mn] and [mx] becoming the binary32
    quotient [(x - mn) / (mx - mn)] when [mx != mn] and staying as it is
    otherwise. In a column of finite floats whose range [mx - mn] is finite
    too, the rescaled entries all lie in [[0, 1]], a zero stands where the
    minimum stood and 1.0 where the maximum stood. *)
Theorem normalizeWeights_min_max :
  forall m : MonolingualModel,
    rectangular (input_weights m) -> rectangular (output_weights m) ->
    rectangular (output_weights_hs m) -> rectangular (sent_weights m) ->
    MonolingualModel_normalizeWeights m = Ret tt (normalized_model m)
    /\ forall (w : mat) (j : nat) (mn mx : float),
        column_min w j = Some mn -> column_max w j = Some mx ->
        column (normalized w) j = map (normalize_entry mn mx) (column w j)
        /\ (Float32.neqb mx mn = false ->
            column (normalized w) j = column w j)
        /\ (Float32.neqb mx mn = true ->
            Forall regular (column w j) ->
            Float32.is_finite (Float32.sub mx mn) = true ->
            Forall in_unit_interval (column (normalized w) j)
            /\ (exists s, S754_zero s ∈ column (normalized w) j)
            /\ Float32.one ∈ column (normalized w) j).
Proof.
  intros m H1 H2 H3 H4.
  split; [apply MonolingualModel_normalizeWeights_normalized; assumption|].
  intros w j mn mx Hmn Hmx.
  pose proof (column_normalized w j mn mx Hmn Hmx) as Hcol.
  split; [exact Hcol|]. split.
  - intros Hconst. rewrite Hcol.
    rewrite <- (map_id (column w j)) at 2.
    apply map_ext. apply normalize_entry_constant. exact Hconst.
  - intros Hneq Hreg Hfin. rewrite Hcol.
    unfold column_min, column_max in Hmn, Hmx.
    destruct (column w j) as [|x0 xs]; [discriminate|].
    injection Hmn as <-. injection Hmx as <-.
    destruct (normalize_column_min_max x0 xs Hreg Hneq Hfin)
      as (Hunit & Hmin_in & Hmax_in & [s Hzero] & Hone).
    split; [exact Hunit|]. split.
    + exists s. rewrite <- Hzero.
      apply list_elem_of_In, in_map, list_elem_of_In. exact Hmin_in.
    + rewrite <- Hone.
      apply list_elem_of_In, in_map, list_elem_of_In. exact Hmax_in.
Qed.

(** ** The sign of a cosine *)

Lemma not_negative_leb (x : float) :
  not_negative x = Float32.is_nan x || Float32.leb Float32.zero x.
Proof. destruct x as [s|[|]| |[|] m e]; reflexivity. Qed.

Lemma sign_clear_not_negative (x : float) :
  sign_clear x = true -> not_negative x = true.
Proof. destruct x as [[|]|[|]| |[|] m e]; simpl; auto. Qed.

Lemma in_unit_interval_not_negative (x : float) :
  in_unit_interval x -> not_negative x = true.
Proof.
  intros [H _]. rewrite not_negative_leb, H. apply orb_true_r.
Qed.

Lemma binary_round_aux_sign_clear (m e : Z) (l : location) :
  sign_clear (binary_round_aux Float32.prec Float32.emax false m e l) = true.
Proof.
  unfold binary_round_aux.
  destruct (shr_fexp Float32.prec Float32.emax m e l) as [mrs e'].
  destruct (shr_fexp Float32.prec Float32.emax _ e' loc_Exact) as [mrs'' e''].
  destruct (shr_m mrs''); [reflexivity| |reflexivity].
  destruct (e'' <=? Float32.emax - Float32.prec); reflexivity.
Qed.

Lemma binary_round_sign_clear (m : positive) (e : Z) :
  sign_clear (binary_round Float32.prec Float32.emax false m e) = true.
Proof.
  unfold binary_round.
  destruct (shl_align m e _) as [mz ez]. apply binary_round_aux_sign_clear.
Qed.

Lemma mul_not_negative (x y : float) :
  not_negative x = true -> not_negative y = true ->
  not_negative (Float32.mul x y) = true.
Proof.
  destruct x as [sx|[|]| |[|] mx ex], y as [sy|[|]| |[|] my ey];
    simpl; intros Hx Hy; try discriminate; try reflexivity.
  apply sign_clear_not_negative. apply binary_round_aux_sign_clear.
Qed.

Lemma mul_sign_clear (x y : float) :
  sign_clear x = true -> sign_clear y = true ->
  sign_clear (Float32.mul x y) = true.
Proof.
  destruct x as [[|]|[|]| |[|] mx ex], y as [[|]|[|]| |[|] my ey];
    simpl; intros Hx Hy; try discriminate; try reflexivity.
  apply binary_round_aux_sign_clear.
Qed.

Lemma add_finite_sign_clear (mx my : positive) (ex ey : Z) :
  sign_clear (Float32.add (S754_finite false mx ex) (S754_finite false my ey)) = true.
Proof.
  unfold Float32.add, SFadd, cond_Zopp, binary_normalize.
  change (Zpos (fst (shl_align mx ex (Z.min ex ey)))
          + Zpos (fst (shl_align my ey (Z.min ex ey))))
    with (Zpos (fst (shl_align mx ex (Z.min ex ey))
                + fst (shl_align my ey (Z.min ex ey)))).
  apply binary_round_sign_clear.
Qed.

Lemma add_sign_clear (acc t : float) :
  sign_clear acc = true -> not_negative t = true ->
  sign_clear (Float32.add acc t) = true.
Proof.
  destruct acc as [[|]|[|]| |[|] mx ex], t as [[|]|[|]| |[|] my ey];
    intros Hx Hy; try discriminate; try reflexivity.
  apply add_finite_sign_clear.
Qed.

Lemma add_not_negative (x y : float) :
  not_negative x = true -> not_negative y = true ->
  not_negative (Float32.add x y) = true.
Proof.
  destruct x as [[|]|[|]| |[|] mx ex], y as [[|]|[|]| |[|] my ey];
    intros Hx Hy; try discriminate; try reflexivity.
  apply sign_clear_not_negative, add_finite_sign_clear.
Qed.

Lemma sqrt_sign_clear (x : float) :
  sign_clear x = true -> sign_clear (Float32.sqrt x) = true.
Proof.
  destruct x as [[|]|[|]| |[|] mx ex]; intros Hx;
    try discriminate; try reflexivity.
  unfold Float32.sqrt, SFsqrt.
  destruct (SFsqrt_core_binary Float32.prec Float32.emax (Zpos mx) ex) as [[mz ez] lz].
  apply binary_round_aux_sign_clear.
Qed.

Lemma div_finite_sign_clear (mx my : positive) (ex ey : Z) :
  sign_clear (Float32.div (S754_finite false mx ex) (S754_finite false my ey)) = true.
Proof.
  unfold Float32.div, SFdiv.
  destruct (SFdiv_core_binary Float32.prec Float32.emax (Zpos mx) ex (Zpos my) ey)
    as [[mz ez] lz].
  apply binary_round_aux_sign_clear.
Qed.

Lemma div_sign_clear (x y : float) :
  sign_clear x = true -> sign_clear y = true ->
  sign_clear (Float32.div x y) = true.
Proof.
  destruct x as [[|]|[|]| |[|] mx ex], y as [[|]|[|]| |[|] my ey];
    intros Hx Hy; try discriminate; try reflexivity.
  apply div_finite_sign_clear.
Qed.

Lemma div_not_negative (x y : float) :
  not_negative x = true -> sign_clear y = true ->
  not_negative (Float32.div x y) = true.
Proof.
  destruct x as [[|]|[|]| |[|] mx ex], y as [[|]|[|]| |[|] my ey];
    intros Hx Hy; try discriminate; try reflexivity.
  apply sign_clear_not_negative, div_finite_sign_clear.
Qed.

Lemma dot_from_sign_clear (v1 v2 : vec) :
  Forall (fun x => not_negative x = true) v1 ->
  Forall (fun x => not_negative x = true) v2 ->
  forall acc, sign_clear acc = true ->
    sign_clear
      (fold_left (fun a xy => Float32.add a (Float32.mul (fst xy) (snd xy)))
                 (combine v1 v2) acc) = true.
Proof.
  intros H1. revert v2. induction H1 as [|x v1 Hx H1 IH]; intros v2 H2 acc Hacc.
  - exact Hacc.
  - destruct H2 as [|y v2 Hy H2]; [exact Hacc|]. simpl.
    apply IH; [exact H2|]. apply add_sign_clear; [exact Hacc|].
    apply mul_not_negative; assumption.
Qed.

(** The cosine of two vectors without negative components is a NaN or has
    its sign bit clear. *)
Lemma cosine_sign_clear (v1 v2 : vec) :
  Forall (fun x => not_negative x = true) v1 ->
  Forall (fun x => not_negative x = true) v2 ->
  sign_clear (Float32.div (dot v1 v2) (Float32.mul (norm v1) (norm v2))) = true.
Proof.
  intros H1 H2. apply div_sign_clear.
  - apply dot_from_sign_clear; [exact H1 | exact H2 | reflexivity].
  - apply mul_sign_clear; apply sqrt_sign_clear;
      apply dot_from_sign_clear; try assumption; reflexivity.
Qed.

Lemma column_elem (w : mat) (r : vec) (j : nat) (x : float) :
  r ∈ w -> r !! j = Some x -> x ∈ column w j.
Proof.
  intros Hr Hx. unfold column. induction Hr as [r w|r r' w Hr IH]; simpl.
  - rewrite Hx. apply list_elem_of_here.
  - destruct (r' !! j); [apply list_elem_of_further|]; exact (IH Hx).
Qed.

(** After the rescaling of a normalizable matrix, no entry is negative. *)
Lemma normalized_not_negative (w : mat) :
  normalizable w ->
  forall r, r ∈ normalized w -> Forall (fun x => not_negative x = true) r.
Proof.
  intros [_ Hcols] r Hr. apply Forall_lookup. intros j x Hx.
  pose proof (column_elem _ _ _ _ Hr Hx) as Hin.
  unfold normalized in Hin. rewrite column_imap in Hin.
  apply list_elem_of_In, in_map_iff in Hin. destruct Hin as (y & Hy & Hyin).
  apply list_elem_of_In in Hyin.
  unfold column_min, column_max in Hy, Hcols.
  specialize (Hcols j).
  destruct (column w j) as [|x0 xs] eqn:Ecol; [apply elem_of_nil in Hyin; contradiction|].
  destruct (Hcols _ _ eq_refl eq_refl) as [Hreg Hrange].
  destruct (Float32.neqb (fold_left Float32.max xs x0) (fold_left Float32.min xs x0))
    eqn:Hneq.
  - destruct (normalize_column_min_max x0 xs Hreg Hneq Hrange) as (Hunit & _).
    rewrite Forall_forall in Hunit.
    apply in_unit_interval_not_negative. apply Hunit.
    rewrite <- Hy. apply list_elem_of_In, in_map, list_elem_of_In. exact Hyin.
  - rewrite (normalize_entry_constant _ _ Hneq) in Hy. subst y.
    pose proof (constant_column_not_negative x0 xs Hreg Hneq Hrange) as Hall.
    rewrite Forall_forall in Hall. apply Hall. exact Hyin.
Qed.

Lemma row_elem (w : mat) (i : Z) (m m' : MonolingualModel) (v : vec) :
  row w i m = Ret v m' -> v ∈ w.
Proof.
  unfold row, at_index, defined, undefined, ret.
  destruct (i <? 0); [discriminate|].
  destruct (w !! Z.to_nat i) as [r|] eqn:E; [|discriminate].
  intros H. injection H as <- _. eapply list_elem_of_lookup_2. exact E.
Qed.

(** The vector of a word has no negative component when the input and the
    output matrix have none. *)
Lemma wordVec_not_negative (m : MonolingualModel) (w : string) (policy : Z) :
  (forall r, r ∈ input_weights m -> Forall (fun x => not_negative x = true) r) ->
  (forall r, r ∈ output_weights m -> Forall (fun x => not_negative x = true) r) ->
  forall v m', wordVec w policy m = Ret v m' ->
               Forall (fun x => not_negative x = true) v.
Proof.
  intros Hin Hout v m'. unfold wordVec, bind, gets.
  destruct (vocabulary m !! w) as [node|]; [|discriminate].
  unfold wordVec_index, bind, gets, throw, ret.
  destruct (policy =? 0).
  { intros H. apply Hin. eapply row_elem. exact H. }
  destruct (policy =? 1).
  { destruct (0 <? negative (config m)); [|discriminate].
    intros H. apply Hout. eapply row_elem. exact H. }
  destruct (policy =? 2).
  { destruct (row (input_weights m) (index node) m) as [v_in m1|e m1|] eqn:E1;
      try discriminate.
    pose proof (read_only_row (input_weights m) (index node) m) as Hro.
    rewrite E1 in Hro. simpl in Hro. subst m1.
    destruct (row (output_weights m) (index node) m) as [v_out m2|e m2|] eqn:E2;
      try discriminate.
    intros H. injection H as <- _.
    pose proof (Hin _ (row_elem _ _ _ _ _ E1)) as H1.
    pose proof (Hout _ (row_elem _ _ _ _ _ E2)) as H2.
    clear E1 E2. revert v_out H2.
    induction H1 as [|x v_in Hx H1 IH]; intros v_out H2; [constructor|].
    destruct H2 as [|y v_out Hy H2]; [constructor|]. simpl.
    constructor; [|apply IH; exact H2].
    apply div_not_negative; [|reflexivity].
    apply add_not_negative; assumption. }
  destruct (policy =? 3); [|discriminate].
  destruct (row (input_weights m) (index node) m) as [v_in m1|e m1|] eqn:E1;
    try discriminate.
  pose proof (read_only_row (input_weights m) (index node) m) as Hro.
  rewrite E1 in Hro. simpl in Hro. subst m1.
  destruct (row (output_weights m) (index node) m) as [v_out m2|e m2|] eqn:E2;
    try discriminate.
  intros H. injection H as <- _.
  apply Forall_app. split.
  - apply Hin. eapply row_elem. exact E1.
  - apply Hout. eapply row_elem. exact E2.
Qed.


(** ** Examples *)

Lemma rectangular_Forall (w : mat) (n : nat) :
  Forall (fun r : vec => length r = n) w -> Z.of_nat n <= INT_MAX ->
  rectangular w.
Proof.
  intros Hall Hn r0 r Hhead Hr. rewrite Forall_forall in Hall.
  assert (r0 ∈ w) as Hr0.
  { destruct w; [discriminate|]. injection Hhead as ->. apply list_elem_of_here. }
  rewrite (Hall r Hr), (Hall r0 Hr0). split; [reflexivity | exact Hn].
Qed.

Lemma normalizable_nil : normalizable [].
Proof.
  split.
  - intros r0 r H. discriminate H.
  - intros j mn mx H. discriminate H.
Qed.

Lemma example_weights_rectangular : rectangular example_weights.
Proof.
  apply (rectangular_Forall _ 2); [repeat constructor | vm_compute; discriminate].
Qed.

Lemma example_weights_normalizable : normalizable example_weights.
Proof.
  split; [exact example_weights_rectangular|].
  intros j mn mx Hmn Hmx.
  destruct j as [|[|j]]; [| |discriminate Hmn];
    vm_compute in Hmn, Hmx; injection Hmn as <-; injection Hmx as <-;
    (split; [repeat constructor | reflexivity]).
Qed.

Lemma example_model_rectangular :
  rectangular (output_weights_hs example_model)
  /\ rectangular (sent_weights example_model).
Proof.
  split.
  - apply (rectangular_Forall _ 2); [repeat constructor | vm_compute; discriminate].
  - intros r0 r H. discriminate H.
Qed.

Lemma normalizeWeights_min_max_witness :
  MonolingualModel_normalizeWeights example_model
  = Ret tt (normalized_model example_model)
  /\ column (normalized example_weights) 0
     = map (normalize_entry (Float32.of_Z 1) (Float32.of_Z 3))
           (column example_weights 0)
  /\ Forall in_unit_interval (column (normalized example_weights) 0)
  /\ (exists s, S754_zero s ∈ column (normalized example_weights) 0)
  /\ Float32.one ∈ column (normalized example_weights) 0.
Proof.
  destruct (normalizeWeights_min_max example_model
              example_weights_rectangular example_weights_rectangular
              (proj1 example_model_rectangular)
              (proj2 example_model_rectangular)) as [Hmodel Hcolumns].
  destruct (Hcolumns example_weights 0%nat (Float32.of_Z 1) (Float32.of_Z 3)
              eq_refl eq_refl) as (Hformula & _ & Hrange).
  split; [exact Hmodel|]. split; [exact Hformula|].
  apply Hrange.
  - reflexivity.
  - repeat constructor.
  - reflexivity.
Defined.

(** On the example: the column (3, 3, 1) has finite entries and a finite
    range, and becomes (1, 1, 0). *)
Example normalizeWeights_example :
  column_min example_weights 0 = Some (Float32.of_Z 1)
  /\ column_max example_weights 0 = Some (Float32.of_Z 3)
  /\ Forall regular (column example_weights 0)
  /\ Float32.is_finite (Float32.sub (Float32.of_Z 3) (Float32.of_Z 1)) = true
  /\ column (normalized example_weights) 0
     = [Float32.one; Float32.one; Float32.zero]
  /\ MonolingualModel_normalizeWeights example_model = Ret tt example_normalized.
Proof.
  repeat split; try reflexivity. repeat constructor.
Qed.

(** C4, as the claim has it, fails on the column (-2^127, 2^127): its
    entries are finite and its extremes differ, but their difference
    overflows, and the rescaled column is (0, NaN): it holds no 1.0, and its
    second entry is in no interval. *)
Lemma normalizeWeights_overflow_counterexample :
  rectangular overflow_weights
  /\ Forall regular (column overflow_weights 0)
  /\ column_min overflow_weights 0 = Some (S754_finite true 8388608 104)
  /\ column_max overflow_weights 0 = Some (S754_finite false 8388608 104)
  /\ Float32.neqb (S754_finite false 8388608 104) (S754_finite true 8388608 104) = true
  /\ normalizeWeights overflow_weights = Some [[S754_zero false]; [S754_nan]]
  /\ MonolingualModel_normalizeWeights
       (set_input_weights overflow_weights empty_model)
     = Ret tt (set_input_weights [[S754_zero false]; [S754_nan]] empty_model)
  /\ Float32.one ∉ [S754_zero false; S754_nan].
Proof.
  split.
  { apply (rectangular_Forall _ 1); [repeat constructor | vm_compute; discriminate]. }
  split; [repeat constructor|].
  repeat (split; [reflexivity|]).
  intros H. apply elem_of_cons in H. destruct H as [H|H]; [discriminate|].
  apply elem_of_cons in H. destruct H as [H|H]; [discriminate|].
  apply elem_of_nil in H. exact H.
Qed.




(** A constant column is left as it is, negative or not: here
    [normalizeWeights] changes nothing, the averaged vectors of "a" and "b"
    are (-0.25) and (0.25), and their similarity is -1.0. *)
Example similarity_negative_constant_column :
  MonolingualModel_normalizeWeights constant_model = Ret tt constant_model
  /\ similarity "a" "b" 2 constant_model
     = Ret (S754_finite true 8388608 (-23)) constant_model
  /\ Float32.leb Float32.zero (S754_finite true 8388608 (-23)) = false.
Proof. repeat split; reflexivity. Qed.

(** * Further properties of the code *)

(** ** More on [similarity] and [distance] *)

(** X1: the distance of a word to itself is exactly [+0.0], for every word,
    in the vocabulary or not, and every policy: [similarity] answers 1.0
    before any lookup and [1 - 1.0] is [+0.0]. *)
Theorem distance_same_word :
  forall (m : MonolingualModel) (w : string) (policy : Z),
    distance w w policy m = Ret Float32.zero m.
Proof.
  intros m w policy. unfold distance, similarity, bind.
  rewrite String.eqb_refl. reflexivity.
Qed.

(** X2: [distance(a, b)] and [distance(b, a)] return the same binary32
    value, bit for bit, or both fail to return. *)
Theorem distance_symmetric :
  forall (m : MonolingualModel) (a b : string) (policy : Z),
    returned (distance a b policy m) = returned (distance b a policy m).
Proof.
  intros m a b policy. unfold distance, similarity.
  rewrite (String_eqb_sym b a).
  destruct (String.eqb a b); [reflexivity|].
  unfold bind.
  pose proof (read_only_wordVec a policy m) as Ha.
  pose proof (read_only_wordVec b policy m) as Hb.
  destruct (wordVec a policy m) as [v1 m1|e1 m1|] eqn:Ea; simpl in Ha; subst;
    destruct (wordVec b policy m) as [v2 m2|e2 m2|] eqn:Eb; simpl in Hb; subst;
    rewrite ?Ea, ?Eb; simpl; try reflexivity.
  unfold ret. simpl.
  rewrite (dot_comm v2 v1), (Float32_mul_comm (norm v2) (norm v1)).
  reflexivity.
Qed.

(** X3: on two different words, the [runtime_error] of the first lookup
    that fails leaves [similarity], and [distance] with it: the one of
    [word1] when [wordVec(word1)] throws, whatever [word2] is, and the one of
    [word2] when only that lookup throws. *)
Theorem similarity_lookup_error_propagates :
  forall (m m' : MonolingualModel) (w1 w2 : string) (policy : Z)
         (e : runtime_error),
    w1 <> w2 ->
    (wordVec w1 policy m = Throw e m'
     \/ exists v1 m1, wordVec w1 policy m = Ret v1 m1
                      /\ wordVec w2 policy m1 = Throw e m') ->
    similarity w1 w2 policy m = Throw e m'
    /\ distance w1 w2 policy m = Throw e m'.
Proof.
  intros m m' w1 w2 policy e Hne H.
  assert (similarity w1 w2 policy m = Throw e m') as Hs.
  { unfold similarity.
    destruct (String.eqb w1 w2) eqn:E; [apply String.eqb_eq in E; contradiction|].
    unfold bind. destruct H as [H|(v1 & m1 & H1 & H2)].
    - rewrite H. reflexivity.
    - rewrite H1, H2. reflexivity. }
  split; [exact Hs|]. unfold distance, bind. rewrite Hs. reflexivity.
Qed.

Lemma similarity_lookup_error_propagates_witness :
  similarity "cat" "dog" 0 empty_model = Throw (NotInVocabulary "cat") empty_model
  /\ distance "cat" "dog" 0 empty_model = Throw (NotInVocabulary "cat") empty_model.
Proof.
  apply (similarity_lookup_error_propagates empty_model empty_model "cat" "dog" 0).
  - discriminate.
  - left. reflexivity.
Defined.

(** ** More on [similarityNgrams] *)

(** X4: the only [runtime_error] that leaves [similarityNgrams] is the one
    for sequences without a single scored pair: what [similarity] throws is
    caught in the loop, and the guard on the sizes never fires. *)
Theorem similarityNgrams_only_throws_AllOOV :
  forall (m : MonolingualModel) (seq1 seq2 : string) (policy : Z)
         (e : runtime_error),
    thrown (similarityNgrams seq1 seq2 policy m) = Some e -> e = AllOOV.
Proof.
  intros m seq1 seq2 policy e. unfold similarityNgrams.
  rewrite Nat.eqb_refl. change (negb true) with false. cbv iota beta.
  unfold bind.
  pose proof (ngrams_loop_no_throw (split seq1) (split seq2) policy
                (length (split seq1)) 0%nat (Float32.zero, 0) m) as Hl.
  destruct (for_loop _ _ _ _ m) as [acc m'|e' m'|]; simpl in *; try discriminate.
  destruct (snd acc =? 0); simpl; [congruence | discriminate].
Qed.

Lemma similarityNgrams_only_throws_AllOOV_witness :
  thrown (similarityNgrams "cat" "dog" 0 empty_model) = Some AllOOV
  /\ AllOOV = AllOOV.
Proof.
  split; [reflexivity|].
  apply (similarityNgrams_only_throws_AllOOV empty_model "cat" "dog" 0).
  reflexivity.
Defined.

(** The loop leaves its accumulator alone along positions at which
    [similarity] throws. *)
Lemma ngrams_loop_all_thrown words1 words2 policy m :
  (forall i w1 w2, words1 !! i = Some w1 -> words2 !! i = Some w2 ->
                   thrown (similarity w1 w2 policy m) <> None) ->
  forall n from acc,
    (from + n <= length words1)%nat -> (from + n <= length words2)%nat ->
    for_loop from n (ngrams_step words1 words2 policy) acc m = Ret acc m.
Proof.
  intros Hall n. induction n as [|n IH]; intros from acc H1 H2; simpl;
    [reflexivity|].
  destruct (lookup_lt_is_Some_2 words1 from) as [w1 Hw1]; [lia|].
  destruct (lookup_lt_is_Some_2 words2 from) as [w2 Hw2]; [lia|].
  unfold bind at 1. unfold ngrams_step, at_index, bind, try_catch.
  rewrite Hw1, Hw2. simpl.
  pose proof (Hall from w1 w2 Hw1 Hw2) as Ht.
  pose proof (read_only_similarity w1 w2 policy m) as Hro.
  destruct (similarity w1 w2 policy m) as [s m'|e m'|]; simpl in *;
    try congruence.
  subst m'. unfold ret. apply IH; lia.
Qed.

(** X5: when [similarity] throws at every position of the first sequence
    (the second being at least as long), [similarityNgrams] throws "all word
    pairs are unknown (OOV)" and leaves the model as it was. A first
    sequence without a token is the case with no position at all. *)
Theorem similarityNgrams_all_pairs_fail :
  forall (m : MonolingualModel) (seq1 seq2 : string) (policy : Z),
    (length (split seq1) <= length (split seq2))%nat ->
    (forall i w1 w2,
        split seq1 !! i = Some w1 -> split seq2 !! i = Some w2 ->
        thrown (similarity w1 w2 policy m) <> None) ->
    similarityNgrams seq1 seq2 policy m = Throw AllOOV m.
Proof.
  intros m seq1 seq2 policy Hlen Hall. unfold similarityNgrams.
  rewrite Nat.eqb_refl. change (negb true) with false. cbv iota beta.
  unfold bind.
  rewrite (ngrams_loop_all_thrown _ _ policy m Hall) by lia.
  reflexivity.
Qed.

Lemma similarityNgrams_all_pairs_fail_witness :
  similarityNgrams "black cat" "white dog barks" 0 empty_model
  = Throw AllOOV empty_model.
Proof.
  apply (similarityNgrams_all_pairs_fail empty_model "black cat" "white dog barks" 0).
  - vm_compute. lia.
  - intros i w1 w2 H1 H2.
    destruct i as [|[|i]]; vm_compute in H1, H2; try discriminate;
      injection H1 as <-; injection H2 as <-; vm_compute; discriminate.
Defined.

(** Two loops whose bodies agree on the indices they run over. *)
Lemma for_loop_ext {A} (body1 body2 : A -> nat -> M A) (n : nat) :
  forall from acc m,
    (forall a i m', (from <= i < from + n)%nat -> body1 a i m' = body2 a i m') ->
    for_loop from n body1 acc m = for_loop from n body2 acc m.
Proof.
  induction n as [|n IH]; intros from acc m Hext; simpl; [reflexivity|].
  unfold bind. rewrite (Hext acc from m) by lia.
  destruct (body2 acc from m) as [a' m'|e m'|]; try reflexivity.
  apply IH. intros a i m'' Hi. apply Hext. lia.
Qed.

(** X6: [similarityNgrams] reads the second sequence at the positions of
    the first only: two second sequences that agree on that many leading
    tokens give the same outcome, whatever follows in either. *)
Theorem similarityNgrams_ignores_trailing_words :
  forall (m : MonolingualModel) (seq1 seq2 seq2' : string) (policy : Z),
    take (length (split seq1)) (split seq2)
    = take (length (split seq1)) (split seq2') ->
    similarityNgrams seq1 seq2 policy m = similarityNgrams seq1 seq2' policy m.
Proof.
  intros m seq1 seq2 seq2' policy Htake. unfold similarityNgrams.
  rewrite !Nat.eqb_refl. change (negb true) with false. cbv iota beta.
  unfold bind.
  rewrite (for_loop_ext (ngrams_step (split seq1) (split seq2) policy)
                        (ngrams_step (split seq1) (split seq2') policy));
    [reflexivity|].
  intros a i m' Hi. unfold ngrams_step, at_index, bind.
  assert (split seq2 !! i = split seq2' !! i) as ->.
  { rewrite <- (lookup_take_lt (split seq2) (length (split seq1)) i) by lia.
    rewrite <- (lookup_take_lt (split seq2') (length (split seq1)) i) by lia.
    rewrite Htake. reflexivity. }
  reflexivity.
Qed.

Lemma similarityNgrams_ignores_trailing_words_witness :
  similarityNgrams "the cat" "the dog sat" 0 example_model
  = similarityNgrams "the cat" "the dog" 0 example_model.
Proof.
  apply (similarityNgrams_ignores_trailing_words example_model
           "the cat" "the dog sat" "the dog" 0).
  reflexivity.
Defined.

(** ** Sums of small integers in binary32 *)

Lemma rnd_one : rnd (2 ^ 149) = 2 ^ 149.
Proof.
  apply (rnd_exact (2 ^ 149) (2 ^ 23)); [apply Z.pow_pos_nonneg; lia|].
  assert (drop_bits (2 ^ 149) = 126) as -> by (vm_compute; reflexivity).
  rewrite <- Z.pow_add_r by lia. reflexivity.
Qed.

(** The sum of two valid finite floats whose values add up to a positive
    number is the rounding of the exact sum. *)
Lemma add_units_pos (x y : float) :
  Float32.valid x = true -> Float32.valid y = true ->
  Float32.is_finite x = true -> Float32.is_finite y = true ->
  0 < units x + units y ->
  Float32.add x y = float_of_units false (units x + units y).
Proof.
  intros Vx Vy Fx Fy HD.
  destruct x as [sx|sx| |sx mx ex], y as [sy|sy| |sy my ey];
    simpl in Fx, Fy; try discriminate.
  - pose proof (valid_units_pos _ _ _ Vy) as Hy.
    simpl units in *. destruct sy; simpl cond_Zopp in *; [lia|].
    rewrite Z.add_0_l. rewrite float_of_units_valid by exact Vy. reflexivity.
  - pose proof (valid_units_pos _ _ _ Vx) as Hx.
    simpl units in *. destruct sx; simpl cond_Zopp in *; [lia|].
    rewrite Z.add_0_r. rewrite float_of_units_valid by exact Vx. reflexivity.
  - destruct (valid_finite_inv _ _ _ Vx) as (Hex & _).
    destruct (valid_finite_inv _ _ _ Vy) as (Hey & _).
    unfold Float32.add, SFadd.
    set (ez := Z.min ex ey).
    pose proof (units_aligned sx mx ex ez ltac:(unfold ez; lia)) as Ux.
    pose proof (units_aligned sy my ey ez ltac:(unfold ez; lia)) as Uy.
    set (X := cond_Zopp sx (Zpos (fst (shl_align mx ex ez)))) in *.
    set (Y := cond_Zopp sy (Zpos (fst (shl_align my ey ez)))) in *.
    assert (0 < 2 ^ (ez + 149)) as Hp by (apply Z.pow_pos_nonneg; unfold ez; lia).
    assert ((X + Y) * 2 ^ (ez + 149)
            = units (S754_finite sx mx ex) + units (S754_finite sy my ey)) as HZ
        by (rewrite Z.mul_add_distr_r; lia).
    rewrite <- HZ in *.
    destruct (X + Y) as [|p|p] eqn:EZ; try lia.
    unfold binary_normalize.
    apply binary_round_units. unfold ez. lia.
Qed.

(** An integer of at most 24 bits converts to binary32 without rounding. *)
Lemma of_Z_exact (k : Z) :
  0 < k <= 2 ^ 24 ->
  exists m e,
    Float32.of_Z k = S754_finite false m e
    /\ Float32.valid (S754_finite false m e) = true
    /\ units (S754_finite false m e) = k * 2 ^ 149.
Proof.
  intros Hk. destruct k as [|p|p]; try lia.
  unfold Float32.of_Z, binary_normalize.
  rewrite binary_round_units by lia. rewrite Z.add_0_l.
  set (V := Zpos p * 2 ^ 149).
  assert (0 < V) as HV by (unfold V; lia).
  assert (rnd V = V) as Hexact.
  { destruct (Z.eq_dec (Zpos p) (2 ^ 24)) as [E|E].
    - unfold V. rewrite E. vm_compute. reflexivity.
    - assert (Zdigits2 (Zpos p) <= 24) as Hd.
      { destruct (Z_le_gt_dec (Zdigits2 (Zpos p)) 24) as [?|Hgt]; [assumption|].
        pose proof (Zdigits2_bounds (Zpos p) ltac:(lia)) as [Hlo _].
        assert (2 ^ 24 <= 2 ^ (Zdigits2 (Zpos p) - 1))
          by (apply Z.pow_le_mono_r; lia).
        lia. }
      pose proof (Zdigits2_pos (Zpos p) ltac:(lia)) as Hdp.
      assert (drop_bits V = Zdigits2 (Zpos p) + 149 - 24) as Hdb.
      { unfold drop_bits, V. rewrite Zdigits2_mul_pow2 by lia. lia. }
      apply (rnd_exact V (Zpos p * 2 ^ (24 - Zdigits2 (Zpos p))) HV).
      rewrite Hdb. unfold V. rewrite <- Z.mul_assoc. f_equal.
      rewrite <- Z.pow_add_r by lia. f_equal. lia. }
  pose proof (float_of_units_spec false V HV) as Hspec.
  destruct (float_of_units false V) as [s'|s'| |s' m' e']; try contradiction.
  - destruct Hspec as [_ Hge]. rewrite Hexact in Hge. exfalso.
    assert (V <= 2 ^ 24 * 2 ^ 149) by (unfold V; lia).
    assert (2 ^ 24 * 2 ^ 149 < 2 ^ 277) by (vm_compute; reflexivity). lia.
  - destruct Hspec as (-> & Hv' & Hu & _).
    exists m', e'. split; [reflexivity|]. split; [exact Hv'|].
    simpl units. lia.
Qed.

(** Counting up in binary32 is exact as far as [2 ^ 24]. *)
Lemma of_Z_succ (k : Z) :
  0 <= k < 2 ^ 24 ->
  Float32.add (Float32.of_Z k) Float32.one = Float32.of_Z (k + 1).
Proof.
  intros Hk. destruct (Z.eq_dec k 0) as [->|Hne]; [reflexivity|].
  destruct (of_Z_exact k ltac:(lia)) as (m & e & -> & Hv & Hu).
  destruct (of_Z_exact (k + 1) ltac:(lia)) as (m' & e' & -> & Hv' & Hu').
  rewrite add_units_pos; try assumption; try reflexivity.
  - rewrite Hu. change (units Float32.one) with (2 ^ 149).
    replace (k * 2 ^ 149 + 2 ^ 149) with (Z.pos m' * 2 ^ (e' + 149))
      by (simpl units in Hu'; lia).
    apply float_of_units_valid. exact Hv'.
  - rewrite Hu. change (units Float32.one) with (2 ^ 149). lia.
Qed.

(** The loop over a sequence paired with itself counts its positions. *)
Lemma ngrams_loop_same words policy m :
  forall n from k,
    (from + n <= length words)%nat ->
    0 <= k -> k + Z.of_nat n <= 2 ^ 24 ->
    for_loop from n (ngrams_step words words policy) (Float32.of_Z k, k) m
    = Ret (Float32.of_Z (k + Z.of_nat n), k + Z.of_nat n) m.
Proof.
  induction n as [|n IH]; intros from k Hlen Hk Hmax.
  - simpl. rewrite Z.add_0_r. reflexivity.
  - cbn [for_loop].
    destruct (lookup_lt_is_Some_2 words from) as [w Hw]; [lia|].
    unfold bind at 1. unfold ngrams_step, at_index, bind, try_catch.
    rewrite Hw. simpl. unfold similarity. rewrite String.eqb_refl.
    unfold ret. simpl. unfold int_succ, in_int, INT_MIN, INT_MAX.
    replace ((-2147483648 <=? k + 1) && (k + 1 <=? 2147483647)) with true
      by (symmetry; apply andb_true_intro;
          assert (2 ^ 24 = 16777216) by reflexivity; split; lia).
    unfold ret. rewrite of_Z_succ by lia.
    rewrite IH by lia.
    replace (k + 1 + Z.of_nat n) with (k + Z.of_nat (S n)) by lia.
    reflexivity.
Qed.

(** X7: a sequence of 1 to [2 ^ 24] tokens compared with itself scores
    exactly 1.0, whether its words are known or not: every position adds 1.0
    to a sum that binary32 holds exactly up to [2 ^ 24]. *)
Theorem similarityNgrams_same_sequence :
  forall (m : MonolingualModel) (seq : string) (policy : Z),
    split seq <> [] ->
    Z.of_nat (length (split seq)) <= 2 ^ 24 ->
    similarityNgrams seq seq policy m = Ret Float32.one m.
Proof.
  intros m seq policy Hne Hmax. unfold similarityNgrams.
  rewrite Nat.eqb_refl. change (negb true) with false. cbv iota beta.
  unfold bind.
  change (Float32.zero, 0) with (Float32.of_Z 0, 0).
  rewrite ngrams_loop_same by lia.
  set (n := Z.of_nat (length (split seq))) in *.
  assert (0 < n) as Hn by (unfold n; destruct (split seq); [congruence | simpl; lia]).
  cbn [fst snd]. rewrite Z.add_0_l.
  destruct (n =? 0) eqn:E; [apply Z.eqb_eq in E; lia|].
  destruct (of_Z_exact n ltac:(lia)) as (mm & e & -> & _ & _).
  unfold ret. rewrite Float32_div_self. reflexivity.
Qed.

Lemma similarityNgrams_same_sequence_witness :
  similarityNgrams "never seen words" "never seen words" 0 empty_model
  = Ret Float32.one empty_model.
Proof.
  apply (similarityNgrams_same_sequence empty_model "never seen words" 0).
  - vm_compute. discriminate.
  - vm_compute. discriminate.
Defined.

(** ** [normalizeWeights]: shapes and bounds *)

(** What a loop keeps, when it runs to its end. *)
Lemma loop_preserves {A} (P : A -> Prop) (body : A -> nat -> option A) :
  (forall a k a', P a -> body a k = Some a' -> P a') ->
  forall n from acc r, P acc -> loop from n body acc = Some r -> P r.
Proof.
  intros Hstep. induction n as [|n IH]; intros from acc r HP Hl; simpl in Hl.
  - injection Hl as <-. exact HP.
  - destruct (body acc from) as [a'|] eqn:E; [|discriminate].
    eapply IH; [|exact Hl]. eapply Hstep; eassumption.
Qed.

(** A step that fails for every accumulator stops the loop that reaches
    it. *)
Lemma loop_fails {A} (body : A -> nat -> option A) (k : nat) :
  (forall a, body a k = None) ->
  forall n from acc, (from <= k < from + n)%nat -> loop from n body acc = None.
Proof.
  intros Hk. induction n as [|n IH]; intros from acc Hr; simpl; [lia|].
  destruct (decide (from = k)) as [->|Hne].
  - rewrite Hk. reflexivity.
  - destruct (body acc from); [|reflexivity]. apply IH. lia.
Qed.

Lemma store_length {A} (v : list A) (j : nat) (x : A) (v' : list A) :
  store v j x = Some v' -> length v' = length v.
Proof.
  unfold store. destruct (j <? length v)%nat; [|discriminate].
  intros [= <-]. apply length_insert.
Qed.

Lemma normalize_step_shape (mnv mxv : vec) (i j : nat) (w w' : mat) :
  normalize_step mnv mxv i w j = Some w' -> map length w' = map length w.
Proof.
  unfold normalize_step. intros H.
  destruct (mxv !! j) as [mx|]; [|discriminate].
  destruct (mnv !! j) as [mn|]; [|discriminate]. simpl in H.
  destruct (Float32.neqb mx mn); [|injection H as <-; reflexivity].
  destruct (w !! i) as [wi|] eqn:Hwi; [|discriminate]. simpl in H.
  destruct (wi !! j) as [x|]; [|discriminate]. simpl in H.
  destruct (store wi j _) as [wi'|] eqn:Hs; [|discriminate]. simpl in H.
  unfold store in H. destruct (i <? length w)%nat; [|discriminate].
  injection H as <-.
  change (map length (<[i:=wi']> w)) with (length <$> <[i:=wi']> w).
  rewrite list_fmap_insert. apply list_insert_id.
  rewrite list_lookup_fmap, Hwi. simpl. f_equal.
  symmetry. eapply store_length. exact Hs.
Qed.

(** X8: whenever [normalizeWeights] runs to its end, the matrix has the
    rows it had, each as long as it was. *)
Theorem normalizeWeights_keeps_shape :
  forall (weights weights' : mat),
    normalizeWeights weights = Some weights' ->
    map length weights' = map length weights.
Proof.
  intros w w' H. destruct w as [|row0 rest]; [injection H as <-; reflexivity|].
  unfold normalizeWeights in H.
  destruct (loop 1 _ _ (row0, row0)) as [acc|]; [|discriminate].
  cbn [mbind option_bind] in H.
  revert H.
  apply (loop_preserves (fun c : mat => map length c = map length (row0 :: rest)));
    [|reflexivity].
  intros a k a' Ha.
  apply (loop_preserves (fun c : mat => map length c = map length (row0 :: rest)));
    [|exact Ha].
  intros b j b' Hb Hs. rewrite <- Hb. eapply normalize_step_shape. exact Hs.
Qed.

Lemma normalizeWeights_keeps_shape_witness :
  map length (normalized example_weights) = map length example_weights.
Proof.
  apply (normalizeWeights_keeps_shape example_weights (normalized example_weights)).
  vm_compute. reflexivity.
Defined.

(** X9: a row below the first that is shorter than the first is read past
    its end: the call has no defined behaviour. *)
Theorem normalizeWeights_short_row :
  forall (row0 : vec) (rest : list vec) (i : nat) (wi : vec),
    Z.of_nat (length row0) <= INT_MAX ->
    rest !! i = Some wi ->
    (length wi < length row0)%nat ->
    normalizeWeights (row0 :: rest) = None.
Proof.
  intros row0 rest i wi Hmax Hi Hshort. unfold normalizeWeights.
  rewrite (loop_bound_small _ Hmax).
  replace (length (row0 :: rest) - 1)%nat with (length rest) by (simpl; lia).
  rewrite (loop_fails _ (S i)); [reflexivity| |].
  - intros acc. apply (loop_fails _ (length wi)); [|lia].
    intros a. unfold minmax_step. simpl. rewrite Hi. simpl.
    rewrite (lookup_ge_None_2 wi (length wi)) by lia. reflexivity.
  - apply lookup_lt_Some in Hi. lia.
Qed.

Lemma normalizeWeights_short_row_witness :
  normalizeWeights [[Float32.one; Float32.zero]; [Float32.one]] = None.
Proof.
  apply (normalizeWeights_short_row [Float32.one; Float32.zero]
           [[Float32.one]] 0 [Float32.one]).
  - vm_compute. discriminate.
  - reflexivity.
  - simpl. lia.
Defined.

(** ** [normalizeWeights]: NaN and infinite entries *)

Lemma min_nan_r (a : float) : Float32.min a Float32.nan = a.
Proof. reflexivity. Qed.

Lemma max_nan_r (a : float) : Float32.max a Float32.nan = a.
Proof. unfold Float32.max, Float32.ltb, SFltb. destruct a; reflexivity. Qed.

Lemma fold_min_nan (xs : list float) :
  fold_left Float32.min xs Float32.nan = Float32.nan.
Proof.
  induction xs as [|x xs IH]; simpl; [reflexivity|].
  replace (Float32.min Float32.nan x) with Float32.nan; [exact IH|].
  unfold Float32.min, Float32.ltb, SFltb. destruct x; reflexivity.
Qed.

Lemma fold_max_nan (xs : list float) :
  fold_left Float32.max xs Float32.nan = Float32.nan.
Proof.
  induction xs as [|x xs IH]; simpl; [reflexivity|].
  replace (Float32.max Float32.nan x) with Float32.nan; [exact IH|].
  reflexivity.
Qed.

Lemma fold_skips_nan (f : float -> float -> float) (xs : list float) :
  (forall a, f a Float32.nan = a) ->
  forall a,
    fold_left f xs a
    = fold_left f (List.filter (fun x => negb (Float32.is_nan x)) xs) a.
Proof.
  intros Hf. induction xs as [|x xs IH]; intros a; simpl; [reflexivity|].
  destruct x as [s|s| |s m e]; simpl; try apply IH.
  change S754_nan with Float32.nan. rewrite Hf. apply IH.
Qed.

Lemma column_first (weights : mat) (j : nat) (x0 : float) (xs : list float) :
  column weights j = x0 :: xs ->
  column_min weights j = Some (fold_left Float32.min xs x0)
  /\ column_max weights j = Some (fold_left Float32.max xs x0).
Proof. intros H. unfold column_min, column_max. rewrite H. auto. Qed.

(** X10: a NaN below the first row takes no part in the extremes of its
    column: [std::min] and [std::max] keep their first argument when the
    second is a NaN, so the column is rescaled by the minimum and the maximum
    of the first entry and the entries below it that are not NaN. *)
Theorem normalizeWeights_skips_nan :
  forall (weights : mat) (j : nat) (x0 : float) (xs : list float),
    rectangular weights ->
    column weights j = x0 :: xs ->
    let known := List.filter (fun x => negb (Float32.is_nan x)) xs in
    exists weights',
      normalizeWeights weights = Some weights'
      /\ column weights' j
         = map (normalize_entry (fold_left Float32.min known x0)
                                (fold_left Float32.max known x0))
               (x0 :: xs).
Proof.
  intros w j x0 xs Hrect Hcol known.
  exists (normalized w). split; [apply normalizeWeights_normalized; exact Hrect|].
  destruct (column_first w j x0 xs Hcol) as [Hmn Hmx].
  rewrite (column_normalized w j _ _ Hmn Hmx), Hcol. unfold known.
  rewrite <- (fold_skips_nan Float32.min xs min_nan_r).
  rewrite <- (fold_skips_nan Float32.max xs max_nan_r).
  reflexivity.
Qed.

Lemma sub_nan_r (x : float) : Float32.sub x Float32.nan = Float32.nan.
Proof. destruct x; reflexivity. Qed.

Lemma div_nan_r (x : float) : Float32.div x Float32.nan = Float32.nan.
Proof. destruct x; reflexivity. Qed.

(** X11: a NaN in the first row spoils its column: both extremes are the
    NaN, [max != min] holds, and every entry of the column becomes a NaN. *)
Theorem normalizeWeights_first_row_nan :
  forall (weights : mat) (j : nat) (xs : list float),
    rectangular weights ->
    column weights j = Float32.nan :: xs ->
    exists weights',
      normalizeWeights weights = Some weights'
      /\ Forall (fun y => y = Float32.nan) (column weights' j).
Proof.
  intros w j xs Hrect Hcol.
  exists (normalized w). split; [apply normalizeWeights_normalized; exact Hrect|].
  destruct (column_first w j _ xs Hcol) as [Hmn Hmx].
  rewrite fold_min_nan in Hmn. rewrite fold_max_nan in Hmx.
  rewrite (column_normalized w j _ _ Hmn Hmx).
  apply Forall_forall. intros y Hy. apply list_elem_of_In, in_map_iff in Hy.
  destruct Hy as (x & <- & _).
  unfold normalize_entry. change (Float32.neqb Float32.nan Float32.nan) with true.
  cbv iota. rewrite sub_nan_r. apply div_nan_r.
Qed.

Lemma normalizeWeights_skips_nan_witness :
  exists weights',
    normalizeWeights [[Float32.of_Z 3]; [Float32.nan]; [Float32.of_Z 1]]
    = Some weights'
    /\ column weights' 0 = [Float32.one; Float32.nan; Float32.zero].
Proof.
  apply (normalizeWeights_skips_nan
           [[Float32.of_Z 3]; [Float32.nan]; [Float32.of_Z 1]] 0
           (Float32.of_Z 3) [Float32.nan; Float32.of_Z 1]).
  - apply (rectangular_Forall _ 1); [repeat constructor | vm_compute; discriminate].
  - reflexivity.
Defined.

Lemma normalizeWeights_first_row_nan_witness :
  exists weights',
    normalizeWeights [[Float32.nan]; [Float32.of_Z 3]; [Float32.of_Z 1]]
    = Some weights'
    /\ Forall (fun y => y = Float32.nan) (column weights' 0).
Proof.
  apply (normalizeWeights_first_row_nan
           [[Float32.nan]; [Float32.of_Z 3]; [Float32.of_Z 1]] 0
           [Float32.of_Z 3; Float32.of_Z 1]).
  - apply (rectangular_Forall _ 1); [repeat constructor | vm_compute; discriminate].
  - reflexivity.
Defined.

Lemma div_not_finite (a d : float) :
  Float32.is_finite d = false -> zero_or_nan (Float32.div a d) = true.
Proof. destruct a, d; simpl; (reflexivity || discriminate). Qed.

Lemma sub_not_finite (mx mn : float) :
  Float32.neqb mx mn = true ->
  Float32.is_finite mn = false \/ Float32.is_finite mx = false ->
  Float32.is_finite (Float32.sub mx mn) = false.
Proof.
  intros Hne [H|H]; destruct mx as [s1|s1| |s1 m1 e1], mn as [s2|s2| |s2 m2 e2];
    simpl in H; try discriminate; try reflexivity;
    destruct s1, s2; try reflexivity; discriminate Hne.
Qed.

Lemma fold_max_infinity (xs : list float) :
  forall a,
    Float32.is_nan a = false ->
    S754_infinity false ∈ a :: xs ->
    fold_left Float32.max xs a = S754_infinity false.
Proof.
  induction xs as [|x xs IH]; intros a Ha Hin.
  - apply list_elem_of_singleton in Hin. subst. reflexivity.
  - simpl. apply elem_of_cons in Hin. destruct Hin as [<-|Hin].
    + replace (Float32.max (S754_infinity false) x) with (S754_infinity false).
      * apply IH; [reflexivity | apply list_elem_of_here].
      * unfold Float32.max, Float32.ltb, SFltb.
        destruct x as [s|[]| |[] m e]; reflexivity.
    + apply elem_of_cons in Hin. destruct Hin as [<-|Hin].
      * replace (Float32.max a (S754_infinity false)) with (S754_infinity false).
        -- apply IH; [reflexivity | apply list_elem_of_here].
        -- unfold Float32.max, Float32.ltb, SFltb.
           destruct a as [s|[]| |[] m e]; try reflexivity; discriminate Ha.
      * apply IH.
        -- unfold Float32.max. destruct (Float32.ltb a x) eqn:E; [|exact Ha].
           destruct x; try reflexivity. destruct a; discriminate E.
        -- apply list_elem_of_further. exact Hin.
Qed.

Lemma fold_min_infinity (xs : list float) :
  forall a,
    Float32.is_nan a = false ->
    S754_infinity true ∈ a :: xs ->
    fold_left Float32.min xs a = S754_infinity true.
Proof.
  induction xs as [|x xs IH]; intros a Ha Hin.
  - apply list_elem_of_singleton in Hin. subst. reflexivity.
  - simpl. apply elem_of_cons in Hin. destruct Hin as [<-|Hin].
    + replace (Float32.min (S754_infinity true) x) with (S754_infinity true).
      * apply IH; [reflexivity | apply list_elem_of_here].
      * unfold Float32.min, Float32.ltb, SFltb.
        destruct x as [s|[]| |[] m e]; reflexivity.
    + apply elem_of_cons in Hin. destruct Hin as [<-|Hin].
      * replace (Float32.min a (S754_infinity true)) with (S754_infinity true).
        -- apply IH; [reflexivity | apply list_elem_of_here].
        -- unfold Float32.min, Float32.ltb, SFltb.
           destruct a as [s|[]| |[] m e]; try reflexivity; discriminate Ha.
      * apply IH.
        -- unfold Float32.min. destruct (Float32.ltb x a) eqn:E; [|exact Ha].
           destruct x; try reflexivity. destruct a; discriminate E.
        -- apply list_elem_of_further. exact Hin.
Qed.

(** X12: a column that holds an infinity, below a first entry that is not
    a NaN, is either left as it was (its extremes are equal) or loses all
    its values: every entry becomes a zero or a NaN. *)
Theorem normalizeWeights_infinite_entry :
  forall (weights : mat) (j : nat) (x0 : float) (xs : list float) (s : bool),
    rectangular weights ->
    column weights j = x0 :: xs ->
    Float32.is_nan x0 = false ->
    S754_infinity s ∈ x0 :: xs ->
    exists weights',
      normalizeWeights weights = Some weights'
      /\ (column weights' j = column weights j
          \/ Forall (fun y => zero_or_nan y = true) (column weights' j)).
Proof.
  intros w j x0 xs s Hrect Hcol Hnan Hin.
  exists (normalized w). split; [apply normalizeWeights_normalized; exact Hrect|].
  destruct (column_first w j x0 xs Hcol) as [Hmn Hmx].
  rewrite (column_normalized w j _ _ Hmn Hmx).
  set (mn := fold_left Float32.min xs x0) in *.
  set (mx := fold_left Float32.max xs x0) in *.
  destruct (Float32.neqb mx mn) eqn:Hne.
  - right. apply Forall_forall. intros y Hy.
    apply list_elem_of_In, in_map_iff in Hy. destruct Hy as (x & <- & _).
    unfold normalize_entry. rewrite Hne.
    apply div_not_finite. apply sub_not_finite; [exact Hne|].
    destruct s.
    + left. unfold mn. rewrite (fold_min_infinity xs x0 Hnan Hin). reflexivity.
    + right. unfold mx. rewrite (fold_max_infinity xs x0 Hnan Hin). reflexivity.
  - left. rewrite <- (map_id (column w j)) at 2. apply map_ext.
    apply normalize_entry_constant. exact Hne.
Qed.

Lemma normalizeWeights_infinite_entry_witness :
  exists weights',
    normalizeWeights
      [[Float32.of_Z 3]; [S754_infinity false]; [Float32.of_Z 1]]
    = Some weights'
    /\ (column weights' 0
        = column [[Float32.of_Z 3]; [S754_infinity false]; [Float32.of_Z 1]] 0
        \/ Forall (fun y => zero_or_nan y = true) (column weights' 0)).
Proof.
  apply (normalizeWeights_infinite_entry
           [[Float32.of_Z 3]; [S754_infinity false]; [Float32.of_Z 1]] 0
           (Float32.of_Z 3) [S754_infinity false; Float32.of_Z 1] false).
  - apply (rectangular_Forall _ 1); [repeat constructor | vm_compute; discriminate].
  - reflexivity.
  - reflexivity.
  - apply list_elem_of_further, list_elem_of_here.
Defined.

(** ** [MonolingualModel::normalizeWeights]: what it leaves alone *)

(** X13: [MonolingualModel::normalizeWeights] never throws, and when it
    returns it has left alone everything but the four matrices it rescales:
    the online sentence weights, the counters, [alpha], the configuration,
    the vocabulary and the unigram table. *)
Theorem MonolingualModel_normalizeWeights_frame :
  forall m : MonolingualModel,
    match MonolingualModel_normalizeWeights m with
    | Ret _ m' =>
        online_sent_weights m' = online_sent_weights m
        /\ training_words m' = training_words m
        /\ training_lines m' = training_lines m
        /\ words_processed m' = words_processed m
        /\ alpha m' = alpha m
        /\ config m' = config m
        /\ vocabulary m' = vocabulary m
        /\ unigram_table m' = unigram_table m
    | Throw _ _ => False
    | Undefined => True
    end.
Proof.
  intros m.
  unfold MonolingualModel_normalizeWeights, normalize_member, bind, gets,
    defined, modify, ret, undefined.
  destruct (normalizeWeights (input_weights m)); simpl; [|exact I].
  destruct (normalizeWeights (output_weights m)); simpl; [|exact I].
  destruct (normalizeWeights (output_weights_hs m)); simpl; [|exact I].
  destruct (normalizeWeights (sent_weights m)); simpl; [|exact I].
  repeat split.
Qed.

(** ** Exact quotients *)

(** An exact rounding step, on a mantissa that is wide enough or already at
    the lowest exponent. *)
Lemma binary_round_aux_exact_units (s : bool) (q e : Z) :
  0 < q -> -149 <= e -> 24 <= Zdigits2 q \/ e = -149 ->
  binary_round_aux Float32.prec Float32.emax s q e loc_Exact
  = float_of_units s (q * 2 ^ (e + 149)).
Proof.
  intros Hq He Hd. rewrite binary_round_aux_exact by lia.
  unfold float_of_units.
  pose proof (Zdigits2_pos q Hq) as Hdq.
  assert (drop_bits (q * 2 ^ (e + 149)) = shift_of q e + (e + 149)) as ->.
  { unfold drop_bits, shift_of. rewrite Zdigits2_mul_pow2 by lia.
    rewrite fexp32. lia. }
  rewrite round_int_scale by (unfold shift_of; lia).
  f_equal. lia.
Qed.

Lemma SFdiv_core_binary_exact (m1 m2 : positive) (e1 e2 q : Z) :
  let e' := Z.min (fexp Float32.prec Float32.emax
                        (Zdigits2 (Zpos m1) + e1 - (Zdigits2 (Zpos m2) + e2)))
                  (e1 - e2) in
  Zpos m1 * 2 ^ (e1 - e2 - e') = q * Zpos m2 ->
  SFdiv_core_binary Float32.prec Float32.emax (Zpos m1) e1 (Zpos m2) e2
  = (q, e', loc_Exact).
Proof.
  intros e' Hq. unfold SFdiv_core_binary. fold e'.
  set (s := e1 - e2 - e') in *.
  assert (0 <= s) as Hs by (unfold s, e'; lia).
  assert (match s with
          | Z0 => Zpos m1
          | Zpos _ => Z.shiftl (Zpos m1) s
          | Zneg _ => 0
          end = Zpos m1 * 2 ^ s) as ->.
  { destruct s as [|p|p] eqn:Es.
    - simpl. lia.
    - rewrite Z.shiftl_mul_pow2 by lia. reflexivity.
    - lia. }
  rewrite Hq.
  pose proof (Z.div_mul q (Zpos m2) ltac:(lia)) as Hdiv.
  pose proof (Z.mod_mul q (Zpos m2) ltac:(lia)) as Hmod.
  unfold Z.div, Z.modulo in Hdiv, Hmod.
  destruct (Z.div_eucl (q * Zpos m2) (Zpos m2)) as [q' r].
  subst q' r. unfold new_location.
  destruct (Z.even (Zpos m2)); reflexivity.
Qed.

(** Dividing by a power of two moves the exponent, as long as the quotient
    is a float. *)
Lemma div_pow2 (s : bool) (m : positive) (e e2 : Z) :
  Float32.valid (S754_finite s m e) = true ->
  Float32.valid (S754_finite s m (e - e2 - 23)) = true ->
  Float32.div (S754_finite s m e) (S754_finite false 8388608 e2)
  = S754_finite s m (e - e2 - 23).
Proof.
  intros Vx Vt.
  destruct (valid_finite_inv _ _ _ Vx) as (He & Hm & Hnorm).
  destruct (valid_finite_inv _ _ _ Vt) as (Het & _ & Hnormt).
  destruct (digits2_pos_bounds m) as [Hlo Hhi].
  set (d := Zpos (digits2_pos m)) in *.
  assert (0 < d) as Hd by (unfold d; lia).
  assert (d <= 24) as Hd24.
  { destruct (Z.le_gt_cases d 24) as [H|H]; [exact H|].
    assert (2 ^ 24 <= 2 ^ (d - 1)) by (apply Z.pow_le_mono_r; lia). lia. }
  assert (d = 24 \/ (e = -149 /\ e2 = -23)) as Hcase.
  { destruct (Z.eq_dec d 24) as [E|E]; [left; exact E|right].
    assert (2 ^ d <= 2 ^ 23) by (apply Z.pow_le_mono_r; lia).
    split; [|assert (e - e2 - 23 = -149)]; lia. }
  set (eT := e - e2 - 23) in *.
  set (e' := Z.min (fexp Float32.prec Float32.emax
                      (Zdigits2 (Zpos m) + e - (Zdigits2 8388608 + e2)))
                   (e - e2)).
  assert (e' = Z.max (eT - 1) (-149) \/ e' = -149 /\ eT = -149) as He'.
  { unfold e'. rewrite fexp32. simpl Zdigits2. fold d.
    change (Z.pos (digits2_pos 8388608)) with 24. unfold eT in *. lia. }
  assert (-149 <= e' <= eT) as He'r by lia.
  assert (Zpos m * 2 ^ (e - e2 - e') = (Zpos m * 2 ^ (eT - e')) * 8388608) as Hq.
  { replace (e - e2 - e') with (eT - e' + 23) by (unfold eT; lia).
    rewrite Z.pow_add_r by lia. change (2 ^ 23) with 8388608. ring. }
  unfold Float32.div, SFdiv.
  rewrite (SFdiv_core_binary_exact m 8388608 e e2 _ Hq). fold e'.
  rewrite xorb_false_r.
  assert (0 < 2 ^ (eT - e')) as Hp by (apply Z.pow_pos_nonneg; lia).
  rewrite binary_round_aux_exact_units.
  - rewrite <- Z.mul_assoc, <- Z.pow_add_r by lia.
    replace (eT - e' + (e' + 149)) with (eT + 149) by lia.
    apply float_of_units_valid. exact Vt.
  - lia.
  - lia.
  - destruct (Z.eq_dec e' (-149)) as [E|E]; [right; exact E|left].
    assert (d = 24) as Hd' by lia.
    rewrite Zdigits2_mul_pow2 by lia. simpl Zdigits2. fold d. lia.
Qed.

(** Dividing a float by 1.0 gives the float. *)
Lemma div_one (x : float) :
  Float32.valid x = true -> Float32.is_finite x = true ->
  Float32.div x Float32.one = x.
Proof.
  intros Vx Fx. destruct x as [s|s| |s m e]; try discriminate.
  - destruct s; reflexivity.
  - unfold Float32.one. rewrite div_pow2.
    + f_equal. lia.
    + exact Vx.
    + replace (e - -23 - 23) with e by lia. exact Vx.
Qed.

(** ** The floats a rounding makes are valid *)

Lemma renormalize_valid (s : bool) (m1 E : Z) :
  0 <= m1 <= 2 ^ 24 -> -149 <= E -> 2 ^ 23 <= m1 \/ E = -149 ->
  Float32.valid (renormalize s m1 E) = true.
Proof.
  intros Hm HE Hc. unfold renormalize.
  destruct (Z.eq_dec m1 0) as [->|Hne].
  { rewrite Z.div_0_l; [reflexivity|].
    apply Z.pow_nonzero; [lia|]. unfold shift_of. lia. }
  destruct (Z.eq_dec m1 (2 ^ 24)) as [->|Hne24].
  { assert (Zdigits2 (2 ^ 24) = 25) as Hd by reflexivity.
    rewrite (shift_of_normal (2 ^ 24) E) by (rewrite ?Hd; lia).
    rewrite Hd. change (2 ^ 24 / 2 ^ (25 - 24)) with 8388608.
    unfold assemble. destruct (E + (25 - 24) <=? 104) eqn:Ele; [|reflexivity].
    apply Z.leb_le in Ele. apply valid_normal; [reflexivity | lia]. }
  destruct (Z_lt_le_dec m1 (2 ^ 23)) as [Hsmall|Hbig].
  - assert (E = -149) as -> by lia.
    assert (Zdigits2 m1 <= 24) as Hd.
    { destruct (Z.le_gt_cases (Zdigits2 m1) 24) as [H|H]; [exact H|].
      destruct (Zdigits2_bounds m1 ltac:(lia)) as [Hlo _].
      assert (2 ^ 24 <= 2 ^ (Zdigits2 m1 - 1)) by (apply Z.pow_le_mono_r; lia).
      lia. }
    rewrite (shift_of_small m1) by lia.
    change (2 ^ 0) with 1. rewrite Z.div_1_r. unfold assemble.
    destruct m1 as [|p|p]; try lia. simpl.
    apply (valid_subnormal s p). exact Hd.
  - assert (Zdigits2 m1 = 24) as Hd
        by (apply Zdigits2_unique; [change (24 - 1) with 23|]; lia).
    rewrite (shift_of_normal m1 E) by lia.
    rewrite Hd. change (2 ^ (24 - 24)) with 1. rewrite Z.div_1_r, Z.add_0_r.
    unfold assemble. destruct m1 as [|p|p]; try lia.
    destruct (E <=? 104) eqn:Ele; [|reflexivity].
    apply Z.leb_le in Ele. apply valid_normal; [exact Hd | lia].
Qed.

(** The mantissa a rounding step leaves: 24 bits, the carry into the 25th,
    or fewer bits at the lowest exponent. *)
Lemma round_mantissa_bounds (m e m1 : Z) :
  0 <= m ->
  e <= fexp Float32.prec Float32.emax (Zdigits2 m + e) ->
  m1 = m / 2 ^ shift_of m e \/ m1 = m / 2 ^ shift_of m e + 1 ->
  0 <= m1 <= 2 ^ 24
  /\ -149 <= e + shift_of m e
  /\ (2 ^ 23 <= m1 \/ e + shift_of m e = -149).
Proof.
  intros Hm He Hcases. rewrite fexp32 in He.
  assert (shift_of m e = Z.max (Zdigits2 m + e - 24) (-149) - e) as Hn
      by (unfold shift_of; rewrite fexp32; lia).
  set (n1 := shift_of m e) in *.
  assert (0 <= n1) as Hn1 by lia.
  assert (0 < 2 ^ n1) as Hp by (apply Z.pow_pos_nonneg; lia).
  change (2 ^ 24) with 16777216. change (2 ^ 23) with 8388608.
  destruct (Z.eq_dec m 0) as [E0|Hne].
  - subst m. rewrite Z.div_0_l in Hcases by lia. simpl Zdigits2 in *. lia.
  - destruct (Zdigits2_bounds m ltac:(lia)) as [Hlo Hhi].
    pose proof (Zdigits2_pos m ltac:(lia)) as Hd.
    destruct (Z_le_gt_dec (-149) (Zdigits2 m + e - 24)) as [Hnormal|Hsub].
    + assert (n1 = Zdigits2 m - 24) as En by lia.
      assert (2 ^ 23 <= m / 2 ^ n1 < 2 ^ 24) as Hq.
      { split.
        - apply Z.div_le_lower_bound; [lia|].
          rewrite <- Z.pow_add_r by lia.
          replace (n1 + 23) with (Zdigits2 m - 1) by lia. exact Hlo.
        - apply Z.div_lt_upper_bound; [lia|].
          rewrite <- Z.pow_add_r by lia.
          replace (n1 + 24) with (Zdigits2 m) by lia. exact Hhi. }
      change (2 ^ 24) with 16777216 in Hq. change (2 ^ 23) with 8388608 in Hq.
      lia.
    + assert (n1 = -149 - e) as En by lia.
      assert (0 <= m / 2 ^ n1 < 2 ^ 23) as Hq.
      { split.
        - apply Z.div_pos; lia.
        - apply Z.div_lt_upper_bound; [lia|].
          rewrite <- Z.pow_add_r by lia.
          assert (2 ^ Zdigits2 m <= 2 ^ (n1 + 23))
            by (apply Z.pow_le_mono_r; lia).
          lia. }
      change (2 ^ 23) with 8388608 in Hq. lia.
Qed.

(** A rounding step on a mantissa that is wide enough for its exponent
    gives a float in canonical form, whatever was dropped before. *)
Lemma binary_round_aux_valid (s : bool) (m e : Z) (l : location) :
  0 <= m ->
  e <= fexp Float32.prec Float32.emax (Zdigits2 m + e) ->
  Float32.valid (binary_round_aux Float32.prec Float32.emax s m e l) = true.
Proof.
  intros Hm He.
  destruct (binary_round_aux_renormalize s m e l Hm) as (st & _ & Hst & ->).
  pose proof (round_nearest_even_cases (shr_m st) (loc_of_shr_record st))
    as Hcases.
  set (m1 := round_nearest_even (shr_m st) (loc_of_shr_record st)) in *.
  rewrite Hst in Hcases.
  destruct (round_mantissa_bounds m e m1 Hm He Hcases) as (H1 & H2 & H3).
  apply renormalize_valid; assumption.
Qed.

(** The quotient of a division has the digits its exponent calls for. *)
Lemma SFdiv_exponent (m1 m2 : positive) (e1 e2 : Z) :
  let e' := Z.min (fexp Float32.prec Float32.emax
                        (Zdigits2 (Zpos m1) + e1 - (Zdigits2 (Zpos m2) + e2)))
                  (e1 - e2) in
  let q := Zpos m1 * 2 ^ (e1 - e2 - e') / Zpos m2 in
  0 <= q /\ e' <= fexp Float32.prec Float32.emax (Zdigits2 q + e').
Proof.
  intros e' q.
  set (d1 := Zdigits2 (Zpos m1)) in *. set (d2 := Zdigits2 (Zpos m2)) in *.
  set (s := e1 - e2 - e') in *.
  destruct (Zdigits2_bounds (Zpos m1) ltac:(lia)) as [Hlo1 Hhi1].
  destruct (Zdigits2_bounds (Zpos m2) ltac:(lia)) as [Hlo2 Hhi2].
  pose proof (Zdigits2_pos (Zpos m1) ltac:(lia)) as Hd1.
  pose proof (Zdigits2_pos (Zpos m2) ltac:(lia)) as Hd2.
  fold d1 in Hlo1, Hhi1, Hd1. fold d2 in Hlo2, Hhi2, Hd2.
  assert (0 <= s) as Hs by (unfold s, e'; lia).
  assert (0 < 2 ^ s) as Hps by (apply Z.pow_pos_nonneg; lia).
  assert (0 <= q) as Hq0 by (unfold q; apply Z.div_pos; nia).
  split; [exact Hq0|].
  pose proof (Z.div_mod (Zpos m1 * 2 ^ s) (Zpos m2) ltac:(lia)) as Hdm.
  pose proof (Z.mod_pos_bound (Zpos m1 * 2 ^ s) (Zpos m2) ltac:(lia)) as Hmod.
  fold q in Hdm.
  assert (e' <= fexp Float32.prec Float32.emax (d1 + e1 - (d2 + e2))) as He'
      by (unfold e'; lia).
  rewrite fexp32 in He'.
  assert (2 ^ (d1 - 1 + s) <= Zpos m1 * 2 ^ s) as Hnum.
  { rewrite Z.pow_add_r by lia. apply Z.mul_le_mono_nonneg_r; lia. }
  rewrite fexp32.
  destruct (Z.eq_dec q 0) as [E0|Hne].
  - rewrite E0. simpl Zdigits2.
    destruct (Z_le_gt_dec e' (-149)) as [H|H]; [lia|]. exfalso.
    assert (d2 + 24 - d1 <= s) as Hs' by (unfold s; lia).
    assert (2 ^ (d2 + 23) <= 2 ^ (d1 - 1 + s)) by (apply Z.pow_le_mono_r; lia).
    assert (2 ^ d2 <= 2 ^ (d2 + 23)) by (apply Z.pow_le_mono_r; lia).
    rewrite E0 in Hdm. lia.
  - destruct (Zdigits2_bounds q ltac:(lia)) as [_ Hhiq].
    pose proof (Zdigits2_pos q ltac:(lia)) as Hdq.
    assert (d1 + s - d2 <= Zdigits2 q) as Hdig.
    { destruct (Z_le_gt_dec (d1 + s - d2) (Zdigits2 q)) as [H|H]; [exact H|].
      exfalso.
      assert (2 ^ Zdigits2 q <= 2 ^ (d1 + s - d2 - 1))
        by (apply Z.pow_le_mono_r; lia).
      assert (2 ^ (d1 + s - d2 - 1) * 2 ^ d2 = 2 ^ (d1 - 1 + s))
        by (rewrite <- Z.pow_add_r by lia; f_equal; lia).
      assert (0 < 2 ^ (d1 + s - d2 - 1)) by (apply Z.pow_pos_nonneg; lia).
      assert ((q + 1) * Zpos m2 <= 2 ^ (d1 + s - d2 - 1) * Zpos m2)
        by (apply Z.mul_le_mono_nonneg_r; lia).
      assert (2 ^ (d1 + s - d2 - 1) * Zpos m2 < 2 ^ (d1 + s - d2 - 1) * 2 ^ d2)
        by (apply Z.mul_lt_mono_pos_l; lia).
      lia. }
    unfold s in Hdig. lia.
Qed.

(** Every quotient is a float in canonical form. *)
Lemma div_valid (x y : float) : Float32.valid (Float32.div x y) = true.
Proof.
  destruct x as [sx|sx| |sx m1 e1], y as [sy|sy| |sy m2 e2]; try reflexivity.
  unfold Float32.div, SFdiv.
  destruct (SFdiv_core_binary_quotient m1 m2 e1 e2) as (l & ->).
  destruct (SFdiv_exponent m1 m2 e1 e2) as [Hq He].
  apply binary_round_aux_valid; assumption.
Qed.

(** ** Rescaling twice *)

Lemma in_unit_interval_units (y : float) :
  Float32.valid y = true -> in_unit_interval y ->
  regular y /\ 0 <= units y <= 2 ^ 149.
Proof.
  intros Vy [H0 H1].
  assert (Float32.is_finite y = true) as Fy
      by (destruct y as [s|[|]| |s m e]; try reflexivity; discriminate).
  assert (Float32.is_nan y = false) as Ny by (destruct y; try reflexivity; discriminate).
  split; [split; assumption|].
  unfold Float32.leb, SFleb in H0, H1.
  rewrite (compare_units Float32.zero y) in H0 by (try reflexivity; assumption).
  rewrite (compare_units y Float32.one) in H1 by (try reflexivity; assumption).
  change (units Float32.zero) with 0 in H0.
  change (units Float32.one) with (2 ^ 149) in H1.
  split.
  - destruct (Z.compare_spec 0 (units y)); try lia; discriminate.
  - destruct (Z.compare_spec (units y) (2 ^ 149)); try lia; discriminate.
Qed.

(** The running minimum is the first entry of the column that is as low as
    any: the entries before it are strictly above it. *)
Lemma fold_min_first (xs : list float) :
  forall a : float,
    regular a -> Forall regular xs ->
    exists pre post,
      a :: xs = pre ++ fold_left Float32.min xs a :: post
      /\ Forall (fun x => units (fold_left Float32.min xs a) < units x) pre.
Proof.
  induction xs as [|x xs IH]; intros a Ha Hall; simpl.
  - exists [], []. split; [reflexivity | constructor].
  - inversion Hall as [|? ? Hx Hxs]; subst.
    pose proof (ltb_units x a Hx Ha) as Hlt.
    assert (Float32.min a x = if Float32.ltb x a then x else a) as E by reflexivity.
    assert (regular (Float32.min a x)) as Hr
        by (rewrite E; destruct (Float32.ltb x a); assumption).
    destruct (IH (Float32.min a x) Hr Hxs) as (pre & post & Heq & Hpre).
    destruct (fold_min_units xs (Float32.min a x) Hr Hxs) as (_ & Hle & _).
    remember (fold_left Float32.min xs (Float32.min a x)) as r eqn:Er.
    clear Er IH. rewrite E in *. clear E.
    destruct (Float32.ltb x a).
    + assert (units x < units a) as Hxa by (apply Hlt; reflexivity).
      exists (a :: pre), post. split; [simpl; rewrite Heq; reflexivity|].
      constructor; [lia | exact Hpre].
    + assert (units a <= units x) as Hax.
      { destruct (Z.le_gt_cases (units a) (units x)) as [H|H]; [exact H|].
        assert (false = true) by (apply Hlt; lia). discriminate. }
      destruct pre as [|p pre1]; simpl in Heq.
      * injection Heq as Ea Exs. subst r post. exists [], (x :: xs).
        split; [reflexivity | constructor].
      * injection Heq as Ea Exs. subst p xs.
        exists (a :: x :: pre1), post. split; [reflexivity|].
        inversion Hpre as [|? ? Hpa Hpre1]; subst. cbv beta in Hpa.
        constructor; [exact Hpa|]. constructor; [lia | exact Hpre1].
Qed.

Lemma regular_units_zero (y : float) :
  regular y -> units y = 0 -> sign_clear y = true -> y = S754_zero false.
Proof.
  intros [Vy Fy] Hu Hs. destruct y as [[|]|s| |s m e]; try discriminate.
  - reflexivity.
  - pose proof (valid_units_pos s m e Vy). simpl units in Hu.
    destruct s; simpl in Hu; lia.
Qed.

Lemma sign_clear_units (y : float) :
  regular y -> sign_clear y = true -> 0 <= units y.
Proof.
  intros Ry Hs. apply (regular_not_negative_units y Ry).
  apply sign_clear_not_negative. exact Hs.
Qed.

Lemma regular_zero : regular (S754_zero false).
Proof. split; reflexivity. Qed.

(** Once the running minimum is [+0], entries that are not below zero leave
    it there. *)
Lemma fold_min_zero_stays (post : list float) :
  Forall (fun x => regular x /\ 0 <= units x) post ->
  fold_left Float32.min post (S754_zero false) = S754_zero false.
Proof.
  induction post as [|x post IH]; intros Hall; simpl; [reflexivity|].
  inversion Hall as [|? ? [Rx Hx] Hpost]; subst.
  replace (Float32.min (S754_zero false) x) with (S754_zero false);
    [apply IH; exact Hpost|].
  unfold Float32.min. destruct (Float32.ltb x (S754_zero false)) eqn:E;
    [|reflexivity].
  apply (ltb_units x (S754_zero false) Rx regular_zero) in E.
  simpl units in E. lia.
Qed.

(** The running minimum over entries with a clear sign bit, then a [+0],
    then entries that are not below zero, is [+0]. *)
Lemma fold_min_reaches_zero (post : list float) :
  Forall (fun x => regular x /\ 0 <= units x) post ->
  forall (pre : list float) (acc : float),
    regular acc -> sign_clear acc = true ->
    Forall (fun x => regular x /\ sign_clear x = true) pre ->
    fold_left Float32.min (pre ++ S754_zero false :: post) acc = S754_zero false.
Proof.
  intros Hpost. induction pre as [|x pre IH]; intros acc Racc Sacc Hpre; simpl.
  - replace (Float32.min acc (S754_zero false)) with (S754_zero false);
      [apply fold_min_zero_stays; exact Hpost|].
    unfold Float32.min. destruct (Float32.ltb (S754_zero false) acc) eqn:E;
      [reflexivity|].
    symmetry. apply regular_units_zero; [exact Racc| |exact Sacc].
    pose proof (sign_clear_units acc Racc Sacc) as H0.
    destruct (Z.eq_dec (units acc) 0) as [Hz|Hz]; [exact Hz|].
    assert (units (S754_zero false) < units acc) as Hlt by (simpl units; lia).
    apply (ltb_units _ _ regular_zero Racc) in Hlt. congruence.
  - inversion Hpre as [|? ? [Rx Sx] Hpre']; subst.
    apply IH; [| |exact Hpre'];
      unfold Float32.min; destruct (Float32.ltb x acc); assumption.
Qed.

Lemma float_of_units_sign_clear (V : Z) :
  0 < V -> sign_clear (float_of_units false V) = true.
Proof.
  intros HV. pose proof (float_of_units_spec false V HV) as H.
  destruct (float_of_units false V) as [s|s| |s m e]; try contradiction.
  - destruct H as [-> _]. reflexivity.
  - destruct H as [-> _]. reflexivity.
Qed.

Lemma sub_zero_r (y : float) :
  Float32.is_finite y = true -> Float32.sub y (S754_zero false) = y.
Proof. destruct y as [[|]|s| |s m e]; try discriminate; reflexivity. Qed.

(** Between the extremes [+0] and 1.0 the rescaling changes nothing. *)
Lemma normalize_entry_unit (y : float) :
  regular y -> normalize_entry (S754_zero false) Float32.one y = y.
Proof.
  intros [Vy Fy]. unfold normalize_entry.
  change (Float32.neqb Float32.one (S754_zero false)) with true. cbv iota.
  rewrite (sub_zero_r y Fy).
  change (Float32.sub Float32.one (S754_zero false)) with Float32.one.
  apply div_one; assumption.
Qed.

(** One column [x0 :: xs] of regular floats whose extremes differ and whose
    range is finite, after [normalizeWeights] went over it once. *)
Section Rescaled.

Variables (x0 : float) (xs : list float).
Hypothesis Hregular : Forall regular (x0 :: xs).

Let mn : float := fold_left Float32.min xs x0.
Let mx : float := fold_left Float32.max xs x0.

Hypothesis Hneq : Float32.neqb mx mn = true.
Hypothesis Hfin : Float32.is_finite (Float32.sub mx mn) = true.

Let f : float -> float := normalize_entry mn mx.

Lemma rescaled_regular :
  Forall (fun y => regular y /\ 0 <= units y <= 2 ^ 149) (map f (x0 :: xs)).
Proof.
  destruct (normalize_column_min_max x0 xs Hregular Hneq Hfin) as (Hunit & _).
  fold mn mx f in Hunit. rewrite Forall_forall in Hunit.
  apply Forall_forall. intros y Hy.
  apply in_unit_interval_units; [|apply Hunit; exact Hy].
  apply list_elem_of_In, in_map_iff in Hy. destruct Hy as (x & <- & _).
  unfold f, normalize_entry. rewrite Hneq. apply div_valid.
Qed.

(** The range of the column is a positive float. *)
Lemma range_positive :
  units mn < units mx
  /\ exists md ed, Float32.sub mx mn = S754_finite false md ed.
Proof.
  destruct (column_extremes x0 xs Hregular)
    as ((Hmin_in & Rmn) & (Hmax_in & Rmx) & Hbetween).
  fold mn mx in Hmin_in, Rmn, Hmax_in, Rmx, Hbetween.
  assert (units mn < units mx) as Hlt.
  { assert (units mx <> units mn).
    { intros E. apply (eqb_units mx mn Rmx Rmn) in E.
      unfold Float32.neqb, Float32.eqb in *. rewrite E in Hneq. discriminate. }
    destruct (Hbetween mx Hmax_in) as [_ H']. lia. }
  split; [exact Hlt|].
  pose proof Hfin as Hfin'.
  rewrite (sub_units_pos mx mn) in * by (try apply Rmx; try apply Rmn; lia).
  pose proof (float_of_units_spec false (units mx - units mn) ltac:(lia)) as Hd.
  destruct (float_of_units false (units mx - units mn)) as [sd|sd| |sd md ed];
    try contradiction; [discriminate Hfin'|].
  destruct Hd as (-> & _). exists md, ed. reflexivity.
Qed.

(** Where the minimum stood there is a [+0]. *)
Lemma rescaled_minimum : f mn = S754_zero false.
Proof.
  destruct (column_extremes x0 xs Hregular) as ((_ & Rmn) & _).
  fold mn in Rmn.
  destruct range_positive as (_ & md & ed & Hd).
  unfold f, normalize_entry. rewrite Hneq, Hd.
  assert (Float32.sub mn mn = S754_zero false) as ->.
  { destruct Rmn as [_ Fmn].
    destruct mn as [[|]|s| |s m e]; try discriminate; try reflexivity.
    apply Float32_sub_self. }
  reflexivity.
Qed.

(** An entry strictly above the minimum becomes a float with a clear sign
    bit. *)
Lemma rescaled_above (x : float) :
  regular x -> units mn < units x -> sign_clear (f x) = true.
Proof.
  intros Rx Hlt.
  destruct (column_extremes x0 xs Hregular) as ((_ & Rmn) & _).
  fold mn in Rmn.
  destruct range_positive as (_ & md & ed & Hd).
  unfold f, normalize_entry. rewrite Hneq, Hd.
  apply div_sign_clear; [|reflexivity].
  rewrite (sub_units_pos x mn) by (try apply Rx; try apply Rmn; lia).
  apply float_of_units_sign_clear. lia.
Qed.

Lemma rescaled_min : fold_left Float32.min (map f xs) (f x0) = S754_zero false.
Proof.
  pose proof rescaled_regular as Hall. rewrite Forall_forall in Hall.
  pose proof Hregular as Hreg. rewrite Forall_forall in Hreg.
  inversion Hregular as [|? ? R0 Rxs]; subst.
  destruct (fold_min_first xs x0 R0 Rxs) as (pre & post & Heq & Hpre).
  fold mn in Heq, Hpre.
  assert (Forall (fun y => regular y /\ 0 <= units y) (map f post)) as Hpost.
  { apply Forall_forall. intros y Hy.
    assert (y ∈ map f (x0 :: xs)) as Hin.
    { rewrite Heq, map_app. apply elem_of_app. right.
      simpl. apply list_elem_of_further. exact Hy. }
    destruct (Hall y Hin) as [Ry Hu]. split; [exact Ry | lia]. }
  assert (forall l, (forall x, x ∈ l -> x ∈ x0 :: xs) ->
                    Forall (fun x => units mn < units x) l ->
                    Forall (fun y => regular y /\ sign_clear y = true) (map f l))
    as Habove.
  { intros l Hsub Hl. rewrite Forall_forall in Hl.
    apply Forall_forall. intros y Hy.
    apply list_elem_of_In, in_map_iff in Hy. destruct Hy as (x & <- & Hx).
    apply list_elem_of_In in Hx. split.
    - apply (Hall (f x)). apply list_elem_of_In, in_map, list_elem_of_In, Hsub, Hx.
    - apply rescaled_above; [apply Hreg, Hsub, Hx | apply Hl, Hx]. }
  destruct pre as [|p pre1]; simpl in Heq; injection Heq as E0 Exs.
  - assert (f x0 = S754_zero false) as ->
        by (rewrite <- rescaled_minimum; f_equal; exact E0).
    rewrite Exs. apply fold_min_zero_stays. exact Hpost.
  - subst p. rewrite Exs, map_app. simpl map. rewrite rescaled_minimum.
    assert (Forall (fun y => regular y /\ sign_clear y = true) (map f (x0 :: pre1)))
      as Hp.
    { apply Habove; [|exact Hpre].
      intros x Hx. rewrite Exs. apply elem_of_cons in Hx.
      destruct Hx as [->|Hx]; [apply list_elem_of_here|].
      apply list_elem_of_further, elem_of_app. left. exact Hx. }
    simpl in Hp. apply Forall_cons in Hp. destruct Hp as [[Ry Sy] Hp1].
    apply fold_min_reaches_zero; assumption.
Qed.

Lemma rescaled_max : fold_left Float32.max (map f xs) (f x0) = Float32.one.
Proof.
  pose proof rescaled_regular as Hall.
  assert (Forall regular (map f (x0 :: xs))) as Hreg
      by (eapply Forall_impl; [exact Hall|]; intros y [Ry _]; exact Ry).
  rewrite Forall_forall in Hall.
  simpl in Hreg. apply Forall_cons in Hreg. destruct Hreg as [R0 Rxs].
  destruct (fold_max_units (map f xs) (f x0) R0 Rxs) as (Hin & H0 & Hrest).
  set (r := fold_left Float32.max (map f xs) (f x0)) in *.
  destruct (normalize_column_min_max x0 xs Hregular Hneq Hfin)
    as (_ & _ & Hmax_in & _ & Hone).
  fold mn mx f in Hmax_in, Hone.
  assert (Float32.one ∈ map f (x0 :: xs)) as Hone_in
      by (rewrite <- Hone; apply list_elem_of_In, in_map, list_elem_of_In; exact Hmax_in).
  assert (units Float32.one <= units r) as Hge.
  { simpl in Hone_in. apply elem_of_cons in Hone_in.
    destruct Hone_in as [E|Hi]; [rewrite E; exact H0|].
    rewrite Forall_forall in Hrest. apply Hrest. exact Hi. }
  destruct (Hall r Hin) as [[Vr Fr] Hu].
  change (units Float32.one) with (2 ^ 149) in Hge.
  destruct r as [s|s| |s m e]; try discriminate.
  - simpl units in Hge. assert (0 < 2 ^ 149) by (apply Z.pow_pos_nonneg; lia). lia.
  - pose proof (valid_units_pos s m e Vr) as Hpos. simpl units in Hu, Hge.
    destruct s; simpl cond_Zopp in *; [lia|].
    apply valid_units_inj; [exact Vr | reflexivity|].
    change (Zpos 8388608 * 2 ^ (-23 + 149)) with (2 ^ 149). lia.
Qed.

(** Going over the column a second time changes nothing. *)
Lemma rescaled_twice :
  map (normalize_entry (fold_left Float32.min (map f xs) (f x0))
                       (fold_left Float32.max (map f xs) (f x0)))
      (map f (x0 :: xs))
  = map f (x0 :: xs).
Proof.
  rewrite rescaled_min, rescaled_max.
  rewrite <- (map_id (map f (x0 :: xs))) at 2.
  apply map_ext_Forall.
  eapply Forall_impl; [exact rescaled_regular|].
  intros y [Ry _]. apply normalize_entry_unit. exact Ry.
Qed.

End Rescaled.

Lemma rectangular_normalized (w : mat) : rectangular w -> rectangular (normalized w).
Proof.
  intros Hrect. destruct w as [|row0 rest]; [exact Hrect|].
  destruct (rectangular_rows row0 rest Hrect) as [Hall Hmax].
  apply (rectangular_Forall _ (length row0)); [|exact Hmax].
  unfold normalized. apply Forall_map.
  eapply Forall_impl; [exact Hall|]. intros r Hr. simpl in *.
  rewrite length_imap. exact Hr.
Qed.

Lemma normalized_twice (w : mat) :
  finite_columns w -> normalized (normalized w) = normalized w.
Proof.
  intros Hcols. unfold normalized at 1.
  etransitivity; [|apply map_id].
  apply map_ext_Forall. apply Forall_forall. intros r Hr.
  apply list_eq. intros j. rewrite list_lookup_imap.
  destruct (r !! j) as [y|] eqn:Hy; [|reflexivity]. simpl. f_equal.
  pose proof (column_elem _ _ _ _ Hr Hy) as Hin.
  unfold column_min, column_max.
  destruct (column w j) as [|x0 xs] eqn:Ecol.
  { unfold normalized in Hin. rewrite column_imap, Ecol in Hin.
    apply elem_of_nil in Hin. contradiction. }
  destruct (column_first w j x0 xs Ecol) as [Hmn Hmx].
  destruct (Hcols j _ _ Hmn Hmx) as [Hreg Hrange]. rewrite Ecol in Hreg.
  rewrite (column_normalized w j _ _ Hmn Hmx), Ecol in Hin |- *.
  set (mn := fold_left Float32.min xs x0) in *.
  set (mx := fold_left Float32.max xs x0) in *.
  destruct (Float32.neqb mx mn) eqn:Hneq.
  - pose proof (rescaled_twice x0 xs Hreg Hneq (Hrange eq_refl)) as Htwice.
    fold mn mx in Htwice. cbn [map] in Htwice |- *.
    apply list_elem_of_In, (In_nth_error _ y) in Hin. destruct Hin as [k Hk].
    change (normalize_entry mn mx x0 :: map (normalize_entry mn mx) xs)
      with (map (normalize_entry mn mx) (x0 :: xs)) in Hk.
    assert (nth_error (map (normalize_entry
                              (fold_left Float32.min (map (normalize_entry mn mx) xs)
                                         (normalize_entry mn mx x0))
                              (fold_left Float32.max (map (normalize_entry mn mx) xs)
                                         (normalize_entry mn mx x0)))
                           (map (normalize_entry mn mx) (x0 :: xs))) k
            = nth_error (map (normalize_entry mn mx) (x0 :: xs)) k) as Hnth
        by (cbn [map] in *; rewrite Htwice; reflexivity).
    rewrite nth_error_map, Hk in Hnth. simpl in Hnth. congruence.
  - assert (map (normalize_entry mn mx) (x0 :: xs) = x0 :: xs) as Hid.
    { rewrite <- (map_id (x0 :: xs)) at 2. apply map_ext.
      apply normalize_entry_constant. exact Hneq. }
    rewrite Hid in Hin |- *. cbv iota beta. fold mn mx.
    apply normalize_entry_constant. exact Hneq.
Qed.

(** X14: [normalizeWeights] is idempotent on a rectangular matrix of finite
    floats whose columns have a finite range: a second call leaves the
    matrix of the first call as it is, bit for bit. *)
Theorem normalizeWeights_idempotent :
  forall weights : mat,
    rectangular weights -> finite_columns weights ->
    exists weights',
      normalizeWeights weights = Some weights'
      /\ normalizeWeights weights' = Some weights'.
Proof.
  intros w Hrect Hcols. exists (normalized w).
  split; [apply normalizeWeights_normalized; exact Hrect|].
  rewrite (normalizeWeights_normalized _ (rectangular_normalized w Hrect)).
  rewrite (normalized_twice w Hcols). reflexivity.
Qed.

Lemma finite_columns_example : finite_columns example_weights.
Proof.
  intros j mn mx Hmn Hmx.
  destruct j as [|[|j]]; [| |discriminate Hmn];
    vm_compute in Hmn, Hmx; injection Hmn as <-; injection Hmx as <-;
    (split; [repeat constructor | reflexivity]).
Qed.

Lemma normalizeWeights_idempotent_witness :
  exists weights',
    normalizeWeights example_weights = Some weights'
    /\ normalizeWeights weights' = Some weights'.
Proof.
  apply (normalizeWeights_idempotent example_weights).
  - exact example_weights_rectangular.
  - exact finite_columns_example.
Defined.

(** ** One pair of words *)

Lemma add_zero_l (s : float) :
  s <> S754_zero true -> Float32.add Float32.zero s = s.
Proof. destruct s as [[|]|sg| |sg m e]; intros H; try reflexivity. congruence. Qed.

Lemma div_one_any (x : float) :
  Float32.valid x = true -> Float32.div x Float32.one = x.
Proof.
  intros Vx. destruct x as [s|s| |s m e].
  - apply div_one; [exact Vx | reflexivity].
  - destruct s; reflexivity.
  - reflexivity.
  - apply div_one; [exact Vx | reflexivity].
Qed.

(** What [similarity] returns is a float in canonical form. *)
Lemma similarity_valid m w1 w2 policy s m' :
  similarity w1 w2 policy m = Ret s m' -> Float32.valid s = true.
Proof.
  unfold similarity. destruct (String.eqb w1 w2).
  - intros [= <- _]. reflexivity.
  - unfold bind. destruct (wordVec w1 policy m) as [v1 m1|e1 m1|]; try discriminate.
    destruct (wordVec w2 policy m1) as [v2 m2|e2 m2|]; try discriminate.
    intros [= <- _]. apply div_valid.
Qed.

(** X15: on two sequences of one token each, [similarityNgrams] returns
    what [similarity] returns for the two tokens, bit for bit, unless that is
    [-0.0] (which the sum that starts at [+0.0] turns into [+0.0]). *)
Theorem similarityNgrams_single_pair :
  forall (m m' : MonolingualModel) (seq1 seq2 w1 w2 : string) (policy : Z)
         (s : float),
    split seq1 = [w1] -> split seq2 = [w2] ->
    similarity w1 w2 policy m = Ret s m' ->
    s <> S754_zero true ->
    similarityNgrams seq1 seq2 policy m = Ret s m.
Proof.
  intros m m' seq1 seq2 w1 w2 policy s H1 H2 Hs Hnz.
  pose proof (read_only_similarity w1 w2 policy m) as Hro.
  rewrite Hs in Hro. simpl in Hro. subst m'.
  unfold similarityNgrams. rewrite Nat.eqb_refl, H1, H2.
  change (negb true) with false. cbv iota beta.
  cbn [length for_loop]. unfold bind at 1 2.
  unfold ngrams_step, at_index, bind, try_catch.
  cbn [lookup list_lookup defined ret fst snd]. rewrite Hs.
  change (int_succ 0 m) with (Ret 1 m). cbv iota beta. unfold ret.
  cbn [fst snd]. change (1 =? 0) with false. cbv iota.
  rewrite (add_zero_l s Hnz).
  change (Float32.of_Z 1) with Float32.one.
  rewrite (div_one_any s (similarity_valid _ _ _ _ _ _ Hs)). reflexivity.
Qed.

Lemma similarityNgrams_single_pair_witness :
  similarityNgrams " cat " "cat" 0 empty_model = Ret Float32.one empty_model.
Proof.
  apply (similarityNgrams_single_pair empty_model empty_model " cat " "cat"
           "cat" "cat" 0 Float32.one).
  - reflexivity.
  - reflexivity.
  - reflexivity.
  - discriminate.
Defined.

(** ** The distance after the rescaling *)

(** The difference of two valid finite floats, the first below the second,
    is the rounding of the exact difference, with the sign bit set. *)
Lemma sub_units_neg (x y : float) :
  Float32.valid x = true -> Float32.valid y = true ->
  Float32.is_finite x = true -> Float32.is_finite y = true ->
  units x - units y < 0 ->
  Float32.sub x y = float_of_units true (units y - units x).
Proof.
  intros Vx Vy Fx Fy HD.
  destruct x as [sx|sx| |sx mx ex], y as [sy|sy| |sy my ey];
    simpl in Fx, Fy; try discriminate.
  - pose proof (valid_units_pos _ _ _ Vy) as Hy.
    simpl units in *. destruct sy; simpl cond_Zopp in *; [lia|].
    rewrite Z.sub_0_r.
    rewrite (float_of_units_valid true my ey) by exact Vy. reflexivity.
  - pose proof (valid_units_pos _ _ _ Vx) as Hx.
    simpl units in *. destruct sx; simpl cond_Zopp in *; [|lia].
    replace (0 - - (Zpos mx * 2 ^ (ex + 149))) with (Zpos mx * 2 ^ (ex + 149)) by lia.
    rewrite float_of_units_valid by exact Vx. reflexivity.
  - destruct (valid_finite_inv _ _ _ Vx) as (Hex & _).
    destruct (valid_finite_inv _ _ _ Vy) as (Hey & _).
    unfold Float32.sub, SFsub.
    set (ez := Z.min ex ey).
    pose proof (units_aligned sx mx ex ez ltac:(unfold ez; lia)) as Ux.
    pose proof (units_aligned sy my ey ez ltac:(unfold ez; lia)) as Uy.
    set (X := cond_Zopp sx (Zpos (fst (shl_align mx ex ez)))) in *.
    set (Y := cond_Zopp sy (Zpos (fst (shl_align my ey ez)))) in *.
    assert (0 < 2 ^ (ez + 149)) as Hp by (apply Z.pow_pos_nonneg; unfold ez; lia).
    assert ((Y - X) * 2 ^ (ez + 149)
            = units (S754_finite sy my ey) - units (S754_finite sx mx ex)) as HZ
        by (rewrite Z.mul_sub_distr_r; lia).
    assert (X - Y < 0) as Hneg by nia.
    rewrite <- HZ.
    destruct (X - Y) as [|p|p] eqn:EZ; try lia.
    unfold binary_normalize.
    replace (Y - X) with (Zpos p) by lia.
    apply binary_round_units. unfold ez. lia.
Qed.

Lemma leb_units (x y : float) :
  regular x -> regular y ->
  Float32.leb x y = true <-> units x <= units y.
Proof.
  intros Hx Hy. unfold Float32.leb, SFleb.
  rewrite (compare_units x y) by
    (try apply Hx; try apply Hy; apply regular_not_nan; assumption).
  unfold Z.le. destruct (units x ?= units y); split; congruence.
Qed.

(** [1 - s] for a float [s] whose sign bit is clear. *)
Lemma one_minus_at_most_one (s : float) :
  Float32.valid s = true -> sign_clear s = true ->
  Float32.is_nan (Float32.sub Float32.one s) = true
  \/ Float32.leb (Float32.sub Float32.one s) Float32.one = true.
Proof.
  intros Vs Hs. destruct s as [[|]|[|]| |[|] m e]; try discriminate Hs.
  - right. reflexivity.
  - right. reflexivity.
  - left. reflexivity.
  - right. pose proof (valid_units_pos _ _ _ Vs) as Hpos.
    set (s := S754_finite false m e) in *.
    assert (units s = Zpos m * 2 ^ (e + 149)) as Hu by reflexivity.
    assert (regular Float32.one) as R1 by (split; reflexivity).
    destruct (Z.lt_trichotomy (units s) (2 ^ 149)) as [Hlt|[Heq|Hgt]].
    + rewrite (sub_units_pos Float32.one s); try assumption; try reflexivity.
      2:{ change (units Float32.one) with (2 ^ 149). lia. }
      change (units Float32.one) with (2 ^ 149).
      set (V := 2 ^ 149 - units s).
      assert (0 < V) as HV by (unfold V; lia).
      assert (rnd V <= 2 ^ 149) as Hle.
      { rewrite <- rnd_one. apply rnd_mono. unfold V. lia. }
      pose proof (float_of_units_spec false V HV) as Hspec.
      destruct (float_of_units false V) as [s'|s'| |s' m' e']; try contradiction.
      * destruct Hspec as [_ Hge].
        assert (2 ^ 149 < 2 ^ 277) by (apply Z.pow_lt_mono_r; lia). lia.
      * destruct Hspec as (-> & Vy & Uy & _).
        apply leb_units; [split; [exact Vy | reflexivity] | exact R1|].
        simpl units. change (Zpos 8388608 * 2 ^ (-23 + 149)) with (2 ^ 149). lia.
    + destruct (sub_units_zero Float32.one s) as [s' ->];
        try assumption; try reflexivity.
      change (units Float32.one) with (2 ^ 149). lia.
    + rewrite (sub_units_neg Float32.one s); try assumption; try reflexivity.
      2:{ change (units Float32.one) with (2 ^ 149). lia. }
      change (units Float32.one) with (2 ^ 149).
      pose proof (float_of_units_spec true (units s - 2 ^ 149) ltac:(lia)) as Hspec.
      destruct (float_of_units true (units s - 2 ^ 149)) as [s'|s'| |s' m' e'];
        try contradiction.
      * destruct Hspec as [-> _]. reflexivity.
      * destruct Hspec as (-> & _). reflexivity.
Qed.

(** What [similarity] returns on a rescaled model has a clear sign bit. *)
Lemma similarity_normalized_sign_clear (m m' : MonolingualModel)
    (w1 w2 : string) (policy : Z) (s : float) :
  normalizable (input_weights m) -> normalizable (output_weights m) ->
  similarity w1 w2 policy (normalized_model m) = Ret s m' ->
  sign_clear s = true.
Proof.
  intros Nin Nout Hsim. unfold similarity in Hsim.
  destruct (String.eqb w1 w2).
  { injection Hsim as <- _. reflexivity. }
  unfold bind in Hsim.
  pose proof (read_only_wordVec w1 policy (normalized_model m)) as Hro.
  destruct (wordVec w1 policy (normalized_model m)) as [v1 m1|e m1|] eqn:E1;
    try discriminate.
  simpl in Hro. subst m1.
  destruct (wordVec w2 policy (normalized_model m)) as [v2 m2|e m2|] eqn:E2;
    try discriminate.
  injection Hsim as <- _.
  apply cosine_sign_clear.
  - eapply wordVec_not_negative; [| |exact E1]; intros r Hr.
    + exact (normalized_not_negative _ Nin r Hr).
    + exact (normalized_not_negative _ Nout r Hr).
  - eapply wordVec_not_negative; [| |exact E2]; intros r Hr.
    + exact (normalized_not_negative _ Nin r Hr).
    + exact (normalized_not_negative _ Nout r Hr).
Qed.

(** X16: after [normalizeWeights] on a model whose input and output
    matrices it rescales within the finite floats, [distance] returns a NaN
    or a float that is at most 1.0. It can be below zero: rounding lets the
    similarity exceed 1.0. *)
Theorem distance_normalized_at_most_one :
  forall (m m1 m2 : MonolingualModel) (w1 w2 : string) (policy : Z) (d : float),
    normalizable (input_weights m) -> normalizable (output_weights m) ->
    rectangular (output_weights_hs m) -> rectangular (sent_weights m) ->
    MonolingualModel_normalizeWeights m = Ret tt m1 ->
    distance w1 w2 policy m1 = Ret d m2 ->
    Float32.is_nan d = true \/ Float32.leb d Float32.one = true.
Proof.
  intros m m1 m2 w1 w2 policy d Nin Nout Rhs Rsent Hnorm Hd.
  rewrite (MonolingualModel_normalizeWeights_normalized m
             (proj1 Nin) (proj1 Nout) Rhs Rsent) in Hnorm.
  injection Hnorm as <-.
  unfold distance, bind in Hd.
  destruct (similarity w1 w2 policy (normalized_model m)) as [s m'|e m'|] eqn:Es;
    try discriminate.
  injection Hd as <- _. change (Float32.of_Z 1) with Float32.one.
  apply one_minus_at_most_one.
  - eapply similarity_valid. exact Es.
  - eapply similarity_normalized_sign_clear; eassumption.
Qed.

Lemma distance_normalized_at_most_one_witness :
  Float32.is_nan (S754_finite true 8388608 (-46)) = true
  \/ Float32.leb (S754_finite true 8388608 (-46)) Float32.one = true.
Proof.
  apply (distance_normalized_at_most_one
           example_model example_normalized example_normalized "a" "b" 0).
  - exact example_weights_normalizable.
  - exact example_weights_normalizable.
  - exact (proj1 example_model_rectangular).
  - exact (proj2 example_model_rectangular).
  - reflexivity.
  - reflexivity.
Defined.

(** ** The mean of the similarities after the rescaling *)

(** What a loop over the model keeps, when it returns. *)
Lemma for_loop_preserves {A} (P : A -> MonolingualModel -> Prop)
    (body : A -> nat -> M A) :
  (forall a i m a' m', P a m -> body a i m = Ret a' m' -> P a' m') ->
  forall n from acc m r m',
    P acc m -> for_loop from n body acc m = Ret r m' -> P r m'.
Proof.
  intros Hstep. induction n as [|n IH]; intros from acc m r m' HP Hl; simpl in Hl.
  - injection Hl as <- <-. exact HP.
  - unfold bind in Hl.
    destruct (body acc from m) as [a1 m1|e m1|] eqn:E; try discriminate.
    eapply IH; [|exact Hl]. eapply Hstep; eassumption.
Qed.

(** X17: after [normalizeWeights] on a model whose input and output
    matrices it rescales within the finite floats, [similarityNgrams]
    returns a NaN or a float that is not below zero. *)
Theorem similarityNgrams_normalized_not_negative :
  forall (m m1 m2 : MonolingualModel) (seq1 seq2 : string) (policy : Z)
         (s : float),
    normalizable (input_weights m) -> normalizable (output_weights m) ->
    rectangular (output_weights_hs m) -> rectangular (sent_weights m) ->
    MonolingualModel_normalizeWeights m = Ret tt m1 ->
    similarityNgrams seq1 seq2 policy m1 = Ret s m2 ->
    Float32.is_nan s = true \/ Float32.leb Float32.zero s = true.
Proof.
  intros m m1 m2 seq1 seq2 policy s Nin Nout Rhs Rsent Hnorm Hs.
  rewrite (MonolingualModel_normalizeWeights_normalized m
             (proj1 Nin) (proj1 Nout) Rhs Rsent) in Hnorm.
  injection Hnorm as <-.
  apply orb_true_iff. rewrite <- not_negative_leb.
  unfold similarityNgrams in Hs.
  rewrite Nat.eqb_refl in Hs. change (negb true) with false in Hs.
  cbv iota beta in Hs. unfold bind in Hs.
  destruct (for_loop _ _ _ _ _) as [acc m'|e m'|] eqn:El; try discriminate.
  assert (m' = normalized_model m /\ sign_clear (fst acc) = true /\ 0 <= snd acc)
    as (-> & Hsign & Hn).
  { revert El.
    apply (for_loop_preserves
             (fun a mm => mm = normalized_model m
                          /\ sign_clear (fst a) = true /\ 0 <= snd a));
      [|split; [reflexivity | split; [reflexivity | simpl; lia]]].
    intros a i mm a' mm' (-> & Ha & Hna) Hstep.
    unfold ngrams_step, at_index, bind, try_catch, defined in Hstep.
    destruct (split seq1 !! i) as [w1|]; [|discriminate]. simpl in Hstep.
    destruct (split seq2 !! i) as [w2|]; [|discriminate]. simpl in Hstep.
    pose proof (read_only_similarity w1 w2 policy (normalized_model m)) as Hro.
    destruct (similarity w1 w2 policy (normalized_model m)) as [x mx|e mx|] eqn:Ex;
      simpl in Hro; subst; try discriminate.
    - unfold int_succ in Hstep. destruct (in_int (snd a + 1)); [|discriminate].
      injection Hstep as <- <-. split; [reflexivity|]. simpl. split; [|lia].
      apply add_sign_clear; [exact Ha|].
      apply sign_clear_not_negative.
      eapply similarity_normalized_sign_clear; eassumption.
    - injection Hstep as <- <-. auto. }
  destruct (snd acc =? 0) eqn:E0; [discriminate|].
  injection Hs as <- _. apply Z.eqb_neq in E0.
  apply sign_clear_not_negative, div_sign_clear; [exact Hsign|].
  unfold Float32.of_Z, binary_normalize.
  destruct (snd acc) as [|p|p]; try lia. apply binary_round_sign_clear.
Qed.

Lemma similarityNgrams_normalized_not_negative_witness :
  Float32.is_nan (S754_finite false 8388609 (-23)) = true
  \/ Float32.leb Float32.zero (S754_finite false 8388609 (-23)) = true.
Proof.
  apply (similarityNgrams_normalized_not_negative
           example_model example_normalized example_normalized "a" "b" 0).
  - exact example_weights_normalizable.
  - exact example_weights_normalizable.
  - exact (proj1 example_model_rectangular).
  - exact (proj2 example_model_rectangular).
  - reflexivity.
  - reflexivity.
Defined.

(** ** Rounding a quotient *)

Lemma loc_of_shr_record_of_loc (m : Z) (l : location) :
  loc_of_shr_record (shr_record_of_loc m l) = l
  /\ shr_m (shr_record_of_loc m l) = m.
Proof. destruct l as [|[| |]]; split; reflexivity. Qed.

Lemma new_location_locZ (D R : Z) :
  0 < D -> 0 <= R < D -> new_location D R = locZ R D.
Proof.
  intros HD HR. unfold new_location, new_location_even, new_location_odd, locZ.
  destruct (Z.even D) eqn:Ev; destruct (Z.eqb_spec R 0); try reflexivity.
  f_equal.
  assert (Z.odd D = true) as Hodd by (rewrite <- Z.negb_even, Ev; reflexivity).
  apply Z.odd_spec in Hodd. destruct Hodd as [c Hc].
  destruct (Z.compare_spec (2 * R + 1) D), (Z.compare_spec (2 * R) D);
    try reflexivity; lia.
Qed.

Lemma shifted_quotient_0 (N D : Z) :
  shifted_quotient N D 0 (shr_record_of_loc (N / D) (locZ (N mod D) D)).
Proof.
  unfold shifted_quotient. change (2 ^ 0) with 1. rewrite Z.mul_1_r.
  destruct (loc_of_shr_record_of_loc (N / D) (locZ (N mod D) D)) as [-> ->].
  split; reflexivity.
Qed.

Lemma shr_1_shifted_quotient (N D k : Z) (st : shr_record) :
  0 <= N -> 0 < D -> 0 <= k ->
  shifted_quotient N D k st -> shifted_quotient N D (k + 1) (shr_1 st).
Proof.
  intros HN HD Hk [Hm Hloc].
  assert (0 < 2 ^ k) as Hp by (apply Z.pow_pos_nonneg; lia).
  set (S := D * 2 ^ k) in *.
  assert (0 < S) as HS by (unfold S; lia).
  assert (D * 2 ^ (k + 1) = S * 2) as Hpow
      by (unfold S; rewrite Z.pow_add_r by lia; change (2 ^ 1) with 2; lia).
  assert (N mod (S * 2) = N mod S + S * ((N / S) mod 2)) as Hrem
      by (rewrite Z.rem_mul_r by lia; reflexivity).
  assert (N / (S * 2) = (N / S) / 2) as Hquo
      by (rewrite Z.div_div by lia; reflexivity).
  pose proof (Z.mod_pos_bound N S HS) as HR.
  assert (0 <= N / S) as Hq by (apply Z.div_pos; lia).
  destruct st as [m r s]. simpl in Hm, Hloc. subst m.
  unfold shifted_quotient. rewrite Hpow, Hquo, Hrem.
  replace (S * 2) with (2 * S) by lia.
  set (q := N / S) in *. set (R := N mod S) in *.
  assert ((r || s) = negb (R =? 0)) as Hrs.
  { unfold locZ in Hloc. destruct (R =? 0), r, s; simpl in *;
      try reflexivity; discriminate. }
  unfold shr_1. rewrite Hrs.
  destruct q as [|[q'|q'|]|q'] eqn:Eqq; try lia; simpl shr_m.
  - split; [reflexivity|]. exact (locZ_next_bit R S false HR).
  - change (Zpos q'~1) with (2 * Zpos q' + 1).
    replace ((2 * Zpos q' + 1) / 2) with (Zpos q')
      by (apply Z.div_unique with 1; lia).
    replace ((2 * Zpos q' + 1) mod 2) with 1
      by (apply Z.mod_unique with (Zpos q'); lia).
    split; [reflexivity|]. exact (locZ_next_bit R S true HR).
  - change (Zpos q'~0) with (2 * Zpos q').
    replace (2 * Zpos q' / 2) with (Zpos q')
      by (apply Z.div_unique with 0; lia).
    replace ((2 * Zpos q') mod 2) with 0
      by (apply Z.mod_unique with (Zpos q'); lia).
    split; [reflexivity|]. exact (locZ_next_bit R S false HR).
  - split; [reflexivity|]. exact (locZ_next_bit R S true HR).
Qed.

Lemma iter_pos_shifted_quotient (N D : Z) (p : positive) :
  0 <= N -> 0 < D ->
  forall k st, 0 <= k -> shifted_quotient N D k st ->
               shifted_quotient N D (k + Zpos p) (SpecFloat.iter_pos shr_1 p st).
Proof.
  intros HN HD. induction p as [p IH|p IH|]; intros k st Hk Hst; simpl.
  - replace (k + Zpos p~1) with (k + 1 + Zpos p + Zpos p) by lia.
    apply IH; [lia|]. apply IH; [lia|]. apply shr_1_shifted_quotient; assumption.
  - replace (k + Zpos p~0) with (k + Zpos p + Zpos p) by lia.
    apply IH; [lia|]. apply IH; assumption.
  - apply shr_1_shifted_quotient; assumption.
Qed.

(** The first shift of the rounding of a quotient. *)
Lemma shr_fexp_quotient (N D e : Z) :
  0 <= N -> 0 < D ->
  exists st,
    shr_fexp Float32.prec Float32.emax (N / D) e (locZ (N mod D) D)
    = (st, e + shift_of (N / D) e)
    /\ shifted_quotient N D (shift_of (N / D) e) st.
Proof.
  intros HN HD. unfold shr_fexp, shift_of, shr.
  pose proof (shifted_quotient_0 N D) as H0.
  destruct (fexp Float32.prec Float32.emax (Zdigits2 (N / D) + e) - e)
    as [|p|p] eqn:En.
  - eexists. split; [rewrite Z.add_0_r; reflexivity|]. exact H0.
  - eexists. split; [rewrite Z.max_r by lia; reflexivity|].
    rewrite Z.max_r by lia.
    apply (iter_pos_shifted_quotient N D p HN HD 0 _ ltac:(lia) H0).
  - eexists. split; [rewrite Z.max_l by lia; rewrite Z.add_0_r; reflexivity|].
    rewrite Z.max_l by lia. exact H0.
Qed.

(** The rounding of a quotient. *)
Lemma binary_round_aux_quotient (s : bool) (N D e : Z) :
  0 <= N -> 0 < D ->
  binary_round_aux Float32.prec Float32.emax s (N / D) e (locZ (N mod D) D)
  = renormalize s (round_quotient N D (shift_of (N / D) e))
                (e + shift_of (N / D) e).
Proof.
  intros HN HD.
  assert (0 <= N / D) as Hq by (apply Z.div_pos; lia).
  destruct (binary_round_aux_renormalize s (N / D) e (locZ (N mod D) D) Hq)
    as (st & Hst & _ & ->).
  destruct (shr_fexp_quotient N D e HN HD) as (st' & Hst' & Hm' & Hl').
  rewrite Hst in Hst'. injection Hst' as <-.
  unfold round_quotient. rewrite Hm', Hl'. reflexivity.
Qed.

(** The core of a division: quotient, exponent and location. *)
Lemma SFdiv_core_binary_locZ (m1 m2 : positive) (e1 e2 : Z) :
  let e' := Z.min (fexp Float32.prec Float32.emax
                        (Zdigits2 (Zpos m1) + e1 - (Zdigits2 (Zpos m2) + e2)))
                  (e1 - e2) in
  let N := Zpos m1 * 2 ^ (e1 - e2 - e') in
  SFdiv_core_binary Float32.prec Float32.emax (Zpos m1) e1 (Zpos m2) e2
  = (N / Zpos m2, e', locZ (N mod Zpos m2) (Zpos m2)).
Proof.
  intros e' N. unfold SFdiv_core_binary. fold e'.
  set (s := e1 - e2 - e') in *.
  assert (0 <= s) as Hs by (unfold s, e'; lia).
  assert (match s with
          | Z0 => Zpos m1
          | Zpos _ => Z.shiftl (Zpos m1) s
          | Zneg _ => 0
          end = N) as ->.
  { unfold N. destruct s as [|p|p] eqn:Es.
    - simpl. lia.
    - rewrite Z.shiftl_mul_pow2 by lia. reflexivity.
    - lia. }
  pose proof (Z.mod_pos_bound N (Zpos m2) ltac:(lia)) as Hr.
  unfold Z.div, Z.modulo in *.
  destruct (Z.div_eucl N (Zpos m2)) as [q r].
  rewrite new_location_locZ by lia. reflexivity.
Qed.

(** The value of the float a rounded mantissa is assembled into. *)
Lemma renormalize_units (m1 E : Z) :
  0 <= m1 <= 2 ^ 24 -> -149 <= E -> 2 ^ 23 <= m1 \/ E = -149 ->
  units (renormalize false m1 E) = Z.min (m1 * 2 ^ (E + 149)) (2 ^ 277).
Proof.
  intros Hm HE Hc. unfold renormalize.
  assert (0 < 2 ^ (E + 149)) as Hp by (apply Z.pow_pos_nonneg; lia).
  destruct (Z.eq_dec m1 0) as [->|Hne].
  { rewrite Z.div_0_l; [simpl; lia|].
    apply Z.pow_nonzero; [lia|]. unfold shift_of. lia. }
  destruct (Z.eq_dec m1 (2 ^ 24)) as [->|Hne24].
  { assert (Zdigits2 (2 ^ 24) = 25) as Hd by reflexivity.
    rewrite (shift_of_normal (2 ^ 24) E) by (rewrite ?Hd; lia).
    rewrite Hd. change (2 ^ 24 / 2 ^ (25 - 24)) with 8388608.
    change (25 - 24) with 1.
    assert (2 ^ 24 * 2 ^ (E + 149) = 2 ^ (E + 173)) as ->
        by (rewrite <- Z.pow_add_r by lia; f_equal; lia).
    unfold assemble. destruct (Z.leb_spec (E + 1) 104) as [Hle|Hgt]; simpl units.
    - change (Zpos 8388608) with (2 ^ 23). rewrite <- Z.pow_add_r by lia.
      replace (23 + (E + 1 + 149)) with (E + 173) by lia.
      assert (2 ^ (E + 173) <= 2 ^ 276) by (apply Z.pow_le_mono_r; lia).
      assert (2 ^ 276 < 2 ^ 277) by (apply Z.pow_lt_mono_r; lia). lia.
    - assert (2 ^ 277 <= 2 ^ (E + 173)) by (apply Z.pow_le_mono_r; lia). lia. }
  destruct (Z_lt_le_dec m1 (2 ^ 23)) as [Hsmall|Hbig].
  - assert (E = -149) as -> by lia.
    assert (Zdigits2 m1 <= 24) as Hd.
    { destruct (Z.le_gt_cases (Zdigits2 m1) 24) as [H|H]; [exact H|].
      destruct (Zdigits2_bounds m1 ltac:(lia)) as [Hlo _].
      assert (2 ^ 24 <= 2 ^ (Zdigits2 m1 - 1)) by (apply Z.pow_le_mono_r; lia).
      lia. }
    rewrite (shift_of_small m1) by lia.
    change (2 ^ 0) with 1. rewrite Z.div_1_r. unfold assemble.
    destruct m1 as [|p|p]; try lia. simpl.
    assert (2 ^ 23 < 2 ^ 277) by (apply Z.pow_lt_mono_r; lia). lia.
  - assert (Zdigits2 m1 = 24) as Hd
        by (apply Zdigits2_unique; [change (24 - 1) with 23|]; lia).
    rewrite (shift_of_normal m1 E) by lia.
    rewrite Hd. change (2 ^ (24 - 24)) with 1. rewrite Z.div_1_r, Z.add_0_r.
    unfold assemble. destruct m1 as [|p|p]; try lia.
    destruct (Z.leb_spec E 104) as [Hle|Hgt]; simpl units.
    + assert (2 ^ (E + 149) <= 2 ^ 253) by (apply Z.pow_le_mono_r; lia).
      assert (2 ^ 277 = 2 ^ 24 * 2 ^ 253) by (rewrite <- Z.pow_add_r by lia; reflexivity).
      assert (0 < 2 ^ 253) by (apply Z.pow_pos_nonneg; lia).
      assert (Zpos p * 2 ^ (E + 149) < 2 ^ 24 * 2 ^ 253) by nia. lia.
    + assert (2 ^ 254 <= 2 ^ (E + 149)) by (apply Z.pow_le_mono_r; lia).
      assert (2 ^ 277 = 2 ^ 23 * 2 ^ 254) by (rewrite <- Z.pow_add_r by lia; reflexivity).
      assert (0 < 2 ^ 254) by (apply Z.pow_pos_nonneg; lia).
      assert (2 ^ 23 * 2 ^ 254 <= Zpos p * 2 ^ (E + 149)) by nia. lia.
Qed.

(** Quotients of proportional pairs. *)
Lemma quotient_proportional (N S N' S' : Z) :
  0 <= N -> 0 < S -> 0 < S' -> N * S' = N' * S ->
  N / S = N' / S' /\ locZ (N mod S) S = locZ (N' mod S') S'.
Proof.
  intros HN HS HS' Hprop.
  pose proof (Z.div_mod N S ltac:(lia)) as E.
  pose proof (Z.mod_pos_bound N S HS) as B.
  set (q := N / S) in *. set (r := N mod S) in *.
  (* the rest of [N'] over [S'] *)
  assert (N' * S = (q * S' ) * S + r * S') as E' by nia.
  assert ((S | r * S')) as [r' Hr'].
  { exists (N' - q * S'). nia. }
  assert (N' = q * S' + r') as EN by nia.
  assert (0 <= r' < S') as B' by nia.
  assert (N' / S' = q) as Hq by (symmetry; apply Z.div_unique with r'; lia).
  assert (N' mod S' = r') as Hr by (symmetry; apply Z.mod_unique with q; lia).
  rewrite Hq, Hr. split; [reflexivity|].
  unfold locZ.
  destruct (Z.eqb_spec r 0) as [E0|E0], (Z.eqb_spec r' 0) as [E0'|E0'];
    try reflexivity; try nia.
  f_equal.
  destruct (Z.compare_spec (2 * r) S), (Z.compare_spec (2 * r') S');
    try reflexivity; nia.
Qed.

Lemma round_quotient_proportional (N D n N' D' n' : Z) :
  0 <= N -> 0 < D -> 0 < D' -> 0 <= n -> 0 <= n' ->
  N * (D' * 2 ^ n') = N' * (D * 2 ^ n) ->
  round_quotient N D n = round_quotient N' D' n'.
Proof.
  intros HN HD HD' Hn Hn' Hprop. unfold round_quotient.
  assert (0 < 2 ^ n) by (apply Z.pow_pos_nonneg; lia).
  assert (0 < 2 ^ n') by (apply Z.pow_pos_nonneg; lia).
  destruct (quotient_proportional N (D * 2 ^ n) N' (D' * 2 ^ n')
              HN ltac:(lia) ltac:(lia) Hprop) as [-> ->].
  reflexivity.
Qed.

(** The digits of a quotient that is scaled by a power of two. *)
Lemma Zdigits2_div_pow2 (q j : Z) :
  0 <= q -> 0 <= j -> Zdigits2 (q / 2 ^ j) = Z.max (Zdigits2 q - j) 0.
Proof.
  intros Hq Hj.
  assert (0 < 2 ^ j) as Hp by (apply Z.pow_pos_nonneg; lia).
  destruct (Z.eq_dec q 0) as [->|Hne].
  { rewrite Z.div_0_l by lia. simpl. lia. }
  destruct (Zdigits2_bounds q ltac:(lia)) as [Hlo Hhi].
  pose proof (Zdigits2_pos q ltac:(lia)) as Hd.
  destruct (Z_le_gt_dec (Zdigits2 q) j) as [Hsmall|Hbig].
  - assert (2 ^ Zdigits2 q <= 2 ^ j) by (apply Z.pow_le_mono_r; lia).
    rewrite Z.div_small by lia. simpl. lia.
  - rewrite Z.max_l by lia. apply Zdigits2_unique; [|lia]. split.
    + apply Z.div_le_lower_bound; [lia|]. rewrite <- Z.pow_add_r by lia.
      replace (j + (Zdigits2 q - j - 1)) with (Zdigits2 q - 1) by lia. exact Hlo.
    + apply Z.div_lt_upper_bound; [lia|]. rewrite <- Z.pow_add_r by lia.
      replace (j + (Zdigits2 q - j)) with (Zdigits2 q) by lia. exact Hhi.
Qed.

Lemma Zdigits2_0 : Zdigits2 0 = 0.
Proof. reflexivity. Qed.

(** The value of a quotient of two positive floats: the rounding of the
    exact quotient, or the infinity when that is out of range. *)
Lemma div_units (m1 m2 : positive) (e1 e2 : Z) :
  Float32.valid (S754_finite false m1 e1) = true ->
  Float32.valid (S754_finite false m2 e2) = true ->
  units (Float32.div (S754_finite false m1 e1) (S754_finite false m2 e2))
  = Z.min (rnd_quotient (Zpos m1 * 2 ^ (e1 + 149) * 2 ^ 149)
                        (Zpos m2 * 2 ^ (e2 + 149)))
          (2 ^ 277).
Proof.
  intros V1 V2.
  destruct (valid_finite_inv _ _ _ V1) as (He1 & _).
  destruct (valid_finite_inv _ _ _ V2) as (He2 & _).
  unfold Float32.div, SFdiv.
  rewrite SFdiv_core_binary_locZ. cbv beta iota zeta. simpl xorb.
  rewrite binary_round_aux_quotient
    by (try lia; pose proof (Z.pow_nonneg 2
                               (e1 - e2 - Z.min (fexp Float32.prec Float32.emax
                                   (Zdigits2 (Zpos m1) + e1 - (Zdigits2 (Zpos m2) + e2)))
                                   (e1 - e2)) ltac:(lia)); lia).
  destruct (SFdiv_exponent m1 m2 e1 e2) as [Hq0 He'].
  set (e' := Z.min (fexp Float32.prec Float32.emax
                      (Zdigits2 (Zpos m1) + e1 - (Zdigits2 (Zpos m2) + e2)))
                   (e1 - e2)) in *.
  set (s := e1 - e2 - e') in *.
  assert (0 <= s) as Hs by (unfold s, e'; lia).
  set (A := Zpos m1) in *. set (B := Zpos m2) in *.
  assert (0 < A) as HA by (unfold A; lia).
  assert (0 < B) as HB by (unfold B; lia).
  set (N := A * 2 ^ s) in *.
  assert (0 < 2 ^ s) as Hps by (apply Z.pow_pos_nonneg; lia).
  assert (0 < N) as HN by (unfold N; lia).
  set (q := N / B) in *.
  rewrite fexp32 in He'.
  assert (shift_of q e' = Z.max (Zdigits2 q + e' - 24) (-149) - e') as Hn
      by (unfold shift_of; rewrite fexp32; lia).
  set (n1 := shift_of q e') in *.
  assert (0 <= n1) as Hn1 by lia.
  assert (0 < 2 ^ n1) as Hpn by (apply Z.pow_pos_nonneg; lia).
  set (g := e' + n1 + 149).
  assert (0 <= g) as Hg by (unfold g; lia).
  (* the rounded mantissa *)
  assert (round_quotient N B n1 = q / 2 ^ n1
          \/ round_quotient N B n1 = q / 2 ^ n1 + 1) as Hcases.
  { unfold round_quotient. rewrite <- Z.div_div by lia. fold q.
    apply round_nearest_even_cases. }
  destruct (round_mantissa_bounds q e' (round_quotient N B n1) Hq0
              ltac:(rewrite fexp32; lia) Hcases) as (Hm & HE & Hc).
  fold n1 in HE, Hc.
  rewrite (renormalize_units _ _ Hm HE Hc).
  f_equal. replace (e' + n1 + 149) with g by reflexivity.
  (* in units of [2 ^ -149] *)
  set (P := A * 2 ^ (e1 + 149) * 2 ^ 149).
  set (U := B * 2 ^ (e2 + 149)).
  assert (0 < 2 ^ (e1 + 149)) as Hp1 by (apply Z.pow_pos_nonneg; lia).
  assert (0 < 2 ^ (e2 + 149)) as Hp2 by (apply Z.pow_pos_nonneg; lia).
  assert (0 < 2 ^ 149) as Hp3 by (apply Z.pow_pos_nonneg; lia).
  assert (0 < P) as HP by (unfold P; lia).
  assert (0 < U) as HU by (unfold U; lia).
  assert (0 < 2 ^ g) as Hpg by (apply Z.pow_pos_nonneg; lia).
  assert (drop_bits (P / U) = g) as Hdrop.
  { unfold drop_bits.
    destruct (Z_le_gt_dec 0 (e' + 149)) as [Hj|Hj].
    - (* the quotient has bits to spare below the units *)
      assert (0 < 2 ^ (e' + 149)) as Hpj by (apply Z.pow_pos_nonneg; lia).
      assert (P / U = N * 2 ^ (e' + 149) / B) as ->.
      { apply (quotient_proportional P U (N * 2 ^ (e' + 149)) B); try lia.
        unfold P, U, N.
        assert (2 ^ (e1 + 149) * 2 ^ 149 = 2 ^ s * 2 ^ (e' + 149) * 2 ^ (e2 + 149))
          as Hpow by (rewrite <- !Z.pow_add_r by lia; f_equal; unfold s; lia).
        transitivity (A * B * (2 ^ (e1 + 149) * 2 ^ 149)); [ring|].
        rewrite Hpow. ring. }
      pose proof (Z.div_mod N B ltac:(lia)) as Hdm.
      pose proof (Z.mod_pos_bound N B HB) as Hmod.
      fold q in Hdm.
      destruct (Z.eq_dec q 0) as [E0|Hne].
      + rewrite E0 in *. simpl Zdigits2 in *.
        assert (e' = -149) as Ee by lia.
        rewrite Ee. change (2 ^ (-149 + 149)) with 1. rewrite Z.mul_1_r.
        fold q. rewrite E0. simpl Zdigits2. unfold g. lia.
      + destruct (Zdigits2_bounds q ltac:(lia)) as [Hlo Hhi].
        pose proof (Zdigits2_pos q ltac:(lia)) as Hdq.
        assert (Zdigits2 (N * 2 ^ (e' + 149) / B) = Zdigits2 q + (e' + 149)) as ->.
        { apply Zdigits2_unique; [|lia]. split.
          - apply Z.div_le_lower_bound; [lia|].
            replace (Zdigits2 q + (e' + 149) - 1)
              with (Zdigits2 q - 1 + (e' + 149)) by lia.
            rewrite (Z.pow_add_r 2 (Zdigits2 q - 1) (e' + 149)) by lia.
            apply Z.le_trans with (B * q * 2 ^ (e' + 149)).
            + rewrite <- Z.mul_assoc. apply Z.mul_le_mono_nonneg_l; [lia|].
              apply Z.mul_le_mono_nonneg_r; lia.
            + apply Z.mul_le_mono_nonneg_r; lia.
          - apply Z.div_lt_upper_bound; [lia|].
            rewrite (Z.pow_add_r 2 (Zdigits2 q) (e' + 149)) by lia.
            apply Z.lt_le_trans with (B * (q + 1) * 2 ^ (e' + 149)).
            + apply Z.mul_lt_mono_pos_r; lia.
            + rewrite <- Z.mul_assoc. apply Z.mul_le_mono_nonneg_l; [lia|].
              apply Z.mul_le_mono_nonneg_r; lia. }
        unfold g. lia.
    - (* the quotient is finer than the units *)
      assert (0 < 2 ^ (- (e' + 149))) as Hpj by (apply Z.pow_pos_nonneg; lia).
      assert (P / U = q / 2 ^ (- (e' + 149))) as ->.
      { unfold q. rewrite Z.div_div by lia.
        apply (quotient_proportional P U N (B * 2 ^ (- (e' + 149)))); try lia.
        unfold P, U, N.
        assert (2 ^ (e1 + 149) * 2 ^ 149 * 2 ^ (- (e' + 149))
                = 2 ^ s * 2 ^ (e2 + 149))
          as Hpow by (rewrite <- !Z.pow_add_r by lia; f_equal; unfold s; lia).
        transitivity (A * B * (2 ^ (e1 + 149) * 2 ^ 149 * 2 ^ (- (e' + 149))));
          [ring|].
        rewrite Hpow. ring. }
      rewrite Zdigits2_div_pow2 by lia. unfold g. lia. }
  unfold rnd_quotient. rewrite Hdrop. f_equal.
  apply round_quotient_proportional; try lia.
  unfold P, U, N.
  assert (2 ^ s * 2 ^ (e2 + 149) * 2 ^ g = 2 ^ (e1 + 149) * 2 ^ 149 * 2 ^ n1)
    as Hpow by (rewrite <- !Z.pow_add_r by lia; f_equal; unfold s, g; lia).
  transitivity (A * B * (2 ^ s * 2 ^ (e2 + 149) * 2 ^ g)); [ring|].
  rewrite Hpow. ring.
Qed.

Lemma round_quotient_cases (N D n : Z) :
  0 < D -> 0 <= n ->
  round_quotient N D n = N / D / 2 ^ n \/ round_quotient N D n = N / D / 2 ^ n + 1.
Proof.
  intros HD Hn. unfold round_quotient.
  assert (0 < 2 ^ n) by (apply Z.pow_pos_nonneg; lia).
  rewrite <- Z.div_div by lia. apply round_nearest_even_cases.
Qed.

Lemma round_quotient_mono (N1 N2 D n : Z) :
  0 < D -> 0 <= n -> 0 <= N1 <= N2 ->
  round_quotient N1 D n <= round_quotient N2 D n.
Proof.
  intros HD Hn HN. unfold round_quotient.
  assert (0 < 2 ^ n) as Hp by (apply Z.pow_pos_nonneg; lia).
  set (S := D * 2 ^ n). assert (0 < S) as HS by (unfold S; lia).
  pose proof (Z.div_mod N1 S ltac:(lia)) as E1.
  pose proof (Z.div_mod N2 S ltac:(lia)) as E2.
  pose proof (Z.mod_pos_bound N1 S HS) as B1.
  pose proof (Z.mod_pos_bound N2 S HS) as B2.
  assert (N1 / S <= N2 / S) as Hq by (apply Z.div_le_mono; lia).
  destruct (Z.eq_dec (N1 / S) (N2 / S)) as [Heq|Hne].
  - rewrite Heq. apply rne_loc_mono. rewrite Heq in E1. lia.
  - destruct (round_nearest_even_cases (N1 / S) (locZ (N1 mod S) S)),
             (round_nearest_even_cases (N2 / S) (locZ (N2 mod S) S)); lia.
Qed.

Lemma rnd_quotient_bounds (N D : Z) :
  0 < D -> 0 < N / D ->
  2 ^ (Zdigits2 (N / D) - 1) <= rnd_quotient N D <= 2 ^ Zdigits2 (N / D).
Proof.
  intros HD HV. unfold rnd_quotient.
  set (V := N / D) in *.
  destruct (Zdigits2_bounds V HV) as [Hlo Hhi].
  pose proof (Zdigits2_pos V HV) as Hd.
  pose proof (drop_bits_nonneg V) as Hk.
  destruct (round_quotient_cases N D (drop_bits V) HD Hk) as [E|E];
    fold V in E; rewrite E; clear E.
  all: destruct (Z.eq_dec (drop_bits V) 0) as [E0|E0].
  all: try (rewrite E0; change (2 ^ 0) with 1; rewrite Z.div_1_r; lia).
  all: unfold drop_bits in *; set (n := Zdigits2 V - 24) in *;
    assert (0 < n) as Hn by lia;
    rewrite Z.max_r in * by lia;
    assert (0 < 2 ^ n) as Hp by (apply Z.pow_pos_nonneg; lia);
    replace (Zdigits2 V - 1) with (23 + n) in * by lia;
    replace (Zdigits2 V) with (24 + n) in * by lia;
    rewrite !Z.pow_add_r in * by lia;
    assert (2 ^ 23 <= V / 2 ^ n) by (apply Z.div_le_lower_bound; lia);
    assert (V / 2 ^ n < 2 ^ 24) by (apply Z.div_lt_upper_bound; lia);
    change (2 ^ 23) with 8388608 in *; change (2 ^ 24) with 16777216 in *; nia.
Qed.

Lemma rnd_quotient_small (N D : Z) :
  0 <= N -> 0 < D -> N / D = 0 -> 0 <= rnd_quotient N D <= 1.
Proof.
  intros HN HD HV. unfold rnd_quotient. rewrite HV.
  change (drop_bits 0) with 0.
  destruct (round_quotient_cases N D 0 HD ltac:(lia)) as [E|E];
    rewrite E, HV; change (2 ^ 0) with 1; rewrite Z.div_1_r; lia.
Qed.

(** The rounding of a quotient is monotone in its numerator. *)
Lemma rnd_quotient_mono (N1 N2 D : Z) :
  0 < D -> 0 <= N1 <= N2 -> rnd_quotient N1 D <= rnd_quotient N2 D.
Proof.
  intros HD [H1 H12].
  assert (0 <= N1 / D) as HV1 by (apply Z.div_pos; lia).
  assert (N1 / D <= N2 / D) as HV by (apply Z.div_le_mono; lia).
  destruct (Z.eq_dec (drop_bits (N1 / D)) (drop_bits (N2 / D))) as [Heq|Hneq].
  - unfold rnd_quotient. rewrite Heq.
    apply Z.mul_le_mono_nonneg_r; [apply Z.pow_nonneg; lia|].
    apply round_quotient_mono; [exact HD | apply drop_bits_nonneg | lia].
  - assert (0 < N2 / D) as HV2.
    { destruct (Z.eq_dec (N2 / D) 0) as [E|E]; [|lia].
      assert (N1 / D = 0) as E1 by lia. rewrite E, E1 in Hneq. congruence. }
    pose proof (rnd_quotient_bounds N2 D HD HV2) as [Hlo _].
    pose proof (Zdigits2_pos _ HV2) as Hd2.
    destruct (Z.eq_dec (N1 / D) 0) as [E1|E1].
    + pose proof (rnd_quotient_small N1 D H1 HD E1) as [_ Hhi].
      assert (1 <= 2 ^ (Zdigits2 (N2 / D) - 1))
        by (pose proof (Z.pow_pos_nonneg 2 (Zdigits2 (N2 / D) - 1)); lia).
      lia.
    + pose proof (rnd_quotient_bounds N1 D HD ltac:(lia)) as [_ Hhi].
      pose proof (Zdigits2_le (N1 / D) (N2 / D) ltac:(lia) HV) as Hd.
      assert (Zdigits2 (N1 / D) < Zdigits2 (N2 / D)) as Hlt
          by (unfold drop_bits in Hneq; lia).
      assert (2 ^ Zdigits2 (N1 / D) <= 2 ^ (Zdigits2 (N2 / D) - 1))
        by (apply Z.pow_le_mono_r; lia).
      lia.
Qed.

(** Dividing by a positive float is monotone: a larger numerator does not
    give a smaller quotient. *)
Lemma div_mono (ma mb md : positive) (ea eb ed : Z) :
  Float32.valid (S754_finite false ma ea) = true ->
  Float32.valid (S754_finite false mb eb) = true ->
  Float32.valid (S754_finite false md ed) = true ->
  Zpos ma * 2 ^ (ea + 149) <= Zpos mb * 2 ^ (eb + 149) ->
  units (Float32.div (S754_finite false ma ea) (S754_finite false md ed))
  <= units (Float32.div (S754_finite false mb eb) (S754_finite false md ed)).
Proof.
  intros Va Vb Vd Hle. rewrite !div_units by assumption.
  pose proof (valid_units_pos _ _ _ Va) as Ha.
  pose proof (valid_units_pos _ _ _ Vd) as Hd.
  apply Z.min_le_compat_r. apply rnd_quotient_mono; [lia|].
  assert (0 < 2 ^ 149) by (apply Z.pow_pos_nonneg; lia).
  split; [lia|]. apply Z.mul_le_mono_nonneg_r; lia.
Qed.

(** ** The order of the entries of a column *)

(** The difference of two regular floats, the larger first: a positive
    float in canonical form that stands for the rounded difference, or the
    infinity. *)
Lemma sub_pos_spec (x y : float) :
  regular x -> regular y -> units y < units x ->
  match Float32.sub x y with
  | S754_finite s m e =>
      s = false /\ Float32.valid (S754_finite s m e) = true
      /\ Zpos m * 2 ^ (e + 149) = rnd (units x - units y)
  | S754_infinity s => s = false /\ 2 ^ 277 <= rnd (units x - units y)
  | _ => False
  end.
Proof.
  intros Rx Ry Hlt.
  rewrite (sub_units_pos x y) by (try apply Rx; try apply Ry; lia).
  pose proof (float_of_units_spec false (units x - units y) ltac:(lia)) as H.
  destruct (float_of_units false (units x - units y)) as [s|s| |s m e];
    try contradiction.
  - exact H.
  - destruct H as (Hs & Hv & Hu & _). auto.
Qed.

Section Order.

Variables (x0 : float) (xs : list float).
Hypothesis Hregular : Forall regular (x0 :: xs).

Let mn : float := fold_left Float32.min xs x0.
Let mx : float := fold_left Float32.max xs x0.

Hypothesis Hneq : Float32.neqb mx mn = true.
Hypothesis Hfin : Float32.is_finite (Float32.sub mx mn) = true.

(** The rescaling keeps the order of two entries of the column. *)
Lemma rescaled_order (x y : float) :
  x ∈ x0 :: xs -> y ∈ x0 :: xs -> units x <= units y ->
  Float32.leb (normalize_entry mn mx x) (normalize_entry mn mx y) = true.
Proof.
  intros Hx Hy Hle.
  destruct (column_extremes x0 xs Hregular)
    as ((_ & Rmn) & (_ & Rmx) & Hbetween).
  fold mn mx in Rmn, Rmx, Hbetween.
  destruct (Hbetween x Hx) as [Rx Bx]. destruct (Hbetween y Hy) as [Ry By].
  pose proof (rescaled_regular x0 xs Hregular Hneq Hfin) as Hall.
  fold mn mx in Hall. rewrite Forall_forall in Hall.
  destruct (Hall (normalize_entry mn mx x)
              ltac:(apply list_elem_of_In, in_map, list_elem_of_In; exact Hx))
    as [Rfx Ufx].
  destruct (Hall (normalize_entry mn mx y)
              ltac:(apply list_elem_of_In, in_map, list_elem_of_In; exact Hy))
    as [Rfy Ufy].
  apply (leb_units _ _ Rfx Rfy).
  destruct (range_positive x0 xs Hregular Hneq Hfin) as (Hlt & _).
  fold mn mx in Hlt.
  pose proof (sub_pos_spec mx mn Rmx Rmn Hlt) as Hd.
  unfold normalize_entry in *. rewrite Hneq in *.
  destruct (Float32.sub mx mn) as [sd|sd| |sd md ed]; try contradiction;
    try discriminate Hfin.
  destruct Hd as (-> & Vd & Ud).
  destruct (Z.eq_dec (units x) (units mn)) as [Ex|Ex].
  - destruct (sub_units_zero x mn) as [s Es];
      try apply Rx; try apply Rmn; [lia|].
    rewrite Es. simpl units at 1. lia.
  - pose proof (sub_pos_spec x mn Rx Rmn ltac:(lia)) as Ha.
    pose proof (sub_pos_spec y mn Ry Rmn ltac:(lia)) as Hb.
    pose proof (rnd_mono (units x - units mn) (units y - units mn) ltac:(lia)) as M1.
    pose proof (rnd_mono (units y - units mn) (units mx - units mn) ltac:(lia)) as M2.
    pose proof (valid_units_pos _ _ _ Vd) as [_ Hdlt].
    destruct (Float32.sub x mn) as [sa|sa| |sa ma ea]; try contradiction.
    { destruct Ha as [_ Ha]. lia. }
    destruct (Float32.sub y mn) as [sb|sb| |sb mb eb]; try contradiction.
    { destruct Hb as [_ Hb]. lia. }
    destruct Ha as (-> & Va & Ua). destruct Hb as (-> & Vb & Ub).
    apply div_mono; try assumption. lia.
Qed.

End Order.

Lemma entry_elem (w : mat) (i j : nat) (x : float) :
  entry w i j = Some x -> x ∈ column w j.
Proof.
  unfold entry. intros H.
  destruct (w !! i) as [r|] eqn:Hr; [|discriminate]. simpl in H.
  eapply column_elem; [|exact H]. eapply list_elem_of_lookup_2. exact Hr.
Qed.

Lemma entry_normalized (w : mat) (i j : nat) (x x' : float) (mn mx : float) :
  column_min w j = Some mn -> column_max w j = Some mx ->
  entry w i j = Some x -> entry (normalized w) i j = Some x' ->
  x' = normalize_entry mn mx x.
Proof.
  unfold entry, normalized. intros Hmn Hmx Hx Hx'.
  rewrite list_lookup_fmap in Hx'.
  destruct (w !! i) as [r|]; [|discriminate]. simpl in Hx, Hx'.
  rewrite list_lookup_imap, Hx in Hx'. simpl in Hx'.
  rewrite Hmn, Hmx in Hx'. congruence.
Qed.

(** X18: [normalizeWeights] keeps the order within a column of a
    rectangular matrix of finite floats whose columns have a finite range:
    of two entries of a column, the one that was not above the other is not
    above it afterwards. Subtraction and division round monotonically. *)
Theorem normalizeWeights_keeps_order :
  forall weights : mat,
    rectangular weights -> finite_columns weights ->
    exists weights',
      normalizeWeights weights = Some weights'
      /\ forall (i1 i2 j : nat) (x y x' y' : float),
          entry weights i1 j = Some x -> entry weights i2 j = Some y ->
          entry weights' i1 j = Some x' -> entry weights' i2 j = Some y' ->
          Float32.leb x y = true -> Float32.leb x' y' = true.
Proof.
  intros w Hrect Hcols. exists (normalized w).
  split; [apply normalizeWeights_normalized; exact Hrect|].
  intros i1 i2 j x y x' y' Hx Hy Hx' Hy' Hle.
  pose proof (entry_elem _ _ _ _ Hx) as Xin.
  pose proof (entry_elem _ _ _ _ Hy) as Yin.
  destruct (column w j) as [|x0 xs] eqn:Ecol;
    [apply elem_of_nil in Xin; contradiction|].
  destruct (column_first w j x0 xs Ecol) as [Hmn Hmx].
  destruct (Hcols j _ _ Hmn Hmx) as [Hreg Hrange]. rewrite Ecol in Hreg.
  rewrite (entry_normalized w i1 j x x' _ _ Hmn Hmx Hx Hx').
  rewrite (entry_normalized w i2 j y y' _ _ Hmn Hmx Hy Hy').
  pose proof Hreg as Hall. rewrite Forall_forall in Hall.
  destruct (Float32.neqb (fold_left Float32.max xs x0)
                         (fold_left Float32.min xs x0)) eqn:Hneq.
  - apply (rescaled_order x0 xs Hreg Hneq (Hrange eq_refl)); try assumption.
    apply (leb_units x y (Hall x Xin) (Hall y Yin)). exact Hle.
  - rewrite !(normalize_entry_constant _ _ Hneq). exact Hle.
Qed.

Lemma normalizeWeights_keeps_order_witness :
  exists weights',
    normalizeWeights example_weights = Some weights'
    /\ forall (i1 i2 j : nat) (x y x' y' : float),
        entry example_weights i1 j = Some x ->
        entry example_weights i2 j = Some y ->
        entry weights' i1 j = Some x' -> entry weights' i2 j = Some y' ->
        Float32.leb x y = true -> Float32.leb x' y' = true.
Proof.
  apply (normalizeWeights_keeps_order example_weights).
  - exact example_weights_rectangular.
  - exact finite_columns_example.
Defined.

(** ** The helpers of the header *)

Lemma tolower_not_upper (c : ascii) : is_upper (tolower c) = false.
Proof.
  unfold tolower, is_upper.
  destruct ((65 <=? nat_of_ascii c)%nat && (nat_of_ascii c <=? 90)%nat) eqn:E.
  - apply andb_prop in E. destruct E as [E1 E2].
    apply Nat.leb_le in E1. apply Nat.leb_le in E2.
    rewrite nat_ascii_embedding by lia.
    apply andb_false_intro2. apply Nat.leb_gt. lia.
  - exact E.
Qed.

Lemma tolower_fixed (c : ascii) : is_upper c = false -> tolower c = c.
Proof. unfold is_upper, tolower. intros ->. reflexivity. Qed.

Lemma tolower_idempotent (c : ascii) : tolower (tolower c) = tolower c.
Proof. apply tolower_fixed, tolower_not_upper. Qed.

Lemma tolower_isspace (c : ascii) : isspace (tolower c) = isspace c.
Proof.
  unfold tolower.
  destruct ((65 <=? nat_of_ascii c)%nat && (nat_of_ascii c <=? 90)%nat) eqn:E;
    [|reflexivity].
  apply andb_prop in E. destruct E as [E1 E2].
  apply Nat.leb_le in E1. apply Nat.leb_le in E2.
  unfold isspace. rewrite nat_ascii_embedding by lia.
  replace (nat_of_ascii c + 32 =? 32)%nat with false
    by (symmetry; apply Nat.eqb_neq; lia).
  replace (nat_of_ascii c =? 32)%nat with false
    by (symmetry; apply Nat.eqb_neq; lia).
  replace (nat_of_ascii c + 32 <=? 13)%nat with false
    by (symmetry; apply Nat.leb_gt; lia).
  replace (nat_of_ascii c <=? 13)%nat with false
    by (symmetry; apply Nat.leb_gt; lia).
  rewrite !andb_false_r. reflexivity.
Qed.

(** X19: [lower] is idempotent, keeps the length of the string, and leaves
    no letter from A to Z in it. *)
Theorem lower_idempotent :
  forall s : string,
    lower (lower s) = lower s
    /\ String.length (lower s) = String.length s
    /\ (forall n c, String.get n (lower s) = Some c -> is_upper c = false).
Proof.
  intros s. split; [|split].
  - induction s as [|c s IH]; simpl; [reflexivity|].
    rewrite tolower_idempotent, IH. reflexivity.
  - induction s as [|c s IH]; simpl; [reflexivity|]. rewrite IH. reflexivity.
  - induction s as [|c s IH]; intros n c' H; simpl in H; [discriminate|].
    destruct n as [|n].
    + injection H as <-. apply tolower_not_upper.
    + eapply IH. exact H.
Qed.

Lemma lower_app (a b : string) : lower (a ++ b) = (lower a ++ lower b)%string.
Proof. induction a as [|c a IH]; simpl; [reflexivity|]. rewrite IH. reflexivity. Qed.

Lemma lower_empty (s : string) : String.eqb (lower s) "" = String.eqb s "".
Proof. destruct s; reflexivity. Qed.

Lemma split_from_lower (s : string) :
  forall cur, split_from (lower cur) (lower s) = map lower (split_from cur s).
Proof.
  induction s as [|c s IH]; intros cur; simpl.
  - rewrite lower_empty. destruct (String.eqb cur ""); reflexivity.
  - rewrite tolower_isspace. destruct (isspace c).
    + rewrite lower_empty. destruct (String.eqb cur ""); simpl.
      * apply (IH "").
      * f_equal. apply (IH "").
    + rewrite <- IH. rewrite lower_app. reflexivity.
Qed.

(** X20: lowering a sentence and splitting it gives the lowered tokens of
    the sentence: [lower] moves no whitespace. *)
Theorem split_lower :
  forall sentence : string, split (lower sentence) = map lower (split sentence).
Proof. intros s. apply (split_from_lower s ""). Qed.

(** X21: [HuffmanNode::comp] is a strict weak ordering, as [std::sort]
    asks of its comparison: irreflexive, asymmetric, transitive, with a
    transitive incomparability (nodes of equal count). *)
Theorem comp_strict_weak_order :
  forall a b c : HuffmanNode,
    comp a a = false
    /\ (comp a b = true -> comp b a = false)
    /\ (comp a b = true -> comp b c = true -> comp a c = true)
    /\ (comp a b = false -> comp b a = false ->
        comp b c = false -> comp c b = false ->
        comp a c = false /\ comp c a = false).
Proof.
  intros a b c. unfold comp. repeat split; intros;
    repeat match goal with
           | H : (_ <? _) = true |- _ => apply Z.ltb_lt in H
           | H : (_ <? _) = false |- _ => apply Z.ltb_ge in H
           | |- (_ <? _) = true => apply Z.ltb_lt
           | |- (_ <? _) = false => apply Z.ltb_ge
           end; lia.
Qed.

(** X22: [operator==] on nodes is an equivalence that looks at the index
    alone, [operator!=] is its negation, and a leaf differs from the node of
    an unknown word exactly when its index is not -1, whatever the members
    the default constructor leaves unset hold. *)
Theorem HuffmanNode_eq_by_index :
  forall (a b c : HuffmanNode) (l r : option HuffmanNode) (cnt i : Z) (lf sid : bool)
         (w : string),
    HuffmanNode_eq a a = true
    /\ HuffmanNode_eq a b = HuffmanNode_eq b a
    /\ (HuffmanNode_eq a b = true -> HuffmanNode_eq b c = true ->
        HuffmanNode_eq a c = true)
    /\ HuffmanNode_ne a b = negb (HuffmanNode_eq a b)
    /\ (HuffmanNode_eq a b = true <-> index a = index b)
    /\ (HuffmanNode_ne (HuffmanNode_leaf i w sid) (HuffmanNode_unk l r cnt lf) = true
        <-> i <> -1).
Proof.
  intros. unfold HuffmanNode_ne, HuffmanNode_eq. simpl.
  repeat split; intros;
    repeat match goal with
           | H : (_ =? _) = true |- _ => apply Z.eqb_eq in H
           | H : negb _ = true |- _ => apply negb_true_iff, Z.eqb_neq in H
           | |- (_ =? _) = true => apply Z.eqb_eq
           | |- negb _ = true => apply negb_true_iff, Z.eqb_neq
           end; try lia; try congruence.
Qed.

(** ** The random numbers of the header *)

(** X23: [rand] returns its new state without the 16 low bits, a value
    below [2 ^ 48], and the step from one state to the next is injective on
    the 64 bit states: two different states never lead to the same one. *)
Theorem rand_state_and_range :
  forall s1 s2 : Z,
    (0 <= fst (rand s1) < 2 ^ 48
     /\ 0 <= snd (rand s1) < 2 ^ 64
     /\ fst (rand s1) = snd (rand s1) / 2 ^ 16)
    /\ (0 <= s1 < 2 ^ 64 -> 0 <= s2 < 2 ^ 64 ->
        snd (rand s1) = snd (rand s2) -> s1 = s2).
Proof.
  intros s1 s2. unfold rand. cbn [fst snd]. split.
  - pose proof (Z.mod_pos_bound (s1 * 25214903917 + 11) (2 ^ 64) ltac:(lia)) as Hb.
    set (n := (s1 * 25214903917 + 11) mod 2 ^ 64) in *.
    rewrite Z.shiftr_div_pow2 by lia.
    split; [|split; [exact Hb | reflexivity]].
    split.
    + apply Z.div_pos; lia.
    + apply Z.div_lt_upper_bound; [lia|].
      change (2 ^ 16 * 2 ^ 48) with (2 ^ 64). lia.
  - intros H1 H2 Heq.
    assert ((2 ^ 64 | (s1 - s2) * 25214903917)) as Hdiv.
    { pose proof (Z.div_mod (s1 * 25214903917 + 11) (2 ^ 64) ltac:(lia)) as E1.
      pose proof (Z.div_mod (s2 * 25214903917 + 11) (2 ^ 64) ltac:(lia)) as E2.
      rewrite Heq in E1.
      exists ((s1 * 25214903917 + 11) / 2 ^ 64 - (s2 * 25214903917 + 11) / 2 ^ 64).
      lia. }
    rewrite Z.mul_comm in Hdiv.
    apply Z.gauss in Hdiv; [|vm_compute; reflexivity].
    destruct Hdiv as [c Hc].
    assert (c = 0) by nia. lia.
Qed.

Lemma of_Z_normal (k : Z) :
  0 < k < 2 ^ 24 ->
  exists m e,
    Float32.of_Z k = S754_finite false m e
    /\ Float32.valid (S754_finite false m e) = true
    /\ Zpos m * 2 ^ (e + 149) = k * 2 ^ 149
    /\ Zdigits2 (Zpos m) = 24 /\ -24 < e <= 0.
Proof.
  intros Hk. destruct (of_Z_exact k ltac:(lia)) as (m & e & E & Hv & Hu).
  exists m, e. split; [exact E|]. split; [exact Hv|].
  simpl units in Hu. split; [exact Hu|].
  destruct (valid_finite_inv _ _ _ Hv) as (He & Hm & Hnorm).
  assert (-24 < e <= 0) as Hr.
  { split.
    - destruct (Z.le_gt_cases e (-24)) as [H|H]; [|lia]. exfalso.
      assert (2 ^ (e + 149) <= 2 ^ 125) by (apply Z.pow_le_mono_r; lia).
      assert (0 < 2 ^ (e + 149)) by (apply Z.pow_pos_nonneg; lia).
      assert (2 ^ 149 = 2 ^ 24 * 2 ^ 125) by (rewrite <- Z.pow_add_r by lia; reflexivity).
      assert (0 < 2 ^ 125) by (apply Z.pow_pos_nonneg; lia).
      nia.
    - destruct (Z.le_gt_cases e 0) as [H|H]; [exact H|]. exfalso.
      assert (2 ^ 150 <= 2 ^ (e + 149)) by (apply Z.pow_le_mono_r; lia).
      assert (2 ^ 150 = 2 * 2 ^ 149) by (rewrite <- Z.pow_succ_r by lia; reflexivity).
      assert (2 ^ 23 <= Zpos m) by (apply Hnorm; lia).
      assert (0 < 2 ^ 149) by (apply Z.pow_pos_nonneg; lia).
      assert (2 ^ 24 = 2 * 2 ^ 23) by reflexivity.
      nia. }
  split; [|exact Hr].
  apply Zdigits2_unique; [|lia]. change (24 - 1) with 23.
  split; [apply Hnorm; lia | exact Hm].
Qed.

(** X24: [randf] returns [k / 65536] exactly, [k] being the 16 low bits of
    what [rand] returns: a float in canonical form, at least 0 and strictly
    below 1; the state moves as in [rand]. *)
Theorem randf_unit_interval :
  forall next_random : Z,
    let k := Z.land (fst (rand next_random)) 65535 in
    let v := fst (randf next_random) in
    snd (randf next_random) = snd (rand next_random)
    /\ 0 <= k < 65536
    /\ Float32.valid v = true
    /\ units v = k * 2 ^ 133
    /\ Float32.leb Float32.zero v = true
    /\ Float32.ltb v Float32.one = true.
Proof.
  intros s k v. unfold randf in *. destruct (rand s) as [r next] eqn:Er.
  cbn [fst snd] in *. split; [reflexivity|].
  assert (0 <= k < 65536) as Hk.
  { unfold k. change 65535 with (Z.ones 16). rewrite Z.land_ones by lia.
    apply Z.mod_pos_bound. lia. }
  split; [exact Hk|].
  destruct (Z.eq_dec k 0) as [E|E].
  { unfold v. fold k. rewrite E. repeat split; reflexivity. }
  destruct (of_Z_normal k ltac:(change (2 ^ 24) with 16777216; lia))
    as (m & e & Eo & Hv & Hu & Hd & He).
  assert (Float32.valid (S754_finite false m (e - -7 - 23)) = true) as Vt
      by (apply valid_normal; [exact Hd | lia]).
  assert (v = S754_finite false m (e - -7 - 23)) as ->.
  { unfold v. fold k. rewrite Eo. apply div_pow2; assumption. }
  split; [exact Vt|].
  assert (units (S754_finite false m (e - -7 - 23)) = k * 2 ^ 133) as Hunits.
  { simpl units.
    assert (2 ^ (e + 149) = 2 ^ (e - -7 - 23 + 149) * 2 ^ 16) as Ep
        by (rewrite <- Z.pow_add_r by lia; f_equal; lia).
    assert (2 ^ 149 = 2 ^ 133 * 2 ^ 16) as E149 by reflexivity.
    rewrite Ep, E149 in Hu. 
    apply (Z.mul_reg_r _ _ (2 ^ 16)); [lia|]. lia. }
  split; [exact Hunits|]. split; [reflexivity|].
  apply ltb_units.
  - split; [exact Vt | reflexivity].
  - split; reflexivity.
  - rewrite Hunits. change (units Float32.one) with (65536 * 2 ^ 133).
    apply Z.mul_lt_mono_pos_r; [apply Z.pow_pos_nonneg|]; lia.
Qed.

(** ** The sigmoid *)

Lemma SFcompare_antisym (x y : float) :
  SFcompare y x = CompOpp <$> SFcompare x y.
Proof.
  destruct x as [sx|sx| |sx mx ex], y as [sy|sy| |sy my ey];
    try reflexivity; try (destruct sx; reflexivity);
    try (destruct sy; reflexivity); try (destruct sx, sy; reflexivity).
  simpl. f_equal. destruct sx, sy; try reflexivity;
    rewrite (Z.compare_antisym ex ey);
    destruct (ex ?= ey); simpl; try reflexivity;
    rewrite (Pos.compare_cont_antisym mx my Datatypes.Eq); reflexivity.
Qed.

Lemma SFcompare_None (x y : float) :
  SFcompare x y = None <-> Float32.is_nan x = true \/ Float32.is_nan y = true.
Proof.
  destruct x as [sx|sx| |sx mx ex], y as [sy|sy| |sy my ey]; simpl;
    split; try discriminate; auto; intros [H|H]; discriminate H.
Qed.

(** X25: the assertion of [sigmoid] fails exactly when [x] is a NaN, at
    most [-MAX_EXP] or at least [MAX_EXP]: the bounds -6 and 6 are out. *)
Theorem sigmoid_assertion :
  forall (exp : float -> float) (x : float),
    sigmoid exp x = None
    <-> (Float32.is_nan x = true
         \/ Float32.leb x (SFopp MAX_EXP) = true
         \/ Float32.leb MAX_EXP x = true).
Proof.
  intros exp x. unfold sigmoid.
  set (lo := SFopp MAX_EXP). set (hi := MAX_EXP).
  assert (Float32.is_nan lo = false) as Hlo by (vm_compute; reflexivity).
  assert (Float32.is_nan hi = false) as Hhi by (vm_compute; reflexivity).
  clearbody lo hi.
  unfold Float32.ltb, Float32.leb, SFltb, SFleb.
  rewrite (SFcompare_antisym x lo).
  pose proof (SFcompare_None x lo) as N1.
  destruct (SFcompare x lo) as [[| |]|]; simpl.
  - split; [auto | reflexivity].
  - split; [auto | reflexivity].
  - rewrite (SFcompare_antisym x hi).
    pose proof (SFcompare_None x hi) as N2.
    destruct (SFcompare x hi) as [[| |]|]; simpl.
    + split; [auto | reflexivity].
    + split; [discriminate|]. intros [H|[H|H]]; try discriminate H.
      destruct N2 as [_ N2]. discriminate (N2 (or_introl H)).
    + split; [auto | reflexivity].
    + split; [|reflexivity]. intros _. left.
      destruct N2 as [N2 _]. destruct (N2 eq_refl) as [H|H]; congruence.
  - split; [|reflexivity]. intros _. left.
    destruct N1 as [N1 _]. destruct (N1 eq_refl) as [H|H]; congruence.
Qed.



